(** * next-drupal: the [NextDrupalBase] client

    A shallow embedding of [packages/next-drupal/src/next-drupal-base.ts],
    the base class of the clients: the Authorization header, the cached
    access token, URLs and paths, [fetch], and the errors of a response.

    Conventions of the embedding.
    - A JavaScript string is a Rocq [string]: the sequence of the bytes of
      its UTF-8 encoding (strings are assumed well formed, no lone
      surrogates).  On such strings [startsWith], [endsWith], [+] and the
      removal of a final ["/"] agree with their UTF-16 originals, and
      percent-encoding works byte by byte.
    - [undefined] is [None]; a value of type [T | undefined] is an
      [option T].  A property that is absent and a property that holds
      [undefined] are not told apart.
    - Numbers that the code handles (time stamps, status codes,
      [expires_in]) are integers, in [Z].
    - A method is a function of the instance and of the world around it
      (the transport, the clock, the logger); [await] is sequencing.
    - The platform ([Headers], [URL], [Response]) and the [qs] package
      are modelled as far as the code uses them; the URL parser, and the
      message of the class [JsonApiErrors], are parameters. *)

From Stdlib Require Import ZArith List String Ascii Bool Lia DecimalString.
Import ListNotations.

Set Warnings "-register-all".

Open Scope bool_scope.
Open Scope list_scope.
Open Scope string_scope.

(* ================================================================== *)
(** * Strings as JavaScript sees them *)

Module JsString.

(** [s.startsWith(p)]. *)
Fixpoint startsWith (p s : string) : bool :=
  match p with
  | EmptyString => true
  | String a p' =>
      match s with
      | EmptyString => false
      | String b s' => Ascii.eqb a b && startsWith p' s'
      end
  end.

(** [s.endsWith(p)]: some tail of [s] is [p]. *)
Fixpoint endsWith (p s : string) : bool :=
  String.eqb s p ||
  match s with
  | EmptyString => false
  | String _ s' => endsWith p s'
  end.

(** [s.slice(0, -1)]: [s] without its last character. *)
Fixpoint slice_0_m1 (s : string) : string :=
  match s with
  | EmptyString => EmptyString
  | String _ EmptyString => EmptyString
  | String c s' => String c (slice_0_m1 s')
  end.

(** [parts.join(sep)]. *)
Fixpoint join (sep : string) (parts : list string) : string :=
  match parts with
  | [] => ""
  | [p] => p
  | p :: rest => p ++ sep ++ join sep rest
  end.

(** Truthiness of a string: the empty string is falsy. *)
Definition truthy (s : string) : bool := negb (String.eqb s "").

(** Truthiness of an optional string. *)
Definition truthy_opt (o : option string) : bool :=
  match o with
  | Some s => truthy s
  | None => false
  end.

(** [a === b] on optional strings. *)
Definition eq_opt (a b : option string) : bool :=
  match a, b with
  | Some x, Some y => String.eqb x y
  | None, None => true
  | _, _ => false
  end.

Definition is_upper (c : ascii) : bool :=
  let n := nat_of_ascii c in (65 <=? n)%nat && (n <=? 90)%nat.
Definition is_lower (c : ascii) : bool :=
  let n := nat_of_ascii c in (97 <=? n)%nat && (n <=? 122)%nat.
Definition is_digit (c : ascii) : bool :=
  let n := nat_of_ascii c in (48 <=? n)%nat && (n <=? 57)%nat.
Definition is_alnum (c : ascii) : bool :=
  is_upper c || is_lower c || is_digit c.

(** ASCII lower-casing, as the platform applies to header names. *)
Definition lower_char (c : ascii) : ascii :=
  if is_upper c then ascii_of_nat (nat_of_ascii c + 32) else c.

Fixpoint toLowerCase (s : string) : string :=
  match s with
  | EmptyString => EmptyString
  | String c s' => String (lower_char c) (toLowerCase s')
  end.

(** Is the character [c] one of the characters of [set]? *)
Fixpoint mem_char (c : ascii) (set : string) : bool :=
  match set with
  | EmptyString => false
  | String d set' => Ascii.eqb c d || mem_char c set'
  end.

Definition hex_digit (n : nat) : ascii :=
  match String.get n "0123456789ABCDEF" with
  | Some c => c
  | None => "0"%char
  end.

(** ["%XX"], upper-case hexadecimal, for one byte. *)
Definition percent_byte (c : ascii) : string :=
  let n := nat_of_ascii c in
  String "%" (String (hex_digit (n / 16)) (String (hex_digit (n mod 16)) "")).

(** Percent-encoding of every byte that [keep] does not accept. *)
Fixpoint percent_encode (keep : ascii -> bool) (s : string) : string :=
  match s with
  | EmptyString => EmptyString
  | String c s' =>
      (if keep c then String c "" else percent_byte c)
        ++ percent_encode keep s'
  end.

(** The characters [encodeURIComponent] leaves alone. *)
Definition uri_component_keep (c : ascii) : bool :=
  is_alnum c || mem_char c "-_.!~*'()".

(** [encodeURIComponent(s)]. *)
Definition encodeURIComponent (s : string) : string :=
  percent_encode uri_component_keep s.

End JsString.

Import JsString.

(* ================================================================== *)
(** * Paths: [addLocalePrefix] and [constructPathFromSegment] *)

(** The [segment] argument: [string | string[]]. *)
Inductive Segment : Type :=
| SegString (s : string)
| SegArray (parts : list string).

(** The options of the two path functions; each field may be absent. *)
Record PathOptions : Type := mkPathOptions {
  locale : option string;
  defaultLocale : option string;
  pathPrefix : option string
}.

Definition no_options : PathOptions := mkPathOptions None None None.

(** [`/${locale}`] for a locale that is known to be a string; the template
    is only evaluated behind the test that [locale] is truthy. *)
Definition slash_locale (l : option string) : string :=
  match l with
  | Some s => "/" ++ s
  | None => "/undefined"
  end.

(** [addLocalePrefix(path, { locale, defaultLocale })]. *)
Definition addLocalePrefix (path : string) (options : PathOptions) : string :=
  let path := if negb (startsWith "/" path) then "/" ++ path else path in
  let localePrefix :=
    if truthy_opt (locale options)
       && negb (startsWith (slash_locale (locale options)) path)
       && negb (eq_opt (locale options) (defaultLocale options))
    then slash_locale (locale options)
    else "" in
  localePrefix ++ path.

(** The normalisation of [pathPrefix] at the head of
    [constructPathFromSegment]. *)
Definition normalize_pathPrefix (options : PathOptions) : string :=
  let pathPrefix0 := match pathPrefix options with Some p => p | None => "" end in
  if truthy pathPrefix0 then
    let p1 := if negb (startsWith "/" pathPrefix0) then "/" ++ pathPrefix0
              else pathPrefix0 in
    if endsWith "/" p1 then slice_0_m1 p1 else p1
  else pathPrefix0.

(** The parts of a segment: a string is one part, or none when empty. *)
Definition segment_parts (segment : Segment) : list string :=
  match segment with
  | SegArray parts => parts
  | SegString s => if truthy s then [s] else []
  end.

(** [constructPathFromSegment(segment, options)]; [frontPage] is the
    client's field of that name. *)
Definition constructPathFromSegment (frontPage : string)
    (segment : Segment) (options : PathOptions) : string :=
  let pathPrefix := normalize_pathPrefix options in
  let segment := join "/" (map encodeURIComponent (segment_parts segment)) in
  let segment :=
    if negb (truthy segment) && negb (truthy pathPrefix) then frontPage
    else segment in
  let segment :=
    if truthy segment && negb (startsWith "/" segment) then "/" ++ segment
    else segment in
  let segment := if endsWith "/" segment then slice_0_m1 segment else segment in
  addLocalePrefix (pathPrefix ++ segment)
    (mkPathOptions (locale options) (defaultLocale options) None).

(** The front page of a client built without the [frontPage] option. *)
Definition DEFAULT_FRONT_PAGE : string := "/home".

(** The shape that a path is meant to have. *)
Definition one_leading_slash (s : string) : bool :=
  startsWith "/" s && negb (startsWith "//" s).

Definition no_trailing_slash (s : string) : bool := negb (endsWith "/" s).

(** A configured prefix or front page that neither begins nor ends with
    two slashes. *)
Definition tidy (s : string) : bool :=
  negb (startsWith "//" s) && negb (endsWith "//" s).

(** The shape that each of the two halves of a path has: nothing, or
    one slash in front and none at the end. *)
Definition clean (s : string) : Prop :=
  s = "" \/ (one_leading_slash s = true /\ endsWith "/" s = false).

(** A string without any slash. *)
Fixpoint slash_free (s : string) : bool :=
  match s with
  | EmptyString => true
  | String c s' => negb (Ascii.eqb c "/") && slash_free s'
  end.

(** What [constructPathFromSegment] does to a non-empty prefix and to a
    non-empty segment alike: a slash is put in front unless there is one,
    then one final slash is taken away. *)
Definition with_slashes_set (x : string) : string :=
  let x1 := if negb (startsWith "/" x) then "/" ++ x else x in
  if endsWith "/" x1 then slice_0_m1 x1 else x1.

(** The leading segment of a path, in the words of the specification:
    the text between the first slash and the next one. *)
Fixpoint up_to_slash (s : string) : string :=
  match s with
  | EmptyString => EmptyString
  | String c s' => if Ascii.eqb c "/" then EmptyString else String c (up_to_slash s')
  end.

Definition leading_segment (path : string) : string :=
  match path with
  | String "/" rest => up_to_slash rest
  | _ => up_to_slash path
  end.

(* ================================================================== *)
(** * Base64, as [Buffer.from(s).toString("base64")] *)

Module Base64.

Definition alphabet : string :=
  "ABCDEFGHIJKLMNOPQRSTUVWXYZabcdefghijklmnopqrstuvwxyz0123456789+/".

(** The character of a 6-bit value. *)
Definition sextet (n : nat) : ascii :=
  match String.get (n mod 64) alphabet with
  | Some c => c
  | None => "="%char
  end.

(** Three bytes give four characters; a final group of one or two bytes
    is padded with ["="]. *)
Fixpoint encode (s : string) : string :=
  match s with
  | EmptyString => EmptyString
  | String a EmptyString =>
      let x := nat_of_ascii a in
      String (sextet (x / 4))
        (String (sextet ((x mod 4) * 16)) "==")
  | String a (String b EmptyString) =>
      let x := nat_of_ascii a in
      let y := nat_of_ascii b in
      String (sextet (x / 4))
        (String (sextet ((x mod 4) * 16 + y / 16))
           (String (sextet ((y mod 16) * 4)) "="))
  | String a (String b (String c rest)) =>
      let x := nat_of_ascii a in
      let y := nat_of_ascii b in
      let z := nat_of_ascii c in
      String (sextet (x / 4))
        (String (sextet ((x mod 4) * 16 + y / 16))
           (String (sextet ((y mod 16) * 4 + z / 64))
              (String (sextet (z mod 64)) (encode rest))))
  end.

End Base64.

(* ================================================================== *)
(** * JSON values, and the JavaScript reading of their properties *)

Module Json.

Inductive JSON : Type :=
| JNull
| JBool (b : bool)
| JNum (n : Z)
| JStr (s : string)
| JArr (items : list JSON)
| JObj (fields : list (string * JSON)).

(** The value of key [k] in an object parsed from JSON text: the last
    occurrence of a repeated key wins. *)
Fixpoint lookup_last (k : string) (fields : list (string * JSON))
  : option JSON :=
  match fields with
  | [] => None
  | (k', v) :: rest =>
      match lookup_last k rest with
      | Some w => Some w
      | None => if String.eqb k k' then Some v else None
      end
  end.

(** The number of UTF-16 code units of a string given by its UTF-8
    bytes: one per character, two for a character of four bytes. *)
Fixpoint utf16_length (s : string) : nat :=
  match s with
  | EmptyString => 0
  | String c s' =>
      let n := nat_of_ascii c in
      (if (n <? 128)%nat then 1
       else if (n <? 192)%nat then 0
       else if (n <? 240)%nat then 1
       else 2) + utf16_length s'
  end.

(** [v?.k] for a property name [k] that is not an array index;
    [undefined] is [None]. *)
Definition get_prop (v : option JSON) (k : string) : option JSON :=
  match v with
  | Some (JObj fields) => lookup_last k fields
  | Some (JArr items) =>
      if String.eqb k "length" then Some (JNum (Z.of_nat (List.length items)))
      else None
  | Some (JStr s) =>
      if String.eqb k "length" then Some (JNum (Z.of_nat (utf16_length s)))
      else None
  | _ => None
  end.

(** Truthiness of a value. *)
Definition is_truthy (v : option JSON) : bool :=
  match v with
  | None | Some JNull => false
  | Some (JBool b) => b
  | Some (JNum n) => negb (n =? 0)%Z
  | Some (JStr s) => JsString.truthy s
  | Some (JArr _) | Some (JObj _) => true
  end.

End Json.

Import Json.

(* ================================================================== *)
(** * The platform's [Headers] collection *)

Module Headers.

(** A header list: names are kept as given and matched without regard
    to ASCII case.  Names and values are taken to be valid and already
    normalised (no surrounding white space), so that the platform's
    validation never throws. *)
Definition t : Type := list (string * string).

(** What [new Headers(init)] accepts: a record, a sequence of pairs, or
    another [Headers]; each is a sequence of name-value pairs. *)
Definition HeadersInit : Type := list (string * string).

Definition same_name (a b : string) : bool :=
  String.eqb (toLowerCase a) (toLowerCase b).

Definition has (h : t) (name : string) : bool :=
  existsb (fun e => same_name (fst e) name) h.

(** [h.append(name, value)]. *)
Definition append (h : t) (name value : string) : t :=
  (h ++ [(name, value)])%list.

(** [new Headers(init)]. *)
Definition make (init : HeadersInit) : t :=
  fold_left (fun h e => append h (fst e) (snd e)) init [].

(** The values held under a name. *)
Definition values (h : t) (name : string) : list string :=
  map snd (filter (fun e => same_name (fst e) name) h).

(** [h.get(name)]: the values of that name, joined by [", "]. *)
Definition get (h : t) (name : string) : option string :=
  match filter (fun e => same_name (fst e) name) h with
  | [] => None
  | found => Some (join ", " (map snd found))
  end.

Definition remove (h : t) (name : string) : t :=
  filter (fun e => negb (same_name (fst e) name)) h.

(** [h.set(name, value)]: the first entry of that name takes the value
    and the others go; without one, the pair is appended. *)
Fixpoint set (h : t) (name value : string) : t :=
  match h with
  | [] => [(name, value)]
  | (n, v) :: rest =>
      if same_name n name then (n, value) :: remove rest name
      else (n, v) :: set rest name value
  end.

Fixpoint insert_sorted (x : string) (l : list string) : list string :=
  match l with
  | [] => [x]
  | y :: l' =>
      if String.eqb x y then l
      else if String.ltb x y then x :: l
      else y :: insert_sorted x l'
  end.

(** [h.keys()]: the lower-cased names, sorted, each one once. *)
Definition keys (h : t) : list string :=
  fold_right (fun e acc => insert_sorted (toLowerCase (fst e)) acc) [] h.

End Headers.

(* ================================================================== *)
(** * Query strings: [stringify] of the [qs] package, default options *)

Module Qs.

(** The values [stringify] is given: strings, [null], [undefined],
    arrays and plain objects.  The fields of an object come in the order
    of enumeration of its keys. *)
Inductive QValue : Type :=
| QString (s : string)
| QNull
| QUndefined
| QArray (items : list QValue)
| QObject (fields : list (string * QValue)).

(** [utils.encode], UTF-8, RFC 3986: letters, digits and [-._~] stay. *)
Definition keep (c : ascii) : bool := is_alnum c || mem_char c "-._~".

Definition encode (s : string) : string := percent_encode keep s.

Definition decimal (n : nat) : string :=
  NilEmpty.string_of_uint (Nat.to_uint n).

(** The inner [stringify(obj, prefix, ...)]: the [key=value] pairs of
    one value.  Array items are reached as [prefix[i]] (the [indices]
    format), object fields as [prefix[key]]. *)
Fixpoint stringify_value (v : QValue) (prefix : string) : list string :=
  match v with
  | QString s => [encode prefix ++ "=" ++ encode s]
  | QNull => [encode prefix ++ "=" ++ encode ""]
  | QUndefined => []
  | QArray items =>
      (fix each (l : list QValue) (i : nat) : list string :=
         match l with
         | [] => []
         | x :: l' =>
             stringify_value x (prefix ++ "[" ++ decimal i ++ "]")
               ++ each l' (S i)
         end)%list items 0
  | QObject fields =>
      (fix each (l : list (string * QValue)) : list string :=
         match l with
         | [] => []
         | (k, x) :: l' =>
             stringify_value x (prefix ++ "[" ++ k ++ "]") ++ each l'
         end)%list fields
  end.

(** The pairs of the own enumerable keys of the top-level object. *)
Fixpoint top_pairs (fields : list (string * QValue)) : list string :=
  match fields with
  | [] => []
  | (k, x) :: l' => (stringify_value x k ++ top_pairs l')%list
  end.

(** [stringify(fields)] for a plain object with these fields, in their
    enumeration order. *)
Definition stringify (fields : list (string * QValue)) : string :=
  join "&" (top_pairs fields).

End Qs.

(* ================================================================== *)
(** * The platform's [URL] *)

Module Url.

(** A URL with an authority.  [query] and [fragment] are [None] when
    the URL has none. *)
Record URL : Type := mkURL {
  scheme : string;
  authority : string;
  pathname : string;
  query : option string;
  fragment : option string
}.

(** [url.toString()], the serialisation. *)
Definition toString (u : URL) : string :=
  scheme u ++ "://" ++ authority u ++ pathname u
    ++ (match query u with Some q => "?" ++ q | None => "" end)
    ++ (match fragment u with Some f => "#" ++ f | None => "" end).

(** [url.search]. *)
Definition search (u : URL) : string :=
  match query u with
  | Some q => if JsString.truthy q then "?" ++ q else ""
  | None => ""
  end.

Definition is_special (s : string) : bool :=
  existsb (String.eqb s) ["http"; "https"; "ws"; "wss"; "ftp"; "file"].

(** Tab, line feed and carriage return are removed from the input. *)
Definition is_tab_or_newline (c : ascii) : bool :=
  let n := nat_of_ascii c in
  (n =? 9)%nat || (n =? 10)%nat || (n =? 13)%nat.

Fixpoint strip_tab_newline (s : string) : string :=
  match s with
  | EmptyString => EmptyString
  | String c s' =>
      if is_tab_or_newline c then strip_tab_newline s'
      else String c (strip_tab_newline s')
  end.

(** The bytes the query state leaves alone: not a control, not beyond
    the tilde, none of space, double quote, hash, less-than and
    greater-than, nor the apostrophe in a special scheme. *)
Definition query_keep (special : bool) (c : ascii) : bool :=
  let n := nat_of_ascii c in
  (32 <? n)%nat && (n <=? 126)%nat
  && negb ((n =? 34)%nat || mem_char c "#<>")
  && negb (special && (n =? 39)%nat).

(** The setter [url.search = value]. *)
Definition set_search (u : URL) (value : string) : URL :=
  if negb (JsString.truthy value) then
    mkURL (scheme u) (authority u) (pathname u) None (fragment u)
  else
    let input :=
      match value with
      | String "?" rest => rest
      | _ => value
      end in
    mkURL (scheme u) (authority u) (pathname u)
      (Some (percent_encode (query_keep (is_special (scheme u)))
               (strip_tab_newline input)))
      (fragment u).

Fixpoint all_chars (p : ascii -> bool) (s : string) : bool :=
  match s with
  | EmptyString => true
  | String c s' => p c && all_chars p s'
  end.

(** The text before the first ["/"] and the text from it on. *)
Fixpoint split_at_slash (s : string) : string * string :=
  match s with
  | EmptyString => (EmptyString, EmptyString)
  | String c s' =>
      if Ascii.eqb c "/"%char then (EmptyString, s)
      else let (a, b) := split_at_slash s' in (String c a, b)
  end.

Definition plain_host_char (c : ascii) : bool :=
  is_lower c || Ascii.eqb c "."%char.

Definition plain_path_char (c : ascii) : bool :=
  is_alnum c || mem_char c "-_~/".

Definition plain_host (h : string) : bool :=
  all_chars plain_host_char h
  && match h with String c _ => is_lower c | EmptyString => false end
  && negb (endsWith "." h)
  && negb (existsb (fun i => String.eqb (substring i 2 h) "..")
             (seq 0 (String.length h))).

Definition plain_path (p : string) : bool :=
  all_chars plain_path_char p.

(** An absolute [http] or [https] URL made of a plain host and a plain
    path. *)
Definition parse_plain_absolute (s : string) : option URL :=
  let try (sch : string) : option URL :=
    if startsWith (sch ++ "://") s then
      let rest := substring (String.length sch + 3)
                    (String.length s - (String.length sch + 3)) s in
      let (h, p) := split_at_slash rest in
      if plain_host h && plain_path p then
        Some (mkURL sch h (if JsString.truthy p then p else "/") None None)
      else None
    else None in
  match try "https" with
  | Some u => Some u
  | None => try "http"
  end.

(** The text of a path up to its last ["/"], that slash included. *)
Fixpoint directory (p : string) : string :=
  match p with
  | EmptyString => EmptyString
  | String c p' =>
      let d := directory p' in
      if JsString.truthy d || Ascii.eqb c "/"%char then String c d
      else EmptyString
  end.

(** A model of [new URL(input, base)] on plain inputs: [base] an
    absolute [http(s)] URL whose host is made of lower-case letters and
    dots and whose path is made of letters, digits and [-_~/]; [input]
    either such an absolute URL, or a path of such characters that
    starts with one ["/"], or a non-empty path of such characters that
    starts with none, which is resolved in the directory of the path of
    [base].  These are URLs that the platform's parser leaves as they
    are.  Any other input is outside this model and yields [None]. *)
Definition parse_plain (input base : string) : option URL :=
  match parse_plain_absolute base with
  | None => None
  | Some b =>
      match parse_plain_absolute input with
      | Some u => Some u
      | None =>
          if startsWith "/" input && negb (startsWith "//" input)
             && plain_path input
          then Some (mkURL (scheme b) (authority b) input None None)
          else if JsString.truthy input && negb (startsWith "/" input)
                  && plain_path input
          then Some (mkURL (scheme b) (authority b)
                       (directory (pathname b) ++ input) None None)
          else None
      end
  end.

End Url.


(* ================================================================== *)
(** * The data the client handles *)

(** Modelled from the spec: the type [NextDrupalAuth] of [./types], which
    is not among the sources.  It is an object told apart by the fields
    it has (the fields of [NextDrupalAuthUsernamePassword],
    [NextDrupalAuthClientIdSecret] and [NextDrupalAuthAccessToken]), a
    ready header, or a callback without arguments that returns the
    header.  A field that is absent and a field that is [undefined] are
    both [None], but for [url]: the code spreads the object over a
    default [url], and there the two differ. *)
Module NextDrupalAuth.

(** A property that an object may lack: it is absent, or it is there
    with the value [undefined], or it is there with a string.  Reading
    it gives [undefined] in the first two cases; a spread of the object
    copies it in the last two. *)
Inductive OwnProperty : Type :=
| Absent
| Undefined
| Present (value : string).

Record Fields : Type := mkFields {
  username : option string;
  password : option string;
  clientId : option string;
  clientSecret : option string;
  url_property : OwnProperty;
  scope : option string;
  access_token : option string;
  token_type : option string
}.

(** [auth.url]. *)
Definition url (f : Fields) : option string :=
  match url_property f with
  | Present value => Some value
  | Absent | Undefined => None
  end.

Definition no_fields : Fields :=
  mkFields None None None None Absent None None None.

Inductive t : Type :=
| Object (fields : Fields)
| Header (value : string)
| Callback (produce : unit -> string).

(** The fields read off a value of type [NextDrupalAuth | undefined]: a
    string, a function and [undefined] have none of them. *)
Definition fields_of (auth : option t) : Fields :=
  match auth with
  | Some (Object f) => f
  | _ => no_fields
  end.

(** [{ url: default, ...f }]: the [url] of [f] when [f] has the
    property, be it with the value [undefined], and the default when it
    has not. *)
Definition over_default_url (default : string) (f : Fields) : Fields :=
  mkFields (username f) (password f) (clientId f) (clientSecret f)
    (match url_property f with
     | Absent => Present default
     | own => own
     end)
    (scope f) (access_token f) (token_type f).

End NextDrupalAuth.

(** Modelled from the spec: the type [AccessToken] of [./types], which is
    not among the sources: the [access_token], the [token_type] and the
    [expires_in] of a token response, and a [refresh_token] that may be
    there. *)
Module AccessToken.

Record t : Type := mk {
  token_type : string;
  expires_in : Z;
  access_token : string;
  refresh_token : option string
}.

Definition as_string (v : option JSON) : option string :=
  match v with
  | Some (JStr s) => Some s
  | _ => None
  end.

(** The reading of a parsed JSON body at the declared type
    [AccessToken]; [None] when the body is not of that type. *)
Definition of_json (j : JSON) : option t :=
  match get_prop (Some j) "token_type", get_prop (Some j) "expires_in",
        get_prop (Some j) "access_token" with
  | Some (JStr kind), Some (JNum e), Some (JStr tok) =>
      match j with
      | JObj _ =>
          Some (mk kind e tok (as_string (get_prop (Some j) "refresh_token")))
      | _ => None
      end
  | _, _, _ => None
  end.

End AccessToken.

(** What a transport function may reject with: an error, with its
    message, or any other value; [None] is [undefined]. *)
Inductive Rejection : Type :=
| RejectedError (message : string)
| RejectedValue (value : option JSON).

(** Modelled from the spec: [JsonApiErrors] stands for the class of that
    name in [./jsonapi-errors], which is not among the sources: an error
    that carries the detail, the status code and the message prefix it is
    made with.  The other constructors are what else the code can throw:
    the [Error] it makes itself, the errors of the platform (a
    [TypeError] of [new URL], a [SyntaxError] of [response.json()]), and
    what a transport rejects with, which may be any value.
    [NotAnAccessToken] is of the
    embedding: the body of a successful token response parsed, and is not
    of the declared type [AccessToken]; the source goes on with the
    ill-typed value, and the embedding does not follow it there. *)
Inductive Exn : Type :=
| Error (message : string)
| TypeError (message : string)
| SyntaxError (message : string)
| JsonApiErrors (errors : JSON) (statusCode : Z) (messagePrefix : string)
| TransportError (reason : Rejection)
| NotAnAccessToken (body : JSON).

Inductive Result (A : Type) : Type :=
| Ok (value : A)
| Throw (e : Exn).
Arguments Ok {A} value.
Arguments Throw {A} e.

(** The body of a response, as [response.json()] finds it: text that
    parses to a JSON value, or text that does not parse. *)
Inductive ResponseBody : Type :=
| BodyJson (value : JSON)
| BodyMalformed (why : string).

Module Response.

Record t : Type := mk {
  ok : bool;
  status : Z;
  statusText : string;
  headers : Headers.t;
  body : ResponseBody
}.

(** [await response.json()]. *)
Definition json (r : t) : Result JSON :=
  match body r with
  | BodyJson j => Ok j
  | BodyMalformed why => Throw (SyntaxError why)
  end.

(** [new Response(JSON.stringify(value), { status })]: the platform
    derives [ok] from the status, leaves the status text empty and
    labels a string body as plain text. *)
Definition of_json_text (value : JSON) (status : Z) : t :=
  mk ((200 <=? status)%Z && (status <=? 299)%Z) status ""
     [("content-type", "text/plain;charset=UTF-8")] (BodyJson value).

End Response.

(** The body of a request. *)
Inductive RequestBody : Type :=
| FormBody (entries : list (string * string))
| JsonBody (value : JSON)
| TextBody (text : string).

(** [RequestInit]: the options of a request; [rest] stands for the
    options this code never looks at. *)
Module RequestInit.

Record t : Type := mk {
  method : option string;
  headers : option Headers.HeadersInit;
  body : option RequestBody;
  credentials : option string;
  rest : list (string * JSON)
}.

Definition empty : t := mk None None None None [].

Definition set_credentials (i : t) (c : string) : t :=
  mk (method i) (headers i) (body i) (Some c) (rest i).

Definition set_headers (i : t) (h : Headers.t) : t :=
  mk (method i) (Some h) (body i) (credentials i) (rest i).

End RequestInit.

(** [RequestInfo]: a string or a [Request] object. *)
Inductive RequestInfo : Type :=
| InputString (s : string)
| InputRequest (request_url : string).

(** [`${input}`]. *)
Definition input_text (input : RequestInfo) : string :=
  match input with
  | InputString s => s
  | InputRequest _ => "[object Request]"
  end.

(** One call of a transport: its two arguments. *)
Record Request : Type := mkRequest {
  request_input : RequestInfo;
  request_init : RequestInit.t
}.

Inductive TransportResult : Type :=
| Resolves (response : Response.t)
| Rejects (reason : Rejection).

(** A transport function ([fetcher], or the global [fetch]): its answer
    may depend on the requests dispatched before. *)
Definition Transport : Type := list Request -> Request -> TransportResult.

(** The [withAuth] option: [true] for the auth of the instance, an auth
    configuration for that one, [false] or nothing for none. *)
Inductive WithAuth : Type :=
| WithAuthBool (b : bool)
| WithAuthValue (auth : NextDrupalAuth.t).

(** Modelled from the spec: the type [FetchOptions] of [./types], which
    is not among the sources: the [RequestInit] of the platform and
    [withAuth], a boolean or an auth configuration. *)
Record FetchOptions : Type := mkFetchOptions {
  withAuth : option WithAuth;
  init : RequestInit.t
}.

Definition withAuth_truthy (w : option WithAuth) : bool :=
  match w with
  | None => false
  | Some (WithAuthBool b) => b
  | Some (WithAuthValue (NextDrupalAuth.Header s)) => JsString.truthy s
  | Some (WithAuthValue _) => true
  end.

(** Modelled from the spec: the type [EndpointSearchParams] of
    [./types], which is not among the sources: a string, a record, a
    [URLSearchParams], or an object with [getQueryObject]. *)
Inductive EndpointSearchParams : Type :=
| ParamsString (s : string)
| ParamsRecord (fields : list (string * Qs.QValue))
| ParamsURLSearchParams (entries : list (string * string))
| ParamsJsonApi (queryObject : list (string * Qs.QValue)).

(** The instance. *)
Module Client.

Record t : Type := mk {
  accessToken : option AccessToken.t;
  baseUrl : string;
  fetcher : option Transport;
  frontPage : string;
  isDebugEnabled : bool;
  withAuth : bool;
  _apiPrefix : string;
  _auth : option NextDrupalAuth.t;
  _headers : Headers.t;
  _token : option AccessToken.t;
  _tokenExpiresOn : option Z;
  _tokenRequestDetails : option NextDrupalAuth.Fields
}.

Definition set_token_fields (c : t) (tok : option AccessToken.t)
    (expires : option Z) : t :=
  mk (accessToken c) (baseUrl c) (fetcher c) (frontPage c)
     (isDebugEnabled c) (withAuth c) (_apiPrefix c) (_auth c) (_headers c)
     tok expires (_tokenRequestDetails c).

Definition set_tokenRequestDetails (c : t)
    (d : option NextDrupalAuth.Fields) : t :=
  mk (accessToken c) (baseUrl c) (fetcher c) (frontPage c)
     (isDebugEnabled c) (withAuth c) (_apiPrefix c) (_auth c) (_headers c)
     (_token c) (_tokenExpiresOn c) d.

End Client.

(** What lies outside the instance: the global [fetch], the clock read
    by [Date.now()], and the record of what was done: the requests given
    to a transport and the lines given to the logger. *)
Module World.

Record t : Type := mk {
  global_fetch : Transport;
  clock : nat -> Z;
  clock_reads : nat;
  requests : list Request;
  debug_log : list string
}.

End World.

(** Parts of the environment that the code only uses, taken as
    parameters: the platform's URL parser ([None] when [new URL] throws)
    and the message that the class [JsonApiErrors] of
    [./jsonapi-errors], which is not among the sources, gives its
    instances. *)
Class Platform : Type := {
  new_URL : string -> string -> option Url.URL;
  JsonApiErrors_message : JSON -> Z -> string -> string
}.

(** [error.message] for a caught [error].  An error has its message.
    Of a value that is no error the property is read as of any value:
    [undefined] and [null] have no properties, and reading one throws a
    [TypeError] (with a text of the engine's); another value has the
    property or has it not. *)
Definition Exn_message {platform : Platform} (e : Exn)
  : Result (option JSON) :=
  match e with
  | Error m | TypeError m | SyntaxError m
  | TransportError (RejectedError m) => Ok (Some (JStr m))
  | JsonApiErrors errors statusCode messagePrefix =>
      Ok (Some (JStr (JsonApiErrors_message errors statusCode messagePrefix)))
  | TransportError (RejectedValue None) =>
      Throw (TypeError "Cannot read properties of undefined (reading 'message')")
  | TransportError (RejectedValue (Some JNull)) =>
      Throw (TypeError "Cannot read properties of null (reading 'message')")
  | TransportError (RejectedValue (Some value)) =>
      Ok (get_prop (Some value) "message")
  | NotAnAccessToken _ => Ok (Some (JStr "not an AccessToken"))
  end.

(** [JSON.stringify({ message })] parsed again: a property that is
    [undefined] is left out. *)
Definition message_object (message : option JSON) : JSON :=
  JObj (match message with
        | Some value => [("message", value)]
        | None => []
        end).

(* ================================================================== *)
(** * Computations of the client

    A method runs on the instance and the world, may change both, and
    returns a value or throws.  [await] is sequencing. *)

Definition M (A : Type) : Type :=
  Client.t -> World.t -> Result A * Client.t * World.t.

Definition ret {A : Type} (a : A) : M A := fun this w => (Ok a, this, w).

Definition throw {A : Type} (e : Exn) : M A := fun this w => (Throw e, this, w).

Definition bind {A B : Type} (m : M A) (k : A -> M B) : M B :=
  fun this w =>
    match m this w with
    | (Ok a, this', w') => k a this' w'
    | (Throw e, this', w') => (Throw e, this', w')
    end.

Notation "x <- m ;; k" := (bind m (fun x => k))
  (at level 61, m at next level, right associativity).
Notation "m ;;; k" := (bind m (fun _ => k))
  (at level 61, right associativity).

(** [try { m } catch (error) { handler(error) }]. *)
Definition try_catch {A : Type} (m : M A) (handler : Exn -> M A) : M A :=
  fun this w =>
    match m this w with
    | (Ok a, this', w') => (Ok a, this', w')
    | (Throw e, this', w') => handler e this' w'
    end.

Definition get_this : M Client.t := fun this w => (Ok this, this, w).

(** An assignment to fields of [this]. *)
Definition modify_this (f : Client.t -> Client.t) : M unit :=
  fun this w => (Ok tt, f this, w).

Definition lift {A : Type} (r : Result A) : M A := fun this w => (r, this, w).

(** [Date.now()]. *)
Definition Date_now : M Z :=
  fun this w =>
    (Ok (World.clock w (World.clock_reads w)), this,
     World.mk (World.global_fetch w) (World.clock w)
       (S (World.clock_reads w)) (World.requests w) (World.debug_log w)).

(** [this.debug(message)]. *)
Definition debug (message : string) : M unit :=
  fun this w =>
    (Ok tt, this,
     if Client.isDebugEnabled this then
       World.mk (World.global_fetch w) (World.clock w) (World.clock_reads w)
         (World.requests w) (World.debug_log w ++ [message])%list
     else w).

(** The call of a transport function on [(input, init)]. *)
Definition call_transport (f : Transport) (input : RequestInfo)
    (init : RequestInit.t) : M Response.t :=
  fun this w =>
    let request := mkRequest input init in
    let w' := World.mk (World.global_fetch w) (World.clock w)
                (World.clock_reads w) (World.requests w ++ [request])%list
                (World.debug_log w) in
    match f (World.requests w) request with
    | Resolves response => (Ok response, this, w')
    | Rejects reason => (Throw (TransportError reason), this, w')
    end.

(** The global [fetch(input, init)]. *)
Definition global_fetch (input : RequestInfo) (init : RequestInit.t)
  : M Response.t :=
  fun this w => call_transport (World.global_fetch w) input init this w.

(* ================================================================== *)
(** * The methods of [NextDrupalBase] *)

Definition DEFAULT_API_PREFIX : string := "".
Definition DEFAULT_WITH_AUTH : bool := false.
Definition DEFAULT_AUTH_URL : string := "/oauth/token".
Definition DEFAULT_HEADERS : Headers.HeadersInit :=
  [("Content-Type", "application/json"); ("Accept", "application/json")].

Definition auth_not_configured : string :=
  "auth is not configured. See https://next-drupal.org/docs/client/auth".

Definition is_some {A : Type} (o : option A) : bool :=
  match o with Some _ => true | None => false end.

(** [`${x}`] for an optional string. *)
Definition text_of (o : option string) : string :=
  match o with Some s => s | None => "undefined" end.

(** The string that the platform makes of a value that may be [null]. *)
Definition text_of_null (o : option string) : string :=
  match o with Some s => s | None => "null" end.

(** [isBasicAuth(auth)]. *)
Definition isBasicAuth (auth : option NextDrupalAuth.t) : bool :=
  is_some (NextDrupalAuth.username (NextDrupalAuth.fields_of auth))
  && is_some (NextDrupalAuth.password (NextDrupalAuth.fields_of auth)).

(** [isAccessTokenAuth(auth)]. *)
Definition isAccessTokenAuth (auth : option NextDrupalAuth.t) : bool :=
  is_some (NextDrupalAuth.access_token (NextDrupalAuth.fields_of auth))
  && is_some (NextDrupalAuth.token_type (NextDrupalAuth.fields_of auth)).

(** [isClientIdSecretAuth(auth)]. *)
Definition isClientIdSecretAuth (auth : option NextDrupalAuth.t) : bool :=
  is_some (NextDrupalAuth.clientId (NextDrupalAuth.fields_of auth))
  && is_some (NextDrupalAuth.clientSecret (NextDrupalAuth.fields_of auth)).

(** An argument of type [NextDrupalAuthClientIdSecret | undefined] seen
    as a [NextDrupalAuth]. *)
Definition as_auth (o : option NextDrupalAuth.Fields) : option NextDrupalAuth.t :=
  option_map NextDrupalAuth.Object o.

Section Methods.

Context {platform : Platform}.

(** [buildUrl(path, searchParams)] on the base URL [base]. *)
Definition buildUrl_on (base : string) (path : string)
    (searchParams : option EndpointSearchParams) : Result Url.URL :=
  match new_URL path base with
  | None => Throw (TypeError "Invalid URL")
  | Some url =>
      let search :=
        match searchParams with
        | Some (ParamsJsonApi q) => Some (ParamsRecord q)
        | other => other
        end in
      match search with
      | None | Some (ParamsString "") => Ok url
      | Some (ParamsRecord fields) =>
          Ok (Url.set_search url (Qs.stringify fields))
      | Some (ParamsJsonApi fields) =>
          Ok (Url.set_search url (Qs.stringify fields))
      | Some (ParamsString _) | Some (ParamsURLSearchParams _) =>
          (* [stringify] of a string, or of an object without own
             enumerable keys, is the empty string *)
          Ok (Url.set_search url "")
      end
  end.

Definition buildUrl (path : string)
    (searchParams : option EndpointSearchParams) : M Url.URL :=
  this <- get_this ;;
  lift (buildUrl_on (Client.baseUrl this) path searchParams).

(** [buildEndpoint({ locale, path, searchParams })]. *)
Definition buildEndpoint (locale path : option string)
    (searchParams : option EndpointSearchParams) : M string :=
  let locale := match locale with Some l => l | None => "" end in
  let path := match path with Some p => p | None => "" end in
  let localeSegment := if JsString.truthy locale then "/" ++ locale else "" in
  let path :=
    if JsString.truthy path && negb (startsWith "/" path) then "/" ++ path
    else path in
  this <- get_this ;;
  url <- buildUrl (localeSegment ++ Client._apiPrefix this ++ path) searchParams ;;
  ret (Url.toString url).

(** [getErrorsFromResponse(response)]: a message, a list of errors, or
    the status text, as a JavaScript value. *)
Definition getErrorsFromResponse (response : Response.t) : Result JSON :=
  let type := Headers.get (Response.headers response) "content-type" in
  if eq_opt type (Some "application/json") then
    match Response.json response with
    | Throw e => Throw e
    | Ok error =>
        match get_prop (Some error) "message" with
        | Some message =>
            if Json.is_truthy (Some message) then Ok message
            else Ok (JStr (Response.statusText response))
        | None => Ok (JStr (Response.statusText response))
        end
    end
  else if eq_opt type (Some "application/vnd.api+json") then
    match Response.json response with
    | Throw e => Throw e
    | Ok error =>
        let errors := get_prop (Some error) "errors" in
        if Json.is_truthy (get_prop errors "length") then
          match errors with
          | Some list => Ok list
          | None => Ok (JStr (Response.statusText response))
          end
        else Ok (JStr (Response.statusText response))
    end
  else Ok (JStr (Response.statusText response)).

(** [throwIfJsonErrors(response, messagePrefix)]. *)
Definition throwIfJsonErrors (response : Response.t) (messagePrefix : string)
  : Result unit :=
  if negb (Response.ok response) then
    match getErrorsFromResponse response with
    | Throw e => Throw e
    | Ok errors =>
        Throw (JsonApiErrors errors (Response.status response) messagePrefix)
    end
  else Ok tt.

(** The setter of [token]. *)
Definition set_token (token : AccessToken.t) : M unit :=
  modify_this (fun this =>
    Client.set_token_fields this (Some token) (Client._tokenExpiresOn this)) ;;;
  now <- Date_now ;;
  modify_this (fun this =>
    Client.set_token_fields this (Client._token this)
      (Some (now + AccessToken.expires_in token * 1000)%Z)).

(** The header merge at the head of [fetch]: a copy of the instance
    headers, in which every key of the call's headers is set. *)
Definition merge_headers (instance : Headers.t)
    (per_call : option Headers.HeadersInit) : Headers.t :=
  let headers := Headers.make instance in
  match per_call with
  | Some init_headers =>
      let initHeaders := Headers.make init_headers in
      fold_left
        (fun headers key =>
           Headers.set headers key (text_of_null (Headers.get initHeaders key)))
        (Headers.keys initHeaders) headers
  | None => headers
  end.

(** [fetch(input, { withAuth, ...init })], given the method
    [getAuthorizationHeader] that it calls. *)
Definition fetch_with
    (getAuthorizationHeader : option NextDrupalAuth.t -> M string)
    (input : RequestInfo) (options : FetchOptions) : M Response.t :=
  let withAuth := withAuth options in
  let init := RequestInit.set_credentials (init options) "include" in
  this <- get_this ;;
  let headers := merge_headers (Client._headers this) (RequestInit.headers init) in
  headers <-
    (if withAuth_truthy withAuth then
       header <- getAuthorizationHeader
                   (match withAuth with
                    | Some (WithAuthValue auth) => Some auth
                    | _ => Client._auth this
                    end) ;;
       ret (Headers.set headers "Authorization" header)
     else ret headers) ;;
  let init := RequestInit.set_headers init headers in
  this <- get_this ;;
  let input :=
    match input with
    | InputString s =>
        if startsWith "/" s then InputString (Client.baseUrl this ++ s)
        else input
    | InputRequest _ => input
    end in
  match Client.fetcher this with
  | Some fetcher =>
      debug ("Using custom fetcher, fetching: " ++ input_text input) ;;;
      call_transport fetcher input init
  | None =>
      debug ("Using default fetch, fetching: " ++ input_text input) ;;;
      global_fetch input init
  end.

(** [getAuthorizationHeader(auth)], given the method [getAccessToken]
    that it calls. *)
Definition getAuthorizationHeader_with
    (getAccessToken : option NextDrupalAuth.Fields -> M AccessToken.t)
    (auth : option NextDrupalAuth.t) : M string :=
  let fields := NextDrupalAuth.fields_of auth in
  if isBasicAuth auth then
    let basic :=
      Base64.encode (text_of (NextDrupalAuth.username fields) ++ ":"
                       ++ text_of (NextDrupalAuth.password fields)) in
    debug "Using basic authorization header." ;;;
    ret ("Basic " ++ basic)
  else if isClientIdSecretAuth auth then
    token <- getAccessToken (Some fields) ;;
    debug "Using access token authorization header retrieved from Client Id/Secret." ;;;
    ret ("Bearer " ++ AccessToken.access_token token)
  else if isAccessTokenAuth auth then
    debug "Using access token authorization header." ;;;
    ret (text_of (NextDrupalAuth.token_type fields) ++ " "
           ++ text_of (NextDrupalAuth.access_token fields))
  else
    match auth with
    | Some (NextDrupalAuth.Header value) =>
        debug "Using custom authorization header." ;;;
        ret value
    | Some (NextDrupalAuth.Callback produce) =>
        let header := produce tt in
        debug "Using custom authorization callback." ;;;
        ret header
    | _ => throw (Error auth_not_configured)
    end.

(** The test that guards the reuse of the cached token: the
    conjunction is evaluated from the left, and the clock is read only
    when a token is there. *)
Definition cached_token_usable (auth : NextDrupalAuth.Fields) : M bool :=
  this <- get_this ;;
  match Client._token this with
  | None => ret false
  | Some _ =>
      now <- Date_now ;;
      let details := Client._tokenRequestDetails this in
      ret ((match Client._tokenExpiresOn this with
            | Some expires => (now <? expires)%Z
            | None => false
            end)
           && eq_opt (match details with
                      | Some d => NextDrupalAuth.clientId d
                      | None => None
                      end)
                     (NextDrupalAuth.clientId auth)
           && eq_opt (match details with
                      | Some d => NextDrupalAuth.clientSecret d
                      | None => None
                      end)
                     (NextDrupalAuth.clientSecret auth)
           && eq_opt (match details with
                      | Some d => NextDrupalAuth.scope d
                      | None => None
                      end)
                     (NextDrupalAuth.scope auth))
  end.

(** The options of the token request. *)
Definition token_request_options (auth : NextDrupalAuth.Fields)
    (authorization : string) : FetchOptions :=
  let body := [("grant_type", "client_credentials")] in
  let body :=
    if truthy_opt (NextDrupalAuth.scope auth)
    then (body ++ [("scope", text_of (NextDrupalAuth.scope auth))])%list
    else body in
  mkFetchOptions None
    (RequestInit.mk (Some "POST")
       (Some [("Authorization", authorization);
              ("Accept", "application/json");
              ("Content-Type", "application/x-www-form-urlencoded")])
       (Some (FormBody body)) None []).

(** The head of [getAccessToken]: the credentials of the request, from
    the argument or from the instance. *)
Definition resolve_client_credentials
    (clientIdSecret : option NextDrupalAuth.Fields)
  : M NextDrupalAuth.Fields :=
  this <- get_this ;;
  if isClientIdSecretAuth (as_auth clientIdSecret) then
    let given := NextDrupalAuth.fields_of (as_auth clientIdSecret) in
    ret (NextDrupalAuth.over_default_url DEFAULT_AUTH_URL given)
  else if isClientIdSecretAuth (Client._auth this) then
    ret (NextDrupalAuth.fields_of (Client._auth this))
  else if negb (is_some (Client._auth this)) then
    throw (Error auth_not_configured)
  else
    throw (Error "'clientId' and 'clientSecret' required. See https://next-drupal.org/docs/client/auth").

(** The tail of [getAccessToken]: a new token is asked for, and stored
    when it comes. *)
Definition request_new_token
    (fetch : RequestInfo -> FetchOptions -> M Response.t)
    (getAuthorizationHeader : option NextDrupalAuth.t -> M string)
    (auth : NextDrupalAuth.Fields) (url : Url.URL) : M AccessToken.t :=
  debug "Fetching new access token." ;;;
  let clientCredentials :=
    NextDrupalAuth.mkFields
      (NextDrupalAuth.clientId auth) (NextDrupalAuth.clientSecret auth)
      None None NextDrupalAuth.Absent None None None in
  (if truthy_opt (NextDrupalAuth.scope auth)
   then debug ("Using scope: " ++ text_of (NextDrupalAuth.scope auth))
   else ret tt) ;;;
  authorization <-
    getAuthorizationHeader (Some (NextDrupalAuth.Object clientCredentials)) ;;
  response <-
    fetch (InputString (Url.toString url))
      (token_request_options auth authorization) ;;
  lift (throwIfJsonErrors response "Error while fetching new access token: ") ;;;
  body <- lift (Response.json response) ;;
  match AccessToken.of_json body with
  | None => throw (NotAnAccessToken body)
  | Some result =>
      set_token result ;;;
      modify_this (fun this =>
        Client.set_tokenRequestDetails this (Some auth)) ;;;
      ret result
  end.

(** [getAccessToken(clientIdSecret)], given the methods [fetch] and
    [getAuthorizationHeader] that it calls. *)
Definition getAccessToken_with
    (fetch : RequestInfo -> FetchOptions -> M Response.t)
    (getAuthorizationHeader : option NextDrupalAuth.t -> M string)
    (clientIdSecret : option NextDrupalAuth.Fields) : M AccessToken.t :=
  this <- get_this ;;
  match Client.accessToken this with
  | Some token => ret token
  | None =>
      auth <- resolve_client_credentials clientIdSecret ;;
      url <- buildUrl (text_of (NextDrupalAuth.url auth)) None ;;
      usable <- cached_token_usable auth ;;
      this <- get_this ;;
      match usable, Client._token this with
      | true, Some token =>
          debug "Using existing access token." ;;;
          ret token
      | _, _ => request_new_token fetch getAuthorizationHeader auth url
      end
  end.

(** The three methods call one another.  The calls that
    [getAccessToken] makes never come back to it: its [fetch] is
    without [withAuth], and the credentials it hands to
    [getAuthorizationHeader] are a [username] and a [password] and
    nothing else.  So [getAccessToken] is defined first, over calls that
    stop there; [RunFacts.getAccessToken_unfold] shows that this is the
    method of the source. *)
Definition unreachable {A B : Type} : A -> M B :=
  fun _ => throw (Error "unreachable").

Definition getAccessToken (clientIdSecret : option NextDrupalAuth.Fields)
  : M AccessToken.t :=
  getAccessToken_with
    (fetch_with unreachable)
    (getAuthorizationHeader_with unreachable)
    clientIdSecret.

Definition getAuthorizationHeader (auth : option NextDrupalAuth.t) : M string :=
  getAuthorizationHeader_with getAccessToken auth.

Definition fetch (input : RequestInfo) (options : FetchOptions)
  : M Response.t :=
  fetch_with getAuthorizationHeader input options.

(** [searchParams.get(name)] of a [URLSearchParams]. *)
Fixpoint params_get (entries : list (string * string)) (name : string)
  : option string :=
  match entries with
  | [] => None
  | (k, v) :: rest => if String.eqb k name then Some v else params_get rest name
  end.

(** [Object.fromEntries(entries)]: a later value of a key replaces the
    earlier one, at the place of the first.  (Keys that are array
    indices are not reordered here.) *)
Fixpoint fromEntries (entries : list (string * string))
  : list (string * JSON) :=
  match entries with
  | [] => []
  | (k, v) :: rest =>
      let later := fromEntries rest in
      let value :=
        match lookup_last k later with
        | Some w => w
        | None => JStr v
        end in
      (k, value) :: filter (fun e => negb (String.eqb (fst e) k)) later
  end.

(** The options of the validation request. *)
Definition draft_url_options (searchParams : list (string * string))
  : FetchOptions :=
  mkFetchOptions None
    (RequestInit.mk (Some "POST")
       (Some [("Accept", "application/vnd.api+json");
              ("Content-Type", "application/json")])
       (Some (JsonBody (JObj (fromEntries searchParams))))
       None []).

(** [validateDraftUrl(searchParams)]. *)
Definition validateDraftUrl (searchParams : list (string * string))
  : M Response.t :=
  let path := text_of_null (params_get searchParams "path") in
  debug ("Fetching draft url validation for " ++ path ++ ".") ;;;
  response <-
    try_catch
      (url <- buildUrl "/next/draft-url" None ;;
       let validateUrl := Url.toString url in
       fetch (InputString validateUrl) (draft_url_options searchParams))
      (fun error =>
         message <- lift (Exn_message error) ;;
         ret (Response.of_json_text (message_object message) 401)) ;;
  debug (if negb (Response.status response =? 200)%Z
         then "Could not validate path, " ++ path
         else "Validated path, " ++ path) ;;;
  ret response.

End Methods.

(** The detail of the error that [throwIfJsonErrors] throws, in the
    words of the specification: the message of a JSON body that has one,
    the errors of a JSON:API body that has a non-empty list of them, and
    the status text in any other case, a body that does not parse
    included. *)
Definition stated_detail (response : Response.t) : JSON :=
  let type := Headers.get (Response.headers response) "content-type" in
  let fallback := JStr (Response.statusText response) in
  match Response.body response with
  | BodyMalformed _ => fallback
  | BodyJson error =>
      if eq_opt type (Some "application/json") then
        match get_prop (Some error) "message" with
        | Some message => message
        | None => fallback
        end
      else if eq_opt type (Some "application/vnd.api+json") then
        match get_prop (Some error) "errors" with
        | Some (JArr (first :: others)) => JArr (first :: others)
        | _ => fallback
        end
      else fallback
  end.

(* ================================================================== *)
(** * The constructor and the setters *)

(** Modelled from the spec: the type [NextDrupalBaseOptions] of
    [./types], which is not among the sources: the options of the
    constructor.  The logger, of [./logger], is the debug log of the
    world. *)
Module NextDrupalBaseOptions.

Record t : Type := mk {
  accessToken : option AccessToken.t;
  apiPrefix : option string;
  auth : option NextDrupalAuth.t;
  debug : option bool;
  fetcher : option Transport;
  frontPage : option string;
  headers : option Headers.HeadersInit;
  withAuth : option bool
}.

Definition none : t := mk None None None None None None None None.

End NextDrupalBaseOptions.

(** The setter of [apiPrefix]. *)
Definition normalized_apiPrefix (apiPrefix : string) : string :=
  if String.eqb apiPrefix "" || startsWith "/" apiPrefix then apiPrefix
  else "/" ++ apiPrefix.

(** The setter of [auth]: an object must carry one of the three pairs of
    fields whole; a client id and secret are spread over the default
    token URL. *)
Definition checked_auth (auth : option NextDrupalAuth.t)
  : Result (option NextDrupalAuth.t) :=
  match auth with
  | Some (NextDrupalAuth.Object f) =>
      let stored :=
        Ok (Some (NextDrupalAuth.Object
                    (if isClientIdSecretAuth auth
                     then NextDrupalAuth.over_default_url DEFAULT_AUTH_URL f
                     else f))) in
      if is_some (NextDrupalAuth.username f) || is_some (NextDrupalAuth.password f)
      then
        if negb (truthy_opt (NextDrupalAuth.username f))
           || negb (truthy_opt (NextDrupalAuth.password f))
        then Throw (Error "'username' and 'password' are required for auth. See https://next-drupal.org/docs/client/auth")
        else stored
      else if is_some (NextDrupalAuth.access_token f)
              || is_some (NextDrupalAuth.token_type f)
      then
        if negb (truthy_opt (NextDrupalAuth.access_token f))
           || negb (truthy_opt (NextDrupalAuth.token_type f))
        then Throw (Error "'access_token' and 'token_type' are required for auth. See https://next-drupal.org/docs/client/auth")
        else stored
      else if negb (truthy_opt (NextDrupalAuth.clientId f))
              || negb (truthy_opt (NextDrupalAuth.clientSecret f))
      then Throw (Error "'clientId' and 'clientSecret' are required for auth. See https://next-drupal.org/docs/client/auth")
      else stored
  | other => Ok other
  end.

(** [new NextDrupalBase(baseUrl, options)]. *)
Definition new_NextDrupalBase (baseUrl : string)
    (options : NextDrupalBaseOptions.t) (w : World.t)
  : Result Client.t * World.t :=
  if negb (JsString.truthy baseUrl) then
    (Throw (Error "The 'baseUrl' param is required."), w)
  else
    match checked_auth (NextDrupalBaseOptions.auth options) with
    | Throw e => (Throw e, w)
    | Ok auth =>
        let or_else {A : Type} (o : option A) (d : A) : A :=
          match o with Some a => a | None => d end in
        let this :=
          Client.mk
            (NextDrupalBaseOptions.accessToken options)
            baseUrl
            (NextDrupalBaseOptions.fetcher options)
            (or_else (NextDrupalBaseOptions.frontPage options) DEFAULT_FRONT_PAGE)
            (or_else (NextDrupalBaseOptions.debug options) false)
            (or_else (NextDrupalBaseOptions.withAuth options) DEFAULT_WITH_AUTH)
            (normalized_apiPrefix
               (or_else (NextDrupalBaseOptions.apiPrefix options) DEFAULT_API_PREFIX))
            auth
            (Headers.make
               (or_else (NextDrupalBaseOptions.headers options) DEFAULT_HEADERS))
            None None None in
        match debug "Debug mode is on." this w with
        | (_, this', w') => (Ok this', w')
        end
    end.

(* ================================================================== *)
(** * Readings of a run, for the statements below *)

Definition outcome {A : Type} (r : Result A * Client.t * World.t) : Result A :=
  fst (fst r).

Definition client_after {A : Type} (r : Result A * Client.t * World.t)
  : Client.t := snd (fst r).

Definition world_after {A : Type} (r : Result A * Client.t * World.t)
  : World.t := snd r.

(** The requests given to a transport so far, oldest first. *)
Definition requests_after {A : Type} (r : Result A * Client.t * World.t)
  : list Request := World.requests (world_after r).

(** The transport that the instance uses. *)
Definition transport_of (this : Client.t) (w : World.t) : Transport :=
  match Client.fetcher this with
  | Some fetcher => fetcher
  | None => World.global_fetch w
  end.

(** The auth configuration that [fetch] resolves for its [withAuth]. *)
Definition auth_for (this : Client.t) (options : FetchOptions)
  : option NextDrupalAuth.t :=
  match withAuth options with
  | Some (WithAuthValue auth) => Some auth
  | _ => Client._auth this
  end.

(** The first half of [fetch]: the Authorization header, when [withAuth]
    asks for one. *)
Definition authorization_stage {platform : Platform} (options : FetchOptions)
  : M (option string) :=
  if withAuth_truthy (withAuth options) then
    this <- get_this ;;
    header <- getAuthorizationHeader (auth_for this options) ;;
    ret (Some header)
  else ret None.

(** The input that [fetch] passes on. *)
Definition absolute_input (base : string) (input : RequestInfo) : RequestInfo :=
  match input with
  | InputString s => if startsWith "/" s then InputString (base ++ s) else input
  | InputRequest _ => input
  end.

(** The second half of [fetch]: the request goes to the transport. *)
Definition send (input : RequestInfo) (init : RequestInit.t) : M Response.t :=
  this <- get_this ;;
  match Client.fetcher this with
  | Some fetcher =>
      debug ("Using custom fetcher, fetching: " ++ input_text input) ;;;
      call_transport fetcher input init
  | None =>
      debug ("Using default fetch, fetching: " ++ input_text input) ;;;
      global_fetch input init
  end.


(** Two instances with the same configuration: they may differ in the
    cached token only. *)
Definition same_configuration (a b : Client.t) : Prop :=
  Client.accessToken a = Client.accessToken b
  /\ Client.baseUrl a = Client.baseUrl b
  /\ Client.fetcher a = Client.fetcher b
  /\ Client.frontPage a = Client.frontPage b
  /\ Client.isDebugEnabled a = Client.isDebugEnabled b
  /\ Client.withAuth a = Client.withAuth b
  /\ Client._apiPrefix a = Client._apiPrefix b
  /\ Client._auth a = Client._auth b
  /\ Client._headers a = Client._headers b.

(** Two worlds with the same global [fetch] and the same clock. *)
Definition same_world (a b : World.t) : Prop :=
  World.global_fetch a = World.global_fetch b
  /\ World.clock a = World.clock b.

(** A computation that leaves the configuration of the instance and the
    fixed parts of the world as they are. *)
Definition steady {A : Type} (m : M A) : Prop :=
  forall this w,
    same_configuration this (client_after (m this w))
    /\ same_world w (world_after (m this w)).

(** A computation that, on an instance whose debug mode is off, gives
    the logger nothing and leaves the mode off. *)
Definition quiet {A : Type} (m : M A) : Prop :=
  forall this w,
    Client.isDebugEnabled this = false ->
    Client.isDebugEnabled (client_after (m this w)) = false
    /\ World.debug_log (world_after (m this w)) = World.debug_log w.

(** A computation that only adds to the record of the requests, and at
    most [n] of them. *)
Definition sends_at_most {A : Type} (n : nat) (m : M A) : Prop :=
  forall this w,
    exists added,
      requests_after (m this w) = (World.requests w ++ added)%list
      /\ (List.length added <= n)%nat.

(** The request that a call of [getAccessToken] is about: the
    credentials given to the call, spread over the default token URL, or
    else those of the instance. *)
Definition has_client_credentials (f : NextDrupalAuth.Fields) : bool :=
  is_some (NextDrupalAuth.clientId f) && is_some (NextDrupalAuth.clientSecret f).

Definition instance_request (this : Client.t) : option NextDrupalAuth.Fields :=
  match Client._auth this with
  | Some (NextDrupalAuth.Object f) =>
      if has_client_credentials f then Some f else None
  | _ => None
  end.

Definition current_request (this : Client.t)
    (clientIdSecret : option NextDrupalAuth.Fields)
  : option NextDrupalAuth.Fields :=
  match clientIdSecret with
  | Some given =>
      if has_client_credentials given then
        Some (NextDrupalAuth.over_default_url DEFAULT_AUTH_URL given)
      else instance_request this
  | None => instance_request this
  end.

(** The condition of reuse, in the words of the specification: a token
    is cached, the time [now] is before its expiry, and the cached
    request has the client id, the client secret and the scope of the
    request [auth]. *)
Definition cache_usable (this : Client.t) (now : Z)
    (auth : NextDrupalAuth.Fields) : bool :=
  is_some (Client._token this)
  && match Client._tokenExpiresOn this with
     | Some expiresAt => (now <? expiresAt)%Z
     | None => false
     end
  && match Client._tokenRequestDetails this with
     | Some cached =>
         eq_opt (NextDrupalAuth.clientId cached) (NextDrupalAuth.clientId auth)
         && eq_opt (NextDrupalAuth.clientSecret cached)
              (NextDrupalAuth.clientSecret auth)
         && eq_opt (NextDrupalAuth.scope cached) (NextDrupalAuth.scope auth)
     | None => false
     end.

(** The world after one reading of the clock. *)
Definition tick (w : World.t) : World.t :=
  World.mk (World.global_fetch w) (World.clock w) (S (World.clock_reads w))
    (World.requests w) (World.debug_log w).

(** The Basic header of a client id and a client secret. *)
Definition basic_header (auth : NextDrupalAuth.Fields) : string :=
  "Basic "
    ++ Base64.encode (text_of (NextDrupalAuth.clientId auth) ++ ":"
                        ++ text_of (NextDrupalAuth.clientSecret auth)).

(** The token request of [getAccessToken], as [fetch] hands it to the
    transport: a POST of the form to the token URL, with the Basic header
    of the client. *)
Definition token_request (this : Client.t) (auth : NextDrupalAuth.Fields)
    (url : Url.URL) : Request :=
  let options := token_request_options auth (basic_header auth) in
  mkRequest
    (absolute_input (Client.baseUrl this) (InputString (Url.toString url)))
    (RequestInit.set_headers
       (RequestInit.set_credentials (init options) "include")
       (merge_headers (Client._headers this)
          (RequestInit.headers (init options)))).

(** What becomes of the answer to a token request: the outcome of the
    call, and the instance after it, when the clock shows [now] at the
    time the token is stored. *)
Definition token_answer (this : Client.t) (auth : NextDrupalAuth.Fields)
    (now : Z) (answer : TransportResult)
  : Result AccessToken.t * Client.t :=
  match answer with
  | Rejects reason => (Throw (TransportError reason), this)
  | Resolves response =>
      match throwIfJsonErrors response
              "Error while fetching new access token: " with
      | Throw e => (Throw e, this)
      | Ok _ =>
          match Response.json response with
          | Throw e => (Throw e, this)
          | Ok body =>
              match AccessToken.of_json body with
              | None => (Throw (NotAnAccessToken body), this)
              | Some token =>
                  (Ok token,
                   Client.set_tokenRequestDetails
                     (Client.set_token_fields this (Some token)
                        (Some (now + AccessToken.expires_in token * 1000)%Z))
                     (Some auth))
              end
          end
      end
  end.

(* ================================================================== *)
(** * An environment and instances to run the methods on *)

(** A platform whose URL parser is the model of plain URLs. *)
Definition plain_platform : Platform :=
  {| new_URL := Url.parse_plain;
     JsonApiErrors_message :=
       fun errors statusCode messagePrefix =>
         messagePrefix
           ++ match errors with JStr text => text | _ => "errors" end |}.

Definition json_headers : Headers.t := [("content-type", "application/json")].

(** The answer of a token endpoint that grants the token [value]. *)
Definition token_response (value : string) : Response.t :=
  Response.mk true 200 "OK" json_headers
    (BodyJson (JObj [("token_type", JStr "Bearer");
                     ("expires_in", JNum 300);
                     ("access_token", JStr value)])).

(** A refusal of the JSON:API kind. *)
Definition unprocessable_response : Response.t :=
  Response.mk false 422 "Unprocessable Entity"
    [("content-type", "application/vnd.api+json")]
    (BodyJson (JObj [("errors", JArr [JObj [("title", JStr "Invalid")]])])).

(** A refusal whose body claims to be JSON and is not. *)
Definition garbled_response : Response.t :=
  Response.mk false 502 "Bad Gateway" json_headers
    (BodyMalformed "Unexpected token < in JSON at position 0").

(** A refusal whose JSON body has an empty message. *)
Definition empty_message_response : Response.t :=
  Response.mk false 500 "Internal Server Error" json_headers
    (BodyJson (JObj [("message", JStr "")])).

Definition is_form (request : Request) : bool :=
  match RequestInit.body (request_init request) with
  | Some (FormBody _) => true
  | _ => false
  end.

(** A server that grants tokens, numbered by the requests seen before,
    and answers anything else with an empty JSON object. *)
Definition granting_server : Transport :=
  fun history request =>
    if is_form request
    then Resolves (token_response
                     ("token-" ++ Qs.decimal (List.length history)))
    else Resolves (Response.mk true 200 "OK" json_headers (BodyJson (JObj []))).

(** A server that refuses every request. *)
Definition refusing_server : Transport :=
  fun _ _ => Resolves unprocessable_response.

(** A server that answers every request with the garbled refusal. *)
Definition garbling_server : Transport :=
  fun _ _ => Resolves garbled_response.

(** A network that is down. *)
Definition unreachable_server : Transport :=
  fun _ _ => Rejects (RejectedError "fetch failed").


(** A world at its beginning: the clock shows 1000 ms more at each
    reading. *)
Definition world_with (server : Transport) : World.t :=
  World.mk server (fun reads => 1000 * Z.of_nat reads)%Z 0 [] [].

(** A client of [https://example.com] with the given auth. *)
Definition client_with (auth : option NextDrupalAuth.t) : Client.t :=
  Client.mk None "https://example.com" None DEFAULT_FRONT_PAGE false
    DEFAULT_WITH_AUTH "" auth (Headers.make DEFAULT_HEADERS) None None None.


Definition client_credentials (id secret : string) (scope : option string)
  : NextDrupalAuth.Fields :=
  NextDrupalAuth.mkFields None None (Some id) (Some secret)
    NextDrupalAuth.Absent scope None None.

Definition basic_credentials (user pass : string) : NextDrupalAuth.Fields :=
  NextDrupalAuth.mkFields (Some user) (Some pass) None None
    NextDrupalAuth.Absent None None None.

(** A first call of [getAccessToken], for the scope [read], against
    the granting server; the instance and the world that it leaves. *)
Definition first_grant : Result AccessToken.t * Client.t * World.t :=
  getAccessToken (platform := plain_platform)
    (Some (client_credentials "id" "secret" (Some "read")))
    (client_with None) (world_with granting_server).

Definition client_holding_token : Client.t := client_after first_grant.

Definition world_after_grant : World.t := world_after first_grant.

(** The same first call against the server that refuses. *)
Definition first_refusal : Result AccessToken.t * Client.t * World.t :=
  getAccessToken (platform := plain_platform)
    (Some (client_credentials "id" "secret" (Some "read")))
    (client_with None) (world_with refusing_server).

(* ================================================================== *)
(** * The embedding on small inputs *)

Example constructPath_from_array :
  constructPathFromSegment DEFAULT_FRONT_PAGE (SegArray ["a b"; "c/d"]) no_options
  = "/a%20b/c%2Fd".
Proof. reflexivity. Qed.

Example constructPath_front_page :
  constructPathFromSegment DEFAULT_FRONT_PAGE (SegArray []) no_options = "/home".
Proof. reflexivity. Qed.

Example constructPath_with_prefix :
  constructPathFromSegment DEFAULT_FRONT_PAGE (SegString "post")
    (mkPathOptions (Some "fr") (Some "en") (Some "blog/")) = "/fr/blog/post".
Proof. reflexivity. Qed.

Example constructPath_doubled_final_slash :
  constructPathFromSegment DEFAULT_FRONT_PAGE (SegString "")
    (mkPathOptions None None (Some "/blog//")) = "/blog/".
Proof. reflexivity. Qed.

Example base64_three_bytes : Base64.encode "a:b" = "YTpi".
Proof. reflexivity. Qed.

Example base64_one_byte : Base64.encode "a" = "YQ==".
Proof. reflexivity. Qed.

Example base64_two_bytes : Base64.encode "ab" = "YWI=".
Proof. reflexivity. Qed.

Example base64_sentence :
  Base64.encode "Hello, World!" = "SGVsbG8sIFdvcmxkIQ==".
Proof. reflexivity. Qed.

Example stringify_nested :
  Qs.stringify
    [("fields", Qs.QObject [("node--article", Qs.QString "title,path")]);
     ("a", Qs.QArray [Qs.QString "x"; Qs.QString "y z"]);
     ("n", Qs.QNull); ("u", Qs.QUndefined)]
  = "fields%5Bnode--article%5D=title%2Cpath&a%5B0%5D=x&a%5B1%5D=y%20z&n=".
Proof. reflexivity. Qed.

Example parse_plain_relative :
  option_map Url.toString (Url.parse_plain "/foo" "https://example.com")
  = Some "https://example.com/foo".
Proof. reflexivity. Qed.

Example parse_plain_absolute_input :
  option_map Url.toString
    (Url.parse_plain "https://drupal.org" "https://example.com")
  = Some "https://drupal.org/".
Proof. reflexivity. Qed.

(** The example in the documentation of [buildUrl] in the source. *)
Example buildUrl_documented :
  match buildUrl_on (platform := plain_platform) "https://example.com"
          "/jsonapi/node/article"
          (Some (ParamsJsonApi
                   [("sort", Qs.QString "-created");
                    ("fields[node--article]", Qs.QString "title,path")])) with
  | Ok url => Url.toString url
  | Throw _ => ""
  end
  = "https://example.com/jsonapi/node/article?sort=-created&fields%5Bnode--article%5D=title%2Cpath".
Proof. reflexivity. Qed.

Example headers_keys_sorted :
  Headers.keys
    (Headers.make [("Content-Type", "a"); ("Accept", "b"); ("accept", "c")])
  = ["accept"; "content-type"].
Proof. reflexivity. Qed.

Example headers_get_joined :
  Headers.get (Headers.make [("Accept", "b"); ("accept", "c")]) "ACCEPT"
  = Some "b, c".
Proof. reflexivity. Qed.

Example first_grant_outcome :
  outcome first_grant = Ok (AccessToken.mk "Bearer" 300 "token-0" None)
  /\ Client._tokenExpiresOn client_holding_token = Some 300000%Z.
Proof. split; reflexivity. Qed.

Example constructor_defaults :
  fst (new_NextDrupalBase "https://example.com" NextDrupalBaseOptions.none
         (world_with granting_server))
  = Ok (client_with None).
Proof. reflexivity. Qed.

Example token_url_undefined :
  map request_input
    (requests_after
       (getAccessToken (platform := plain_platform)
          (Some (NextDrupalAuth.mkFields None None (Some "id") (Some "secret")
                   NextDrupalAuth.Undefined None None None))
          (client_with None) (world_with granting_server)))
  = [InputString "https://example.com/undefined"].
Proof. reflexivity. Qed.

Example token_url_default :
  map request_input
    (requests_after
       (getAccessToken (platform := plain_platform)
          (Some (client_credentials "id" "secret" None))
          (client_with None) (world_with granting_server)))
  = [InputString "https://example.com/oauth/token"].
Proof. reflexivity. Qed.

Example constructor_rejects_half_credentials :
  fst (new_NextDrupalBase "https://example.com"
         (NextDrupalBaseOptions.mk None None
            (Some (NextDrupalAuth.Object
                     (NextDrupalAuth.mkFields (Some "admin") None None None
                        NextDrupalAuth.Absent None None None)))
            None None None None None)
         (world_with granting_server))
  = Throw (Error "'username' and 'password' are required for auth. See https://next-drupal.org/docs/client/auth").
Proof. reflexivity. Qed.

(* ================================================================== *)
(** * Facts about slashes at the ends of strings *)

Module SlashFacts.

#[local] Arguments Ascii.eqb : simpl never.

Lemma startsWith_nil (p : string) : startsWith p "" = String.eqb p "".
Proof. destruct p; reflexivity. Qed.

Lemma startsWith_slash_cons (c : ascii) (s : string) :
  startsWith "/" (String c s) = Ascii.eqb c "/".
Proof. simpl. rewrite andb_true_r. apply Ascii.eqb_sym. Qed.

Lemma startsWith_2slash_cons (c : ascii) (s : string) :
  startsWith "//" (String c s) = Ascii.eqb c "/" && startsWith "/" s.
Proof.
  simpl. rewrite (Ascii.eqb_sym "/" c).
  destruct s; simpl; rewrite ?andb_true_r; reflexivity.
Qed.

Lemma startsWith_slash_inv (s : string) :
  startsWith "/" s = true -> exists t, s = String "/" t.
Proof.
  destruct s as [| c t]; [discriminate |].
  rewrite startsWith_slash_cons; intros E.
  apply Ascii.eqb_eq in E; subst; eauto.
Qed.

Lemma startsWith_app_l (p a b : string) :
  startsWith p a = true -> startsWith p (a ++ b) = true.
Proof.
  revert a; induction p as [| c p IH]; intros a; [reflexivity |].
  destruct a as [| d a]; simpl; [discriminate |].
  intros E. apply andb_true_iff in E as [E1 E2].
  rewrite E1, (IH _ E2). reflexivity.
Qed.

Lemma endsWith_cons (p : string) (c : ascii) (s : string) :
  endsWith p (String c s) = String.eqb (String c s) p || endsWith p s.
Proof. reflexivity. Qed.

Lemma endsWith_slash_single (c : ascii) :
  endsWith "/" (String c "") = Ascii.eqb c "/".
Proof. simpl. destruct (Ascii.eqb c "/"); reflexivity. Qed.

Lemma endsWith_slash_cons2 (c d : ascii) (s : string) :
  endsWith "/" (String c (String d s)) = endsWith "/" (String d s).
Proof.
  rewrite endsWith_cons. simpl String.eqb.
  destruct (Ascii.eqb c "/"); reflexivity.
Qed.

(** The last character decides: what comes before does not matter. *)
Lemma endsWith_slash_app (a b : string) :
  b <> "" -> endsWith "/" (a ++ b) = endsWith "/" b.
Proof.
  intros Hb; induction a as [| c a IH]; [reflexivity |].
  simpl append. destruct (a ++ b) as [| d r] eqn:E.
  - destruct a; simpl in E; [contradiction | discriminate].
  - rewrite endsWith_slash_cons2. exact IH.
Qed.

Lemma endsWith_slash_snoc (a : string) : endsWith "/" (a ++ "/") = true.
Proof. rewrite endsWith_slash_app by discriminate. reflexivity. Qed.

Lemma endsWith_2slash_snoc (a : string) :
  endsWith "//" (a ++ "/") = endsWith "/" a.
Proof.
  induction a as [| c a IH]; [reflexivity |].
  simpl append. rewrite !endsWith_cons, IH.
  destruct a as [| d a]; simpl.
  - destruct (Ascii.eqb c "/"); reflexivity.
  - destruct (Ascii.eqb c "/"); [| reflexivity].
    destruct (Ascii.eqb d "/"); [| reflexivity].
    destruct a; reflexivity.
Qed.

Lemma slice_snoc (s : string) :
  endsWith "/" s = true -> s = slice_0_m1 s ++ "/".
Proof.
  induction s as [| c s IH]; [discriminate |].
  destruct s as [| d s].
  - rewrite endsWith_slash_single. intros E.
    apply Ascii.eqb_eq in E; subst; reflexivity.
  - rewrite endsWith_slash_cons2. intros E.
    change (slice_0_m1 (String c (String d s)))
      with (String c (slice_0_m1 (String d s))).
    simpl append. f_equal. exact (IH E).
Qed.

Lemma slice_cons2 (c d : ascii) (s : string) :
  slice_0_m1 (String c (String d s)) = String c (slice_0_m1 (String d s)).
Proof. reflexivity. Qed.

(** A string that ends with one slash and not with two loses its only
    final slash. *)
Lemma slice_no_trailing (s : string) :
  endsWith "/" s = true -> endsWith "//" s = false ->
  endsWith "/" (slice_0_m1 s) = false.
Proof.
  intros E1 E2. rewrite (slice_snoc s E1) in E2.
  rewrite endsWith_2slash_snoc in E2. exact E2.
Qed.

Lemma truthy_true (s : string) : truthy s = true <-> s <> "".
Proof.
  unfold truthy. rewrite negb_true_iff. apply String.eqb_neq.
Qed.

Lemma truthy_false (s : string) : truthy s = false <-> s = "".
Proof.
  unfold truthy. rewrite negb_false_iff. apply String.eqb_eq.
Qed.

Lemma startsWith_slash_app (a b : string) :
  a <> "" -> startsWith "/" (a ++ b) = startsWith "/" a.
Proof.
  destruct a as [| c a]; [contradiction |].
  intros _. simpl append. rewrite !startsWith_slash_cons. reflexivity.
Qed.

Lemma app_not_nil_r (a b : string) : b <> "" -> a ++ b <> "".
Proof. destruct a; simpl; [auto | discriminate]. Qed.

Lemma app_not_nil_l (a b : string) : a <> "" -> a ++ b <> "".
Proof. destruct a; simpl; [contradiction | discriminate]. Qed.

Lemma slash_free_app (a b : string) :
  slash_free (a ++ b) = slash_free a && slash_free b.
Proof.
  induction a as [| c a IH]; [reflexivity |].
  simpl. rewrite IH. apply andb_assoc.
Qed.

Lemma slash_free_startsWith (s : string) :
  slash_free s = true -> startsWith "/" s = false.
Proof.
  destruct s as [| c s]; [reflexivity |].
  simpl slash_free. rewrite startsWith_slash_cons.
  destruct (Ascii.eqb c "/"); [discriminate | reflexivity].
Qed.

Lemma slash_free_endsWith (s : string) :
  slash_free s = true -> endsWith "/" s = false.
Proof.
  induction s as [| c s IH]; [reflexivity |].
  simpl slash_free. intros E. apply andb_true_iff in E as [E1 E2].
  rewrite endsWith_cons, (IH E2). simpl String.eqb.
  destruct (Ascii.eqb c "/"); [discriminate | reflexivity].
Qed.

Lemma percent_byte_slash_free (c : ascii) :
  slash_free (percent_byte c) = true.
Proof. destruct c as [[] [] [] [] [] [] [] []]; reflexivity. Qed.

Lemma uri_component_keep_not_slash (c : ascii) :
  uri_component_keep c = true -> Ascii.eqb c "/" = false.
Proof.
  destruct c as [[] [] [] [] [] [] [] []]; intros E;
    solve [reflexivity | discriminate E].
Qed.

(** [encodeURIComponent] never lets a slash through. *)
Lemma encodeURIComponent_slash_free (s : string) :
  slash_free (encodeURIComponent s) = true.
Proof.
  unfold encodeURIComponent.
  induction s as [| c s IH]; [reflexivity |].
  simpl percent_encode. rewrite slash_free_app, IH, andb_true_r.
  destruct (uri_component_keep c) eqn:K.
  - simpl. rewrite (uri_component_keep_not_slash c K). reflexivity.
  - apply percent_byte_slash_free.
Qed.

Lemma encodeURIComponent_not_nil (s : string) :
  s <> "" -> encodeURIComponent s <> "".
Proof.
  destruct s as [| c s]; [contradiction |].
  intros _. unfold encodeURIComponent. simpl percent_encode.
  apply app_not_nil_l.
  destruct (uri_component_keep c); discriminate.
Qed.

(** The joined segment: empty for no part, and otherwise a non-empty
    string with no slash at either end, as long as no part is empty. *)
Lemma joined_parts_shape (parts : list string) :
  Forall (fun part => part <> "") parts ->
  let joined := join "/" (map encodeURIComponent parts) in
  match parts with
  | [] => joined = ""
  | _ :: _ =>
      joined <> "" /\ startsWith "/" joined = false
      /\ endsWith "/" joined = false
  end.
Proof.
  induction 1 as [| p rest Hp Hrest IH]; [reflexivity |].
  pose proof (encodeURIComponent_slash_free p) as Hfree.
  pose proof (encodeURIComponent_not_nil p Hp) as Hne.
  destruct rest as [| q rest].
  - change (join "/" (map encodeURIComponent [p])) with (encodeURIComponent p).
    cbv zeta. repeat split;
      auto using slash_free_startsWith, slash_free_endsWith.
  - cbv zeta in IH. destruct IH as (J1 & J2 & J3).
    change (join "/" (map encodeURIComponent (p :: q :: rest)))
      with (encodeURIComponent p ++ "/"
              ++ join "/" (map encodeURIComponent (q :: rest))).
    set (rest_joined := join "/" (map encodeURIComponent (q :: rest))) in *.
    repeat split.
    + apply app_not_nil_l; exact Hne.
    + rewrite startsWith_slash_app by exact Hne.
      apply slash_free_startsWith; exact Hfree.
    + rewrite endsWith_slash_app by (apply app_not_nil_r; exact J1).
      rewrite endsWith_slash_app by exact J1. exact J3.
Qed.

Lemma tidy_inv (x : string) :
  tidy x = true -> startsWith "//" x = false /\ endsWith "//" x = false.
Proof.
  unfold tidy. rewrite andb_true_iff, !negb_true_iff. tauto.
Qed.

(** A slash, then text that does not begin with a slash, the whole not
    ending with two slashes: one final slash at most is taken away and a
    clean string is left. *)
Lemma strip_final_clean (y : string) :
  startsWith "/" y = false -> endsWith "//" (String "/" y) = false ->
  clean (if endsWith "/" (String "/" y) then slice_0_m1 (String "/" y)
         else String "/" y).
Proof.
  intros Hy H2.
  destruct (endsWith "/" (String "/" y)) eqn:E.
  - destruct y as [| d y]; [left; reflexivity |].
    right. rewrite slice_cons2. split.
    + unfold one_leading_slash.
      rewrite startsWith_slash_cons, startsWith_2slash_cons.
      rewrite startsWith_slash_cons in Hy.
      replace (Ascii.eqb "/" "/") with true by reflexivity.
      destruct y as [| e y]; [reflexivity |].
      rewrite slice_cons2, startsWith_slash_cons, Hy. reflexivity.
    + rewrite <- slice_cons2. apply slice_no_trailing; assumption.
  - right. split; [| exact E].
    unfold one_leading_slash.
    rewrite startsWith_slash_cons, startsWith_2slash_cons, Hy.
    reflexivity.
Qed.

Lemma with_slashes_set_clean (x : string) :
  x <> "" -> tidy x = true -> clean (with_slashes_set x).
Proof.
  intros Hx Ht. apply tidy_inv in Ht as [T1 T2].
  unfold with_slashes_set.
  destruct x as [| c x]; [contradiction |].
  rewrite startsWith_slash_cons.
  destruct (Ascii.eqb c "/") eqn:Ec.
  - apply Ascii.eqb_eq in Ec; subst c. simpl negb. cbv iota.
    apply strip_final_clean; [| exact T2].
    rewrite startsWith_2slash_cons in T1. exact T1.
  - simpl negb. cbv iota. change ("/" ++ String c x) with (String "/" (String c x)).
    apply strip_final_clean.
    + rewrite startsWith_slash_cons. exact Ec.
    + rewrite endsWith_cons, T2. simpl String.eqb.
      rewrite Ec. reflexivity.
Qed.

Lemma clean_app (a b : string) : clean a -> clean b -> clean (a ++ b).
Proof.
  intros [-> | [A1 A2]] Hb; [exact Hb |].
  destruct Hb as [-> | [B1 B2]].
  - right. replace (a ++ "") with a; [split; assumption |].
    clear. induction a; simpl; congruence.
  - right. unfold one_leading_slash in *.
    apply andb_true_iff in A1 as [A1 A3], B1 as [B1 B3].
    rewrite negb_true_iff in A3.
    destruct (startsWith_slash_inv _ A1) as [a' ->].
    destruct (startsWith_slash_inv _ B1) as [b' ->].
    split.
    + simpl append. rewrite startsWith_slash_cons, startsWith_2slash_cons.
      rewrite startsWith_2slash_cons in A3.
      replace (Ascii.eqb "/" "/") with true in * by reflexivity.
      rewrite andb_true_l in A3 |- *.
      destruct a' as [| d a'].
      * rewrite endsWith_slash_single in A2. discriminate.
      * simpl append. rewrite startsWith_slash_cons in A3 |- *.
        rewrite A3. reflexivity.
    + rewrite endsWith_slash_app by discriminate. exact B2.
Qed.

Lemma endsWith_2slash_slash (s : string) :
  endsWith "/" s = false -> endsWith "//" s = false.
Proof.
  induction s as [| c s IH]; [reflexivity |].
  rewrite !endsWith_cons. intros E.
  apply orb_false_iff in E as [E1 E2].
  rewrite (IH E2), orb_false_r.
  destruct s as [| d s]; simpl.
  - destruct (Ascii.eqb c "/"); reflexivity.
  - destruct (Ascii.eqb c "/"); [| reflexivity].
    destruct (Ascii.eqb d "/") eqn:Ed; [| reflexivity].
    destruct s; [| reflexivity].
    rewrite endsWith_slash_single in E2. congruence.
Qed.

Lemma startsWith_2slash_slash (s : string) :
  startsWith "/" s = false -> startsWith "//" s = false.
Proof.
  destruct s as [| c s]; [reflexivity |].
  rewrite startsWith_slash_cons, startsWith_2slash_cons.
  intros ->. reflexivity.
Qed.

Lemma normalize_pathPrefix_clean (options : PathOptions) :
  tidy (match pathPrefix options with Some p => p | None => "" end) = true ->
  clean (normalize_pathPrefix options).
Proof.
  unfold normalize_pathPrefix.
  set (p := match pathPrefix options with Some p => p | None => "" end).
  intros Ht. destruct (truthy p) eqn:E.
  - apply with_slashes_set_clean; [apply truthy_true; exact E | exact Ht].
  - left. apply truthy_false; exact E.
Qed.

(** The two steps that follow the choice of the segment. *)
Lemma segment_steps (seg : string) :
  (let seg2 := if truthy seg && negb (startsWith "/" seg) then "/" ++ seg
               else seg in
   if endsWith "/" seg2 then slice_0_m1 seg2 else seg2)
  = if truthy seg then with_slashes_set seg else "".
Proof.
  cbv zeta. destruct (truthy seg) eqn:E.
  - reflexivity.
  - apply truthy_false in E; subst. reflexivity.
Qed.

Lemma chosen_segment_clean (seg : string) :
  seg = "" \/ tidy seg = true ->
  clean (if truthy seg then with_slashes_set seg else "").
Proof.
  intros Hs. destruct (truthy seg) eqn:E; [| left; reflexivity].
  apply truthy_true in E. destruct Hs as [-> | Ht]; [contradiction |].
  apply with_slashes_set_clean; assumption.
Qed.

(** A clean path under [addLocalePrefix], for a locale that does not
    begin with a slash. *)
Lemma addLocalePrefix_clean (path : string) (options : PathOptions) :
  clean path ->
  (forall l, locale options = Some l -> startsWith "/" l = false) ->
  let result := addLocalePrefix path options in
  one_leading_slash result = true
  /\ (no_trailing_slash result = true \/ result = "/"
      \/ result = slash_locale (locale options) ++ "/").
Proof.
  intros Hc Hl. unfold addLocalePrefix.
  set (path' := if negb (startsWith "/" path) then "/" ++ path else path).
  assert (Hp : path' = "/" /\ path = ""
               \/ path' = path /\ one_leading_slash path = true
                  /\ endsWith "/" path = false).
  { subst path'. destruct Hc as [-> | [C1 C2]]; [left; split; reflexivity |].
    right. unfold one_leading_slash in C1.
    apply andb_true_iff in C1 as [C1 C3].
    rewrite C1. simpl negb. cbv iota.
    unfold one_leading_slash. rewrite C1, C3. auto. }
  clearbody path'.
  match goal with
  | |- context [if ?b then slash_locale _ else ""] => destruct b eqn:Hb
  end.
  - apply andb_true_iff in Hb as [Hb _].
    apply andb_true_iff in Hb as [Hb _].
    destruct (locale options) as [l |] eqn:El; [| discriminate].
    specialize (Hl l eq_refl). simpl in Hb. apply truthy_true in Hb.
    destruct l as [| c l]; [contradiction |].
    rewrite startsWith_slash_cons in Hl.
    cbv zeta. simpl slash_locale.
    assert (Hlead : forall rest,
               one_leading_slash (("/" ++ String c l) ++ rest) = true).
    { intros rest. unfold one_leading_slash. simpl append.
      rewrite startsWith_slash_cons, startsWith_2slash_cons,
        startsWith_slash_cons, Hl. reflexivity. }
    split; [apply Hlead |].
    destruct Hp as [[-> _] | (-> & P1 & P2)].
    + right; right; reflexivity.
    + left. unfold no_trailing_slash.
      rewrite endsWith_slash_app, P2; [reflexivity |].
      intros ->. discriminate.
  - cbv zeta. change ("" ++ path') with path'.
    destruct Hp as [[-> _] | (-> & P1 & P2)].
    + split; [reflexivity | right; left; reflexivity].
    + split; [exact P1 |]. left. unfold no_trailing_slash.
      rewrite P2. reflexivity.
Qed.

End SlashFacts.

(* ================================================================== *)
(** * Facts about [Headers] *)

Module HeadersFacts.

Import Headers.

#[local] Arguments Ascii.eqb : simpl never.

Lemma same_name_iff (a b : string) :
  same_name a b = true <-> toLowerCase a = toLowerCase b.
Proof. apply String.eqb_eq. Qed.


Lemma same_name_sym (a b : string) : same_name a b = same_name b a.
Proof. apply String.eqb_sym. Qed.

(** Names that are the same match the same names. *)
Lemma same_name_trans (a b c : string) :
  same_name a b = true -> same_name a c = same_name b c.
Proof.
  intros E. apply same_name_iff in E. unfold same_name. rewrite E.
  reflexivity.
Qed.

Lemma same_name_other (a b c : string) :
  same_name a b = false -> same_name b c = true -> same_name a c = false.
Proof.
  intros E1 E2. rewrite (same_name_sym a c).
  rewrite <- (same_name_trans b c a E2), same_name_sym. exact E1.
Qed.

Lemma lower_char_idem (c : ascii) : lower_char (lower_char c) = lower_char c.
Proof. destruct c as [[] [] [] [] [] [] [] []]; reflexivity. Qed.

Lemma toLowerCase_idem (s : string) :
  toLowerCase (toLowerCase s) = toLowerCase s.
Proof.
  induction s as [| c s IH]; [reflexivity |].
  simpl. rewrite lower_char_idem, IH. reflexivity.
Qed.

Lemma same_name_lower (a b : string) :
  same_name (toLowerCase a) b = same_name a b.
Proof. unfold same_name. rewrite toLowerCase_idem. reflexivity. Qed.

Lemma get_values (h : t) (name : string) :
  get h name = match values h name with
               | [] => None
               | found => Some (join ", " found)
               end.
Proof.
  unfold get, values.
  destruct (filter (fun e => same_name (fst e) name) h); reflexivity.
Qed.

Lemma values_same_name (h : t) (a b : string) :
  same_name a b = true -> values h a = values h b.
Proof.
  intros E. unfold values. f_equal. apply filter_ext. intros e.
  rewrite !(same_name_sym (fst e)). apply same_name_trans; exact E.
Qed.

Lemma get_same_name (h : t) (a b : string) :
  same_name a b = true -> get h a = get h b.
Proof.
  intros E. rewrite !get_values, (values_same_name h a b E). reflexivity.
Qed.

Lemma values_cons (n v : string) (h : t) (k : string) :
  values ((n, v) :: h) k
  = if same_name n k then v :: values h k else values h k.
Proof.
  unfold values. simpl. destruct (same_name n k); reflexivity.
Qed.

Lemma values_remove (h : t) (n k : string) :
  values (remove h n) k = if same_name n k then [] else values h k.
Proof.
  induction h as [| [n0 v0] h IH]; [destruct (same_name n k); reflexivity |].
  unfold remove in *. simpl filter.
  destruct (same_name n0 n) eqn:E0; simpl negb; cbv iota.
  - rewrite IH, values_cons.
    rewrite (same_name_trans n0 n k E0).
    destruct (same_name n k); reflexivity.
  - rewrite !values_cons, IH.
    destruct (same_name n k) eqn:E; [| reflexivity].
    rewrite (same_name_other n0 n k E0 E). reflexivity.
Qed.

(** After [set], the name holds the one value, and other names hold
    what they held. *)
Lemma values_set (h : t) (n v k : string) :
  values (set h n v) k = if same_name n k then [v] else values h k.
Proof.
  induction h as [| [n0 v0] h IH].
  - simpl set. rewrite values_cons. destruct (same_name n k); reflexivity.
  - simpl set. destruct (same_name n0 n) eqn:E0.
    + rewrite !values_cons, values_remove.
      rewrite (same_name_trans n0 n k E0).
      destruct (same_name n k); reflexivity.
    + rewrite !values_cons, IH.
      destruct (same_name n k) eqn:E; [| reflexivity].
      rewrite (same_name_other n0 n k E0 E). reflexivity.
Qed.

Lemma get_set (h : t) (n v k : string) :
  get (set h n v) k = if same_name n k then Some v else get h k.
Proof.
  rewrite !get_values, values_set.
  destruct (same_name n k); reflexivity.
Qed.

Lemma make_from (init acc : list (string * string)) :
  fold_left (fun h e => append h (fst e) (snd e)) init acc = (acc ++ init)%list.
Proof.
  revert acc; induction init as [| [n v] init IH]; intros acc; simpl.
  - symmetry; apply app_nil_r.
  - rewrite IH. unfold append. simpl. rewrite <- app_assoc. reflexivity.
Qed.

(** A copy holds the same entries. *)
Lemma make_id (init : list (string * string)) : make init = init.
Proof. unfold make. apply make_from. Qed.

Lemma has_values (h : t) (k : string) :
  has h k = match values h k with [] => false | _ => true end.
Proof.
  induction h as [| [n v] h IH]; [reflexivity |].
  unfold has in *. simpl existsb. rewrite values_cons.
  destruct (same_name n k); [reflexivity | exact IH].
Qed.

Lemma existsb_insert_sorted (p : string -> bool) (x : string) (l : list string) :
  existsb p (insert_sorted x l) = p x || existsb p l.
Proof.
  induction l as [| y l IH]; [reflexivity |].
  simpl insert_sorted. destruct (String.eqb x y) eqn:E.
  - apply String.eqb_eq in E; subst. simpl.
    destruct (p y); reflexivity.
  - destruct (String.ltb x y); simpl; [reflexivity |].
    rewrite IH. destruct (p x), (p y); reflexivity.
Qed.

(** [keys] names exactly the names that are held. *)
Lemma keys_has (h : t) (k : string) :
  existsb (fun key => same_name key k) (keys h) = has h k.
Proof.
  induction h as [| [n v] h IH]; [reflexivity |].
  unfold keys in *. simpl fold_right.
  rewrite existsb_insert_sorted, IH. simpl fst.
  rewrite same_name_lower. reflexivity.
Qed.

(** The loop of the merge: every key of the call's headers is set to
    the value the call gives it. *)
Lemma get_fold_set (per_call : t) (ks : list string) (h : t) (k : string) :
  get (fold_left
         (fun headers key =>
            set headers key (text_of_null (get per_call key))) ks h) k
  = if existsb (fun key => same_name key k) ks
    then Some (text_of_null (get per_call k))
    else get h k.
Proof.
  revert h; induction ks as [| key ks IH]; intros h; [reflexivity |].
  simpl fold_left. rewrite IH. simpl existsb.
  destruct (existsb (fun key0 => same_name key0 k) ks).
  - rewrite orb_true_r. reflexivity.
  - rewrite orb_false_r, get_set.
    destruct (same_name key k) eqn:E; [| reflexivity].
    rewrite (get_same_name per_call key k E). reflexivity.
Qed.

(** The merged headers, name by name: the value of the call when the
    call has the name, and the value of the instance otherwise. *)
Lemma get_merge_headers (instance : t) (per_call : option HeadersInit)
    (k : string) :
  get (merge_headers instance per_call) k
  = match per_call with
    | Some raw =>
        match get (make raw) k with
        | Some v => Some v
        | None => get instance k
        end
    | None => get instance k
    end.
Proof.
  unfold merge_headers. rewrite (make_id instance).
  destruct per_call as [raw |]; [| reflexivity].
  rewrite get_fold_set, keys_has, has_values, (get_values (make raw) k).
  destruct (values (make raw) k); reflexivity.
Qed.

End HeadersFacts.

(* ================================================================== *)
(** * Facts about runs *)

Module RunFacts.

Lemma bind_ext {A B : Type} (m : M A) (k1 k2 : A -> M B)
    (this : Client.t) (w : World.t) :
  (forall a this' w', k1 a this' w' = k2 a this' w') ->
  bind m k1 this w = bind m k2 this w.
Proof.
  intros E. unfold bind. destruct (m this w) as [[[a | e] this'] w'];
    [apply E | reflexivity].
Qed.

Lemma same_configuration_refl (c : Client.t) : same_configuration c c.
Proof. repeat split. Qed.

Lemma same_configuration_trans (a b c : Client.t) :
  same_configuration a b -> same_configuration b c -> same_configuration a c.
Proof.
  unfold same_configuration. intros Hab Hbc.
  repeat match goal with
         | H : _ /\ _ |- _ => destruct H
         end.
  repeat split; congruence.
Qed.

Lemma same_world_refl (w : World.t) : same_world w w.
Proof. split; reflexivity. Qed.

Lemma same_world_trans (a b c : World.t) :
  same_world a b -> same_world b c -> same_world a c.
Proof. intros [? ?] [? ?]. split; congruence. Qed.

Lemma steady_ret {A : Type} (a : A) : steady (ret a).
Proof. intros this w. split; [apply same_configuration_refl | apply same_world_refl]. Qed.

Lemma steady_throw {A : Type} (e : Exn) : steady (@throw A e).
Proof. intros this w. split; [apply same_configuration_refl | apply same_world_refl]. Qed.

Lemma steady_lift {A : Type} (r : Result A) : steady (lift r).
Proof. intros this w. split; [apply same_configuration_refl | apply same_world_refl]. Qed.

Lemma steady_get_this : steady get_this.
Proof. intros this w. split; [apply same_configuration_refl | apply same_world_refl]. Qed.

Lemma steady_debug (message : string) : steady (debug message).
Proof.
  intros this w. split; [apply same_configuration_refl |].
  unfold debug, world_after; simpl.
  destruct (Client.isDebugEnabled this); split; reflexivity.
Qed.

Lemma steady_Date_now : steady Date_now.
Proof.
  intros this w. split; [apply same_configuration_refl | split; reflexivity].
Qed.

Lemma steady_modify_this (f : Client.t -> Client.t) :
  (forall c, same_configuration c (f c)) -> steady (modify_this f).
Proof. intros Hf this w. split; [apply Hf | apply same_world_refl]. Qed.

Lemma steady_call_transport (f : Transport) (input : RequestInfo)
    (init : RequestInit.t) : steady (call_transport f input init).
Proof.
  intros this w. unfold call_transport, client_after, world_after.
  destruct (f (World.requests w) (mkRequest input init)); simpl;
    (split; [apply same_configuration_refl | split; reflexivity]).
Qed.

Lemma steady_global_fetch (input : RequestInfo) (init : RequestInit.t) :
  steady (global_fetch input init).
Proof. intros this w. apply steady_call_transport. Qed.

Lemma steady_bind {A B : Type} (m : M A) (k : A -> M B) :
  steady m -> (forall a, steady (k a)) -> steady (bind m k).
Proof.
  intros Hm Hk this w. specialize (Hm this w).
  unfold bind, client_after, world_after in *.
  destruct (m this w) as [[[a | e] this1] w1]; simpl in Hm; [| exact Hm].
  destruct Hm as [Hc Hw]. specialize (Hk a this1 w1) as [Hc' Hw'].
  split; [eapply same_configuration_trans | eapply same_world_trans];
    eassumption.
Qed.

Lemma steady_try_catch {A : Type} (m : M A) (handler : Exn -> M A) :
  steady m -> (forall e, steady (handler e)) -> steady (try_catch m handler).
Proof.
  intros Hm Hk this w. specialize (Hm this w).
  unfold try_catch, client_after, world_after in *.
  destruct (m this w) as [[[a | e] this1] w1]; simpl in Hm; [exact Hm |].
  destruct Hm as [Hc Hw]. specialize (Hk e this1 w1) as [Hc' Hw'].
  split; [eapply same_configuration_trans | eapply same_world_trans];
    eassumption.
Qed.

(** The steps of a steadiness proof: through the binds, into the
    branches. *)
Ltac steady_step :=
  first
    [ apply steady_ret | apply steady_throw | apply steady_lift
    | apply steady_get_this | apply steady_debug | apply steady_Date_now
    | apply steady_call_transport | apply steady_global_fetch
    | apply steady_modify_this; intros ?; repeat split
    | apply steady_bind; [| intros ?]
    | apply steady_try_catch; [| intros ?]
    | match goal with
      | |- steady (match ?x with _ => _ end) => destruct x
      | |- steady (let _ := _ in _) => cbv zeta
      end ].

Section WithPlatform.

Context {platform : Platform}.

(** A [fetch] without [withAuth] never asks for a header. *)
Lemma fetch_with_no_auth
    (g1 g2 : option NextDrupalAuth.t -> M string)
    (input : RequestInfo) (init : RequestInit.t) :
  fetch_with g1 input (mkFetchOptions None init)
  = fetch_with g2 input (mkFetchOptions None init).
Proof. reflexivity. Qed.

(** Credentials that are a user name and a password only never lead
    to the token flow. *)
Lemma header_of_credentials
    (t1 t2 : option NextDrupalAuth.Fields -> M AccessToken.t)
    (u p : option string) :
  let credentials :=
    Some (NextDrupalAuth.Object
            (NextDrupalAuth.mkFields u p None None NextDrupalAuth.Absent None None
               None)) in
  getAuthorizationHeader_with t1 credentials
  = getAuthorizationHeader_with t2 credentials.
Proof. destruct u, p; reflexivity. Qed.

(** The definition of [getAccessToken] is the method of the source:
    it calls the [fetch] and the [getAuthorizationHeader] of the
    instance. *)
Lemma request_new_token_unfold (auth : NextDrupalAuth.Fields)
    (url : Url.URL) (this : Client.t) (w : World.t) :
  request_new_token (fetch_with unreachable)
    (getAuthorizationHeader_with unreachable) auth url this w
  = request_new_token fetch getAuthorizationHeader auth url this w.
Proof.
  unfold request_new_token, getAuthorizationHeader.
  rewrite (header_of_credentials getAccessToken unreachable).
  reflexivity.
Qed.

(** The definition of [getAccessToken] is the method of the source:
    it calls the [fetch] and the [getAuthorizationHeader] of the
    instance. *)
Lemma getAccessToken_unfold
    (clientIdSecret : option NextDrupalAuth.Fields)
    (this : Client.t) (w : World.t) :
  getAccessToken clientIdSecret this w
  = getAccessToken_with fetch getAuthorizationHeader clientIdSecret this w.
Proof.
  unfold getAccessToken, getAccessToken_with.
  apply bind_ext; intros this0 this1 w1.
  destruct (Client.accessToken this0); [reflexivity |].
  apply bind_ext; intros auth this2 w2.
  apply bind_ext; intros url this3 w3.
  apply bind_ext; intros usable this4 w4.
  apply bind_ext; intros this5 this6 w6.
  destruct usable, (Client._token this5); try reflexivity;
    apply request_new_token_unfold.
Qed.

(** [fetch], in its two halves. *)
Lemma fetch_run (input : RequestInfo) (options : FetchOptions)
    (this : Client.t) (w : World.t) :
  fetch input options this w
  = match authorization_stage options this w with
    | (Throw e, this1, w1) => (Throw e, this1, w1)
    | (Ok authorization, this1, w1) =>
        let merged :=
          merge_headers (Client._headers this)
            (RequestInit.headers (init options)) in
        send (absolute_input (Client.baseUrl this1) input)
          (RequestInit.set_headers
             (RequestInit.set_credentials (init options) "include")
             (match authorization with
              | Some header => Headers.set merged "Authorization" header
              | None => merged
              end))
          this1 w1
    end.
Proof.
  unfold fetch, fetch_with, authorization_stage, auth_for, send,
    absolute_input, bind, get_this, ret.
  destruct (withAuth_truthy (withAuth options)); [| reflexivity].
  destruct (getAuthorizationHeader _ this w) as [[[header | e] this1] w1];
    reflexivity.
Qed.

(** What [send] does to the world: one more request, whatever the
    transport answers. *)
Lemma send_run (input : RequestInfo) (init : RequestInit.t)
    (this : Client.t) (w : World.t) :
  let request := mkRequest input init in
  let run := send input init this w in
  client_after run = this
  /\ requests_after run = (World.requests w ++ [request])%list
  /\ outcome run
     = match transport_of this w (World.requests w) request with
       | Resolves response => Ok response
       | Rejects message => Throw (TransportError message)
       end.
Proof.
  unfold send, transport_of, bind, get_this, debug, global_fetch,
    call_transport, client_after, requests_after, world_after, outcome.
  destruct (Client.fetcher this) as [fetcher |];
    destruct (Client.isDebugEnabled this); simpl;
    match goal with
    | |- context [match ?t with Resolves _ => _ | Rejects _ => _ end] =>
        destruct t
    end; simpl; auto.
Qed.

Lemma steady_buildUrl (path : string)
    (searchParams : option EndpointSearchParams) :
  steady (buildUrl path searchParams).
Proof. unfold buildUrl. repeat steady_step. Qed.

Lemma steady_send (input : RequestInfo) (init : RequestInit.t) :
  steady (send input init).
Proof. unfold send. repeat steady_step. Qed.

Lemma steady_fetch_with (g : option NextDrupalAuth.t -> M string)
    (input : RequestInfo) (options : FetchOptions) :
  (forall auth, steady (g auth)) -> steady (fetch_with g input options).
Proof.
  intros Hg. unfold fetch_with.
  repeat first [ apply Hg | steady_step ].
Qed.

Lemma steady_getAuthorizationHeader_with
    (t : option NextDrupalAuth.Fields -> M AccessToken.t)
    (auth : option NextDrupalAuth.t) :
  (forall c, steady (t c)) -> steady (getAuthorizationHeader_with t auth).
Proof.
  intros Ht. unfold getAuthorizationHeader_with.
  repeat first [ apply Ht | steady_step ].
Qed.

Lemma steady_unreachable {A B : Type} (a : A) : steady (@unreachable A B a).
Proof. apply steady_throw. Qed.

Lemma steady_set_token (token : AccessToken.t) : steady (set_token token).
Proof. unfold set_token. repeat steady_step. Qed.

Lemma steady_request_new_token
    (f : RequestInfo -> FetchOptions -> M Response.t)
    (g : option NextDrupalAuth.t -> M string)
    (auth : NextDrupalAuth.Fields) (url : Url.URL) :
  (forall input options, steady (f input options)) ->
  (forall a, steady (g a)) ->
  steady (request_new_token f g auth url).
Proof.
  intros Hf Hg. unfold request_new_token.
  repeat first [ apply Hf | apply Hg | apply steady_set_token | steady_step ].
Qed.

(** [getAccessToken] touches nothing of the instance but the cached
    token. *)
Lemma steady_getAccessToken
    (clientIdSecret : option NextDrupalAuth.Fields) :
  steady (getAccessToken clientIdSecret).
Proof.
  unfold getAccessToken, getAccessToken_with, resolve_client_credentials,
    cached_token_usable.
  repeat first
    [ apply steady_buildUrl
    | apply steady_request_new_token; intros;
      [ apply steady_fetch_with | apply steady_getAuthorizationHeader_with ];
      intros; apply steady_unreachable
    | steady_step ].
Qed.

Lemma steady_getAuthorizationHeader (auth : option NextDrupalAuth.t) :
  steady (getAuthorizationHeader auth).
Proof.
  apply steady_getAuthorizationHeader_with.
  exact steady_getAccessToken.
Qed.

Lemma steady_fetch (input : RequestInfo) (options : FetchOptions) :
  steady (fetch input options).
Proof.
  apply steady_fetch_with. exact steady_getAuthorizationHeader.
Qed.


Lemma resolve_run (clientIdSecret : option NextDrupalAuth.Fields)
    (this : Client.t) (w : World.t) :
  resolve_client_credentials clientIdSecret this w
  = (match current_request this clientIdSecret with
     | Some auth => Ok auth
     | None =>
         Throw (Error
                  (if negb (is_some (Client._auth this))
                   then auth_not_configured
                   else "'clientId' and 'clientSecret' required. See https://next-drupal.org/docs/client/auth"))
     end, this, w).
Proof.
  assert (Hinstance :
            (if isClientIdSecretAuth (Client._auth this)
             then ret (NextDrupalAuth.fields_of (Client._auth this))
             else if negb (is_some (Client._auth this))
                  then throw (Error auth_not_configured)
                  else throw (Error "'clientId' and 'clientSecret' required. See https://next-drupal.org/docs/client/auth"))
              this w
            = (match instance_request this with
               | Some auth => Ok auth
               | None =>
                   Throw (Error
                            (if negb (is_some (Client._auth this))
                             then auth_not_configured
                             else "'clientId' and 'clientSecret' required. See https://next-drupal.org/docs/client/auth"))
               end, this, w)).
  { unfold instance_request, isClientIdSecretAuth, has_client_credentials.
    destruct (Client._auth this) as [[f | value | produce] |]; simpl;
      try reflexivity.
    destruct (is_some (NextDrupalAuth.clientId f)
              && is_some (NextDrupalAuth.clientSecret f)); reflexivity. }
  unfold resolve_client_credentials, current_request, bind, get_this.
  destruct clientIdSecret as [given |]; [| exact Hinstance].
  change (isClientIdSecretAuth (as_auth (Some given)))
    with (has_client_credentials given).
  destruct (has_client_credentials given); [| exact Hinstance].
  simpl. destruct (NextDrupalAuth.url given); reflexivity.
Qed.

Lemma current_request_credentials (this : Client.t)
    (clientIdSecret : option NextDrupalAuth.Fields)
    (auth : NextDrupalAuth.Fields) :
  current_request this clientIdSecret = Some auth ->
  has_client_credentials auth = true.
Proof.
  assert (Hinstance : instance_request this = Some auth ->
                      has_client_credentials auth = true).
  { unfold instance_request.
    destruct (Client._auth this) as [[f | value | produce] |];
      try discriminate.
    destruct (has_client_credentials f) eqn:E; [| discriminate].
    intros [= <-]. exact E. }
  unfold current_request.
  destruct clientIdSecret as [given |]; [| exact Hinstance].
  destruct (has_client_credentials given) eqn:E; [| exact Hinstance].
  intros [= <-]. exact E.
Qed.

(** The guard of the reuse is the condition of the specification. *)
Lemma cached_token_usable_run (auth : NextDrupalAuth.Fields)
    (this : Client.t) (w : World.t) :
  has_client_credentials auth = true ->
  cached_token_usable auth this w
  = (Ok (cache_usable this (World.clock w (World.clock_reads w)) auth),
     this,
     if is_some (Client._token this) then tick w else w).
Proof.
  intros Hcred. unfold cached_token_usable, cache_usable, bind, get_this.
  destruct (Client._token this) as [token |]; [| reflexivity].
  unfold Date_now, ret, tick. simpl is_some. rewrite andb_true_l.
  f_equal. f_equal. f_equal.
  destruct (Client._tokenRequestDetails this) as [cached |].
  - rewrite !andb_assoc. reflexivity.
  - unfold has_client_credentials in Hcred.
    destruct (NextDrupalAuth.clientId auth); [| discriminate].
    simpl. rewrite andb_false_r. reflexivity.
Qed.

#[local] Arguments merge_headers : simpl never.
#[local] Arguments Base64.encode : simpl never.
#[local] Arguments Url.toString : simpl never.
#[local] Arguments throwIfJsonErrors : simpl never.
#[local] Arguments Response.json : simpl never.
#[local] Arguments AccessToken.of_json : simpl never.
#[local] Arguments String.append : simpl never.
#[local] Arguments startsWith : simpl never.

(** A request for a new token: one request goes out, and the answer
    decides the outcome and the instance. *)
Lemma request_new_token_run (auth : NextDrupalAuth.Fields) (url : Url.URL)
    (this : Client.t) (w : World.t) :
  has_client_credentials auth = true ->
  let run := request_new_token fetch getAuthorizationHeader auth url this w in
  let request := token_request this auth url in
  requests_after run = (World.requests w ++ [request])%list
  /\ (outcome run, client_after run)
     = token_answer this auth (World.clock w (World.clock_reads w))
         (transport_of this w (World.requests w) request).
Proof.
  intros Hcred. cbv zeta.
  unfold has_client_credentials in Hcred.
  destruct (NextDrupalAuth.clientId auth) as [id |] eqn:Eid;
    [| discriminate].
  destruct (NextDrupalAuth.clientSecret auth) as [secret |] eqn:Esecret;
    [| discriminate].
  unfold request_new_token, getAuthorizationHeader,
    getAuthorizationHeader_with, token_request, basic_header, token_answer.
  rewrite Eid, Esecret. simpl isBasicAuth. cbv iota.
  unfold fetch, fetch_with. simpl withAuth_truthy. cbv iota.
  unfold set_token, transport_of, absolute_input.
  unfold bind, ret, lift, throw, get_this, modify_this, debug, Date_now,
    global_fetch, call_transport, outcome, client_after, requests_after,
    world_after.
  destruct this as [accessToken baseUrl fetcher frontPage debugging
                      withAuth apiPrefix auth0 headers token expires details].
  destruct w as [global clock reads requests log].
  simpl.
  destruct debugging, (truthy_opt (NextDrupalAuth.scope auth)),
    fetcher as [fetcher |]; simpl;
    match goal with
    | |- context [match ?t with Resolves _ => _ | Rejects _ => _ end] =>
        destruct t as [response | message]
    end; simpl; try solve [split; reflexivity];
    destruct (throwIfJsonErrors response _) as [[] | ?]; simpl;
    try solve [split; reflexivity];
    destruct (Response.json response) as [body | ?]; simpl;
    try solve [split; reflexivity];
    destruct (AccessToken.of_json body) as [result |]; simpl;
    try solve [split; reflexivity].
Qed.

(** [getAccessToken] on an instance without [accessToken], for a
    request whose token URL parses: the cached token or a new one. *)
Lemma getAccessToken_run (clientIdSecret : option NextDrupalAuth.Fields)
    (this : Client.t) (w : World.t)
    (auth : NextDrupalAuth.Fields) (url : Url.URL) :
  Client.accessToken this = None ->
  current_request this clientIdSecret = Some auth ->
  new_URL (text_of (NextDrupalAuth.url auth)) (Client.baseUrl this)
  = Some url ->
  getAccessToken clientIdSecret this w
  = let w1 := if is_some (Client._token this) then tick w else w in
    match cache_usable this (World.clock w (World.clock_reads w)) auth,
          Client._token this with
    | true, Some token =>
        (debug "Using existing access token." ;;; ret token) this w1
    | _, _ =>
        request_new_token fetch getAuthorizationHeader auth url this w1
    end.
Proof.
  intros Hnone Hauth Hurl.
  pose proof (current_request_credentials _ _ _ Hauth) as Hcred.
  rewrite getAccessToken_unfold. unfold getAccessToken_with.
  unfold bind at 1. unfold get_this at 1. rewrite Hnone.
  unfold bind at 1. rewrite resolve_run, Hauth.
  unfold bind at 1. unfold buildUrl, buildUrl_on.
  unfold bind at 1. unfold get_this at 1. unfold lift. rewrite Hurl.
  unfold bind at 1. rewrite (cached_token_usable_run auth this w Hcred).
  unfold bind at 1. unfold get_this at 1.
  cbv zeta.
  destruct (cache_usable this _ auth); [| reflexivity].
  destruct (Client._token this); reflexivity.
Qed.

Lemma requests_tick (w : World.t) (this : Client.t) :
  World.requests (if is_some (Client._token this) then tick w else w)
  = World.requests w.
Proof. destruct (is_some (Client._token this)); reflexivity. Qed.

Lemma transport_tick (w : World.t) (this : Client.t) :
  transport_of this (if is_some (Client._token this) then tick w else w)
  = transport_of this w.
Proof. destruct (is_some (Client._token this)); reflexivity. Qed.

(** Every call of [getAccessToken] either sends nothing and leaves
    the instance as it was, or sends the token request of some
    credentials and ends as the answer to it decides. *)
Lemma getAccessToken_summary
    (clientIdSecret : option NextDrupalAuth.Fields)
    (this : Client.t) (w : World.t) :
  let run := getAccessToken clientIdSecret this w in
  (client_after run = this /\ requests_after run = World.requests w)
  \/ (exists auth url stored_at,
         let request := token_request this auth url in
         requests_after run = (World.requests w ++ [request])%list
         /\ (outcome run, client_after run)
            = token_answer this auth stored_at
                (transport_of this w (World.requests w) request)).
Proof.
  cbv zeta.
  destruct (Client.accessToken this) as [token |] eqn:Htoken.
  { left. unfold getAccessToken, getAccessToken_with, bind, get_this.
    rewrite Htoken. split; reflexivity. }
  destruct (current_request this clientIdSecret) as [auth |] eqn:Hauth.
  2:{ left.
      assert (Hrun : exists e, getAccessToken clientIdSecret this w
                               = (Throw e, this, w)).
      { rewrite getAccessToken_unfold. unfold getAccessToken_with.
        unfold bind at 1. unfold get_this at 1. rewrite Htoken.
        unfold bind at 1. rewrite resolve_run, Hauth. eauto. }
      destruct Hrun as [e ->]. split; reflexivity. }
  destruct (new_URL (text_of (NextDrupalAuth.url auth)) (Client.baseUrl this))
    as [url |] eqn:Hurl.
  2:{ left.
      assert (Hrun : exists e, getAccessToken clientIdSecret this w
                               = (Throw e, this, w)).
      { rewrite getAccessToken_unfold. unfold getAccessToken_with.
        unfold bind at 1. unfold get_this at 1. rewrite Htoken.
        unfold bind at 1. rewrite resolve_run, Hauth.
        unfold bind at 1. unfold buildUrl, buildUrl_on.
        unfold bind at 1. unfold get_this at 1. unfold lift. rewrite Hurl.
        eauto. }
      destruct Hrun as [e ->]. split; reflexivity. }
  rewrite (getAccessToken_run _ _ _ _ _ Htoken Hauth Hurl). cbv zeta.
  pose proof (current_request_credentials _ _ _ Hauth) as Hcred.
  pose proof (request_new_token_run auth url this
                (if is_some (Client._token this) then tick w else w) Hcred)
    as Hnew.
  cbv zeta in Hnew. rewrite requests_tick, transport_tick in Hnew.
  destruct (cache_usable this _ auth);
    [destruct (Client._token this) as [token |] eqn:Hcached |].
  - left. unfold bind, debug, ret, client_after, requests_after, world_after.
    simpl. destruct (Client.isDebugEnabled this); split; reflexivity.
  - right. exists auth, url. eexists. exact Hnew.
  - right. exists auth, url. eexists. exact Hnew.
Qed.

Lemma snoc_injective {A : Type} (l : list A) (x y : A) :
  (l ++ [x] = l ++ [y])%list -> x = y.
Proof. intros E. apply app_inv_head in E. congruence. Qed.

Lemma snoc_longer {A : Type} (l : list A) (x : A) : (l ++ [x])%list <> l.
Proof.
  intros E. apply (f_equal (@List.length A)) in E.
  rewrite length_app in E. simpl in E. lia.
Qed.

Lemma throwIfJsonErrors_ok (response : Response.t) (prefix : string) :
  throwIfJsonErrors response prefix = Ok tt -> Response.ok response = true.
Proof.
  unfold throwIfJsonErrors. destruct (Response.ok response); [reflexivity |].
  simpl. destruct (getErrorsFromResponse response); discriminate.
Qed.

Lemma throwIfJsonErrors_refused (response : Response.t) (prefix : string) :
  Response.ok response = false ->
  exists e, throwIfJsonErrors response prefix = Throw e.
Proof.
  unfold throwIfJsonErrors. intros ->. simpl.
  destruct (getErrorsFromResponse response); eauto.
Qed.

End WithPlatform.

End RunFacts.

(* ================================================================== *)
(** * Paths *)

(** C6, as amended.  When no part of the segment is empty, the path
    prefix and the front page neither begin nor end with two slashes, and
    the locale does not begin with a slash, the path that
    [constructPathFromSegment] returns has exactly one leading slash, and
    it has no trailing slash unless it is ["/"] or the locale prefix
    followed by ["/"]. *)
Theorem constructPathFromSegment_slashes
    (frontPage : string) (segment : Segment) (options : PathOptions) :
  tidy frontPage = true ->
  tidy (match pathPrefix options with Some p => p | None => "" end) = true ->
  Forall (fun part => part <> "") (segment_parts segment) ->
  (forall l, locale options = Some l -> startsWith "/" l = false) ->
  let path := constructPathFromSegment frontPage segment options in
  one_leading_slash path = true
  /\ (no_trailing_slash path = true \/ path = "/"
      \/ path = slash_locale (locale options) ++ "/").
Proof.
  intros Hfront Hprefix Hparts Hlocale.
  unfold constructPathFromSegment.
  pose proof (SlashFacts.normalize_pathPrefix_clean options Hprefix) as Hp.
  pose proof (SlashFacts.joined_parts_shape _ Hparts) as Hj.
  set (prefix := normalize_pathPrefix options) in *.
  set (joined := join "/" (map encodeURIComponent (segment_parts segment))) in *.
  cbv zeta in Hj.
  set (chosen := if negb (truthy joined) && negb (truthy prefix)
                 then frontPage else joined).
  cbv zeta. fold chosen.
  pose proof (SlashFacts.segment_steps chosen) as Hsteps.
  cbv zeta in Hsteps. rewrite Hsteps. clear Hsteps.
  assert (Hchosen : chosen = "" \/ tidy chosen = true).
  { subst chosen.
    destruct (negb (truthy joined) && negb (truthy prefix));
      [right; exact Hfront |].
    destruct (segment_parts segment); [left; exact Hj |].
    destruct Hj as (_ & J2 & J3). right. unfold tidy.
    rewrite (SlashFacts.startsWith_2slash_slash _ J2).
    rewrite (SlashFacts.endsWith_2slash_slash _ J3). reflexivity. }
  apply (SlashFacts.addLocalePrefix_clean _
           (mkPathOptions (locale options) (defaultLocale options) None)).
  - apply SlashFacts.clean_app; [exact Hp |].
    apply SlashFacts.chosen_segment_clean; exact Hchosen.
  - exact Hlocale.
Qed.

Lemma constructPathFromSegment_slashes_witness :
  let path :=
    constructPathFromSegment "/home" (SegArray ["blog"; "my post"])
      (mkPathOptions (Some "fr") (Some "en") (Some "site/")) in
  path = "/fr/site/blog/my%20post"
  /\ one_leading_slash path = true
  /\ (no_trailing_slash path = true \/ path = "/" \/ path = "/fr" ++ "/").
Proof.
  split; [reflexivity |].
  apply (constructPathFromSegment_slashes "/home" (SegArray ["blog"; "my post"])
           (mkPathOptions (Some "fr") (Some "en") (Some "site/"))).
  - reflexivity.
  - reflexivity.
  - repeat constructor; discriminate.
  - intros l E; injection E as <-; reflexivity.
Defined.

(** C6 as stated fails.  With the front page ["/"], the empty segment
    under the locale ["fr"] gives ["/fr/"], which ends with a slash; and
    the parts [""], [""], ["a"] give ["//a"], which begins with two. *)
Lemma constructPathFromSegment_slashes_counterexample :
  (let path :=
     constructPathFromSegment "/" (SegString "")
       (mkPathOptions (Some "fr") (Some "en") None) in
   path = "/fr/"
   /\ ~ (one_leading_slash path = true
         /\ (no_trailing_slash path = true \/ path = "/")))
  /\
  (let path :=
     constructPathFromSegment DEFAULT_FRONT_PAGE (SegArray [""; ""; "a"])
       no_options in
   path = "//a"
   /\ ~ (one_leading_slash path = true
         /\ (no_trailing_slash path = true \/ path = "/"))).
Proof.
  split; (split; [reflexivity |]).
  - intros [_ [E | E]]; discriminate E.
  - intros [E _]; discriminate E.
Qed.

Lemma eq_opt_true (a b : option string) : eq_opt a b = true <-> a = b.
Proof.
  destruct a as [x |], b as [y |]; simpl; try (split; congruence).
  rewrite String.eqb_eq. split; congruence.
Qed.

Lemma eq_opt_refl (a : option string) : eq_opt a a = true.
Proof. apply eq_opt_true; reflexivity. Qed.

(** C7, as amended.  [addLocalePrefix] puts ["/" + locale] in front of the
    path (itself given a leading slash first) exactly when the locale is a
    non-empty string, differs from the default locale, and the path does
    not begin with the text ["/" + locale]; otherwise the path comes back
    alone.  The test is on the text: ["/enchanted"] begins with ["/en"]
    and gets no prefix for the locale ["en"].  ["about"] under the locale
    ["fr"] with default ["en"] is ["/fr/about"], and under a locale equal
    to the default it is ["/about"]. *)
Theorem addLocalePrefix_rule (path : string) (options : PathOptions) :
  let path' := if startsWith "/" path then path else "/" ++ path in
  (forall l,
      locale options = Some l -> l <> "" ->
      defaultLocale options <> Some l ->
      startsWith ("/" ++ l) path' = false ->
      addLocalePrefix path options = "/" ++ l ++ path')
  /\ (locale options = None \/ locale options = Some ""
      \/ locale options = defaultLocale options
      \/ startsWith (slash_locale (locale options)) path' = true ->
      addLocalePrefix path options = path')
  /\ addLocalePrefix "/enchanted" (mkPathOptions (Some "en") (Some "fr") None)
     = "/enchanted"
  /\ (forall frontPage,
        constructPathFromSegment frontPage (SegString "about")
          (mkPathOptions (Some "fr") (Some "en") None) = "/fr/about")
  /\ (forall frontPage l,
        constructPathFromSegment frontPage (SegString "about")
          (mkPathOptions l l None) = "/about").
Proof.
  cbv zeta. unfold addLocalePrefix.
  replace (if negb (startsWith "/" path) then "/" ++ path else path)
    with (if startsWith "/" path then path else "/" ++ path)
    by (destruct (startsWith "/" path); reflexivity).
  set (path' := if startsWith "/" path then path else "/" ++ path).
  repeat split.
  - intros l El Hl Hd Hs. rewrite El. simpl truthy_opt. simpl slash_locale.
    change ("/" ++ l) with (String "/" l) in Hs. rewrite Hs.
    replace (truthy l) with true
      by (symmetry; apply SlashFacts.truthy_true; exact Hl).
    replace (eq_opt (Some l) (defaultLocale options)) with false.
    + reflexivity.
    + symmetry. apply not_true_is_false. intros E.
      apply eq_opt_true in E. congruence.
  - intros [E | [E | [E | E]]].
    + rewrite E. reflexivity.
    + rewrite E. reflexivity.
    + rewrite <- E, eq_opt_refl, andb_false_r. reflexivity.
    + rewrite E, andb_false_r. reflexivity.
  - intros frontPage l. unfold constructPathFromSegment, addLocalePrefix.
    simpl locale. simpl defaultLocale. rewrite eq_opt_refl, andb_false_r.
    reflexivity.
Qed.

Lemma addLocalePrefix_rule_witness :
  addLocalePrefix "node/1" (mkPathOptions (Some "es") (Some "en") None)
  = "/es/node/1"
  /\ addLocalePrefix "/es/node/1" (mkPathOptions (Some "es") (Some "en") None)
     = "/es/node/1".
Proof.
  pose proof (addLocalePrefix_rule "node/1"
                (mkPathOptions (Some "es") (Some "en") None)) as [Hadd _].
  pose proof (addLocalePrefix_rule "/es/node/1"
                (mkPathOptions (Some "es") (Some "en") None)) as [_ [Hkeep _]].
  split.
  - apply (Hadd "es"); [reflexivity | discriminate | discriminate | reflexivity].
  - apply Hkeep. right; right; right. reflexivity.
Defined.

(** C7 as stated fails: the locale ["en"] is not the leading segment of
    ["/enchanted"], it differs from the default locale, and yet the path
    gets no prefix. *)
Lemma addLocalePrefix_rule_counterexample :
  let options := mkPathOptions (Some "en") (Some "fr") None in
  truthy_opt (locale options) = true
  /\ locale options <> defaultLocale options
  /\ leading_segment "/enchanted" <> "en"
  /\ addLocalePrefix "/enchanted" options = "/enchanted"
  /\ addLocalePrefix "/enchanted" options <> "/en" ++ "/enchanted".
Proof.
  repeat split; discriminate.
Qed.

(* ================================================================== *)
(** * The Authorization header *)

(** C1.  [getAuthorizationHeader] takes the first rule that applies: a
    user name and a password give ["Basic "] and the base64 of
    [username:password]; else a client id and a client secret give
    ["Bearer "] and the access token of [getAccessToken], whose failure
    is the failure of the call; else an access token and a token type give
    [token_type access_token]; else a string is the header; else a
    callback is called and its value is the header; and otherwise the
    call throws, having sent nothing.  So does a [fetch] with
    [withAuth: true] on an instance without auth. *)
Theorem getAuthorizationHeader_dispatch {platform : Platform}
    (auth : option NextDrupalAuth.t) (this : Client.t) (w : World.t) :
  let fields := NextDrupalAuth.fields_of auth in
  let run := getAuthorizationHeader auth this w in
  (forall u p,
      NextDrupalAuth.username fields = Some u ->
      NextDrupalAuth.password fields = Some p ->
      outcome run = Ok ("Basic " ++ Base64.encode (u ++ ":" ++ p))
      /\ client_after run = this
      /\ requests_after run = World.requests w)
  /\ (isBasicAuth auth = false ->
      forall id secret,
        NextDrupalAuth.clientId fields = Some id ->
        NextDrupalAuth.clientSecret fields = Some secret ->
        let flow := getAccessToken (Some fields) this w in
        outcome run
        = match outcome flow with
          | Ok token => Ok ("Bearer " ++ AccessToken.access_token token)
          | Throw e => Throw e
          end
        /\ client_after run = client_after flow
        /\ requests_after run = requests_after flow)
  /\ (isBasicAuth auth = false -> isClientIdSecretAuth auth = false ->
      forall token type,
        NextDrupalAuth.access_token fields = Some token ->
        NextDrupalAuth.token_type fields = Some type ->
        outcome run = Ok (type ++ " " ++ token)
        /\ client_after run = this
        /\ requests_after run = World.requests w)
  /\ (forall value,
        auth = Some (NextDrupalAuth.Header value) ->
        outcome run = Ok value
        /\ client_after run = this
        /\ requests_after run = World.requests w)
  /\ (forall produce,
        auth = Some (NextDrupalAuth.Callback produce) ->
        outcome run = Ok (produce tt)
        /\ client_after run = this
        /\ requests_after run = World.requests w)
  /\ (isBasicAuth auth = false -> isClientIdSecretAuth auth = false ->
      isAccessTokenAuth auth = false ->
      (forall value, auth <> Some (NextDrupalAuth.Header value)) ->
      (forall produce, auth <> Some (NextDrupalAuth.Callback produce)) ->
      outcome run = Throw (Error auth_not_configured)
      /\ client_after run = this
      /\ requests_after run = World.requests w)
  /\ (forall input init,
        Client._auth this = None ->
        let call :=
          fetch input (mkFetchOptions (Some (WithAuthBool true)) init) this w in
        outcome call = Throw (Error auth_not_configured)
        /\ requests_after call = World.requests w)
  /\ outcome (getAuthorizationHeader
                (Some (NextDrupalAuth.Object (basic_credentials "a" "b")))
                this w)
     = Ok "Basic YTpi".
Proof.
  cbv zeta.
  unfold getAuthorizationHeader, getAuthorizationHeader_with, isBasicAuth,
    isClientIdSecretAuth, isAccessTokenAuth.
  repeat match goal with |- _ /\ _ => split end.
  - intros u p Eu Ep. rewrite Eu, Ep. simpl.
    unfold bind, debug, ret, outcome, client_after, requests_after, world_after.
    destruct (Client.isDebugEnabled this); auto.
  - intros Hbasic id secret Eid Esecret. rewrite Hbasic, Eid, Esecret. simpl.
    unfold bind, debug, ret, outcome, client_after, requests_after, world_after.
    destruct (getAccessToken (Some (NextDrupalAuth.fields_of auth)) this w)
      as [[[token | e] this1] w1]; simpl; [| auto].
    destruct (Client.isDebugEnabled this1); auto.
  - intros Hbasic Hclient token type Etoken Etype.
    rewrite Hbasic, Hclient, Etoken, Etype. simpl.
    unfold bind, debug, ret, outcome, client_after, requests_after, world_after.
    destruct (Client.isDebugEnabled this); auto.
  - intros value ->. simpl.
    unfold bind, debug, ret, outcome, client_after, requests_after, world_after.
    destruct (Client.isDebugEnabled this); auto.
  - intros produce ->. simpl.
    unfold bind, debug, ret, outcome, client_after, requests_after, world_after.
    destruct (Client.isDebugEnabled this); auto.
  - intros Hbasic Hclient Htoken Hheader Hcallback.
    rewrite Hbasic, Hclient, Htoken.
    destruct auth as [[f | value | produce] |];
      [ | exfalso; exact (Hheader value eq_refl)
        | exfalso; exact (Hcallback produce eq_refl) | ];
      unfold throw, outcome, client_after, requests_after, world_after;
      auto.
  - intros input init Hauth.
    rewrite RunFacts.fetch_run.
    unfold authorization_stage, auth_for, getAuthorizationHeader,
      getAuthorizationHeader_with. simpl.
    unfold bind, get_this. rewrite Hauth. simpl.
    unfold throw, outcome, requests_after, world_after. auto.
  - simpl.
    unfold bind, debug, ret, outcome.
    destruct (Client.isDebugEnabled this); reflexivity.
Qed.

Lemma getAuthorizationHeader_dispatch_witness :
  let this := client_with None in
  let w := world_with granting_server in
  outcome (getAuthorizationHeader (platform := plain_platform)
             (Some (NextDrupalAuth.Object (basic_credentials "admin" "s3cret")))
             this w)
  = Ok "Basic YWRtaW46czNjcmV0"
  /\ outcome (getAuthorizationHeader (platform := plain_platform)
                (Some (NextDrupalAuth.Object
                         (client_credentials "id" "secret" None)))
                this w)
     = Ok "Bearer token-0".
Proof.
  cbv zeta.
  pose proof (getAuthorizationHeader_dispatch (platform := plain_platform)
                (Some (NextDrupalAuth.Object (basic_credentials "admin" "s3cret")))
                (client_with None) (world_with granting_server))
    as [Hbasic _].
  pose proof (getAuthorizationHeader_dispatch (platform := plain_platform)
                (Some (NextDrupalAuth.Object
                         (client_credentials "id" "secret" None)))
                (client_with None) (world_with granting_server))
    as [_ [Hbearer _]].
  split.
  - destruct (Hbasic "admin" "s3cret" eq_refl eq_refl) as [E _]. exact E.
  - destruct (Hbearer eq_refl "id" "secret" eq_refl eq_refl) as [E _].
    exact E.
Defined.

(* ================================================================== *)
(** * The request that [fetch] sends *)





(* ================================================================== *)
(** * Errors of a response *)

(** C4, as amended.  [throwIfJsonErrors] throws exactly when
    [response.ok] is false.  Under a content type of JSON or of JSON:API,
    a body that does not parse makes it throw the error of
    [response.json()].  Otherwise it throws a [JsonApiErrors] with the
    prefix, the status and a detail: the message of the body, when the
    content type is [application/json] and the message is truthy; the
    errors of the body, when the content type is
    [application/vnd.api+json] and they are a non-empty list; the status
    text when the content type is another, when the message is absent or
    falsy, or when the errors have no truthy length.  The refusal with
    status 422 and one error titled Invalid gives that list and 422. *)
Theorem throwIfJsonErrors_detail
    (response : Response.t) (messagePrefix : string) :
  let type := Headers.get (Response.headers response) "content-type" in
  let status_text_error :=
    Throw (JsonApiErrors (JStr (Response.statusText response))
             (Response.status response) messagePrefix) in
  (Response.ok response = true ->
   throwIfJsonErrors response messagePrefix = Ok tt)
  /\ (Response.ok response = false ->
      (exists e, throwIfJsonErrors response messagePrefix = Throw e)
      /\ (forall error message,
            type = Some "application/json" ->
            Response.body response = BodyJson error ->
            get_prop (Some error) "message" = Some message ->
            Json.is_truthy (Some message) = true ->
            throwIfJsonErrors response messagePrefix
            = Throw (JsonApiErrors message (Response.status response)
                       messagePrefix))
      /\ (forall error first others,
            type = Some "application/vnd.api+json" ->
            Response.body response = BodyJson error ->
            get_prop (Some error) "errors" = Some (JArr (first :: others)) ->
            throwIfJsonErrors response messagePrefix
            = Throw (JsonApiErrors (JArr (first :: others))
                       (Response.status response) messagePrefix))
      /\ (forall why,
            type = Some "application/json"
            \/ type = Some "application/vnd.api+json" ->
            Response.body response = BodyMalformed why ->
            throwIfJsonErrors response messagePrefix = Throw (SyntaxError why))
      /\ (type <> Some "application/json" ->
          type <> Some "application/vnd.api+json" ->
          throwIfJsonErrors response messagePrefix = status_text_error)
      /\ (forall error,
            type = Some "application/json" ->
            Response.body response = BodyJson error ->
            Json.is_truthy (get_prop (Some error) "message") = false ->
            throwIfJsonErrors response messagePrefix = status_text_error)
      /\ (forall error,
            type = Some "application/vnd.api+json" ->
            Response.body response = BodyJson error ->
            Json.is_truthy
              (get_prop (get_prop (Some error) "errors") "length") = false ->
            throwIfJsonErrors response messagePrefix = status_text_error))
  /\ throwIfJsonErrors unprocessable_response messagePrefix
     = Throw (JsonApiErrors (JArr [JObj [("title", JStr "Invalid")]]) 422
                messagePrefix).
Proof.
  cbv zeta. unfold throwIfJsonErrors, getErrorsFromResponse, Response.json.
  split; [intros ->; reflexivity |]. split; [| reflexivity].
  intros ->. simpl negb. cbv iota.
  set (type := Headers.get (Response.headers response) "content-type").
  repeat match goal with |- _ /\ _ => split end.
  - destruct (eq_opt type (Some "application/json")).
    + destruct (Response.body response) as [error | why]; [| eauto].
      destruct (get_prop (Some error) "message") as [message |]; [| eauto].
      destruct (Json.is_truthy (Some message)); eauto.
    + destruct (eq_opt type (Some "application/vnd.api+json")); [| eauto].
      destruct (Response.body response) as [error | why]; [| eauto].
      destruct (Json.is_truthy _); [| eauto].
      destruct (get_prop (Some error) "errors"); eauto.
  - intros error message -> -> -> ->. reflexivity.
  - intros error first others -> -> ->. reflexivity.
  - intros why [-> | ->] ->; reflexivity.
  - intros H1 H2.
    destruct (eq_opt type (Some "application/json")) eqn:E1;
      [apply eq_opt_true in E1; contradiction |].
    destruct (eq_opt type (Some "application/vnd.api+json")) eqn:E2;
      [apply eq_opt_true in E2; contradiction |].
    reflexivity.
  - intros error -> -> Hfalsy.
    change (eq_opt (Some "application/json") (Some "application/json"))
      with true. cbv iota.
    destruct (get_prop (Some error) "message") as [message |]; [| reflexivity].
    rewrite Hfalsy. reflexivity.
  - intros error -> -> Hfalsy.
    change (eq_opt (Some "application/vnd.api+json") (Some "application/json"))
      with false.
    change (eq_opt (Some "application/vnd.api+json")
              (Some "application/vnd.api+json")) with true.
    cbv iota. rewrite Hfalsy. reflexivity.
Qed.

Lemma throwIfJsonErrors_detail_witness :
  throwIfJsonErrors garbled_response "Failed: "
  = Throw (SyntaxError "Unexpected token < in JSON at position 0")
  /\ throwIfJsonErrors empty_message_response
       "Failed: "
     = Throw (JsonApiErrors (JStr "Internal Server Error") 500 "Failed: ")
  /\ throwIfJsonErrors (token_response "abc")
       "Failed: " = Ok tt.
Proof.
  pose proof (throwIfJsonErrors_detail
                garbled_response "Failed: ") as [_ [Hgarbled _]].
  pose proof (throwIfJsonErrors_detail
                empty_message_response "Failed: ") as [_ [Hempty _]].
  pose proof (throwIfJsonErrors_detail
                (token_response "abc") "Failed: ") as [Hok _].
  destruct (Hgarbled eq_refl) as (_ & _ & _ & Hparse & _).
  destruct (Hempty eq_refl) as (_ & _ & _ & _ & _ & Hmessage & _).
  split; [| split].
  - apply Hparse; [left; reflexivity | reflexivity].
  - apply (Hmessage (JObj [("message", JStr "")])); reflexivity.
  - apply Hok; reflexivity.
Defined.

(** C4 as stated fails.  A refusal labelled as JSON whose body does not
    parse makes [throwIfJsonErrors] throw the parse error, not an error
    whose detail is the status text; and a JSON body whose message is the
    empty string gives the status text, not that message. *)
Lemma throwIfJsonErrors_detail_counterexample :
  (Response.ok garbled_response = false
   /\ throwIfJsonErrors garbled_response "Failed: "
      <> Throw (JsonApiErrors (stated_detail garbled_response)
                  (Response.status garbled_response) "Failed: "))
  /\ (Response.ok empty_message_response = false
      /\ throwIfJsonErrors empty_message_response
           "Failed: "
         <> Throw (JsonApiErrors (stated_detail empty_message_response)
                     (Response.status empty_message_response) "Failed: ")).
Proof.
  split; (split; [reflexivity | discriminate]).
Qed.

(* ================================================================== *)
(** * The validation of a draft URL *)




(* ================================================================== *)
(** * URLs *)

(** C5.  On the base URL [https://example.com], [buildUrl] of ["/foo"]
    with [{bar: "baz"}] is [https://example.com/foo?bar=baz]; and
    [buildUrl] of ["/jsonapi/node/article"] with the key
    ["fields[node--article]"] has the query string
    [fields%5Bnode--article%5D=title%2Cpath].  The brackets of the key
    are kept, percent-encoded, and so is the nesting of an object, which
    gives the same query string. *)
Theorem buildUrl_examples (this : Client.t) (w : World.t) :
  Client.baseUrl this = "https://example.com" ->
  (exists url,
      outcome (buildUrl (platform := plain_platform) "/foo"
                 (Some (ParamsRecord [("bar", Qs.QString "baz")])) this w)
      = Ok url
      /\ Url.toString url = "https://example.com/foo?bar=baz")
  /\ (exists url,
        outcome (buildUrl (platform := plain_platform) "/jsonapi/node/article"
                   (Some (ParamsRecord
                            [("fields[node--article]", Qs.QString "title,path")]))
                   this w)
        = Ok url
        /\ Url.query url = Some "fields%5Bnode--article%5D=title%2Cpath"
        /\ Url.search url = "?fields%5Bnode--article%5D=title%2Cpath"
        /\ Url.toString url
           = "https://example.com/jsonapi/node/article?fields%5Bnode--article%5D=title%2Cpath")
  /\ (exists url,
        outcome (buildUrl (platform := plain_platform) "/jsonapi/node/article"
                   (Some (ParamsJsonApi
                            [("fields",
                              Qs.QObject
                                [("node--article", Qs.QString "title,path")])]))
                   this w)
        = Ok url
        /\ Url.query url = Some "fields%5Bnode--article%5D=title%2Cpath").
Proof.
  intros Hbase. unfold buildUrl, bind, get_this, lift, outcome.
  rewrite Hbase. simpl fst.
  repeat split; eexists; (split; [reflexivity |]); repeat split; reflexivity.
Qed.

Lemma buildUrl_examples_witness :
  exists url,
    outcome (buildUrl (platform := plain_platform) "/foo"
               (Some (ParamsRecord [("bar", Qs.QString "baz")]))
               (client_with None) (world_with granting_server))
    = Ok url
    /\ Url.toString url = "https://example.com/foo?bar=baz".
Proof.
  destruct (buildUrl_examples (client_with None) (world_with granting_server)
              eq_refl) as [Hfoo _].
  exact Hfoo.
Defined.

(* ================================================================== *)
(** * The cached token *)

(** C2, as amended.  On an instance without the [accessToken] option,
    for a call whose credentials (its own or those of the instance) have
    a client id and a client secret and whose token URL parses: when a
    token is cached, the time is before its expiry, and the cached
    request has the client id, the client secret and the scope of this
    one, [getAccessToken] returns the cached token, sends nothing and
    leaves the instance as it was; when one of these fails, it sends
    exactly one request, the token request, whatever the cache holds.  So
    the cache is used exactly when the three conditions hold.  After a
    token request the cache plays no part: a rejection is thrown and a
    response that is not [ok] makes the call throw, both leaving the
    instance as it was, and the access token of an [ok] response is
    returned and stored with the request it answers. *)
Theorem getAccessToken_cache {platform : Platform}
    (clientIdSecret : option NextDrupalAuth.Fields)
    (this : Client.t) (w : World.t)
    (auth : NextDrupalAuth.Fields) (url : Url.URL) :
  Client.accessToken this = None ->
  current_request this clientIdSecret = Some auth ->
  new_URL (text_of (NextDrupalAuth.url auth)) (Client.baseUrl this) = Some url ->
  let now := World.clock w (World.clock_reads w) in
  let run := getAccessToken clientIdSecret this w in
  (cache_usable this now auth = true ->
   exists token,
     Client._token this = Some token
     /\ outcome run = Ok token
     /\ client_after run = this
     /\ requests_after run = World.requests w)
  /\ (cache_usable this now auth = false ->
      let request := token_request this auth url in
      requests_after run = (World.requests w ++ [request])%list
      /\ match transport_of this w (World.requests w) request with
         | Rejects reason =>
             outcome run = Throw (TransportError reason)
             /\ client_after run = this
         | Resolves response =>
             (Response.ok response = false ->
              (exists e, outcome run = Throw e) /\ client_after run = this)
             /\ (forall body token,
                   Response.ok response = true ->
                   Response.json response = Ok body ->
                   AccessToken.of_json body = Some token ->
                   outcome run = Ok token
                   /\ Client._token (client_after run) = Some token
                   /\ Client._tokenRequestDetails (client_after run)
                      = Some auth
                   /\ exists stored_at,
                        Client._tokenExpiresOn (client_after run)
                        = Some (stored_at
                                + AccessToken.expires_in token * 1000)%Z)
         end)
  /\ (cache_usable this now auth = true
      <-> requests_after run = World.requests w).
Proof.
  intros Hnone Hauth Hurl. cbv zeta.
  rewrite (RunFacts.getAccessToken_run _ _ _ _ _ Hnone Hauth Hurl). cbv zeta.
  pose proof (RunFacts.current_request_credentials _ _ _ Hauth) as Hcred.
  pose proof (RunFacts.request_new_token_run auth url this
                (if is_some (Client._token this) then tick w else w) Hcred)
    as Hnew.
  cbv zeta in Hnew.
  rewrite RunFacts.requests_tick, RunFacts.transport_tick in Hnew.
  destruct Hnew as [Hrequests Hanswer].
  destruct (cache_usable this (World.clock w (World.clock_reads w)) auth)
    eqn:Husable.
  - assert (Htoken : exists token, Client._token this = Some token).
    { unfold cache_usable in Husable.
      destruct (Client._token this) as [token |]; [eauto | discriminate]. }
    destruct Htoken as [token Htoken]. rewrite Htoken.
    assert (Hhit :
              outcome ((debug "Using existing access token." ;;; ret token)
                         this (tick w)) = Ok token
              /\ client_after ((debug "Using existing access token." ;;; ret token)
                                 this (tick w)) = this
              /\ requests_after ((debug "Using existing access token." ;;; ret token)
                                   this (tick w)) = World.requests w).
    { unfold bind, debug, ret, outcome, client_after, requests_after,
        world_after. simpl.
      destruct (Client.isDebugEnabled this); repeat split. }
    simpl is_some. cbv iota.
    destruct Hhit as (H1 & H2 & H3).
    split; [| split].
    + intros _. exists token. auto.
    + discriminate.
    + split; auto.
  - split; [| split].
    + discriminate.
    + intros _. split; [exact Hrequests |].
      unfold token_answer in Hanswer.
      destruct (transport_of this w (World.requests w)
                  (token_request this auth url)) as [response | reason].
      2:{ injection Hanswer as -> ->. split; reflexivity. }
      split.
      * intros Hrefused.
        destruct (RunFacts.throwIfJsonErrors_refused response
                    "Error while fetching new access token: " Hrefused)
          as [e He].
        rewrite He in Hanswer. injection Hanswer as -> ->.
        split; [exists e |]; reflexivity.
      * intros body token Hok Hjson Hbody.
        unfold throwIfJsonErrors in Hanswer.
        rewrite Hok, Hjson, Hbody in Hanswer. simpl in Hanswer.
        injection Hanswer as -> ->.
        split; [reflexivity |]. split; [reflexivity |].
        split; [reflexivity |]. eexists. reflexivity.
    + split; [discriminate |].
      rewrite Hrequests. intros E.
      exfalso. exact (RunFacts.snoc_longer _ _ E).
Qed.

Lemma getAccessToken_cache_witness :
  let again scope :=
    getAccessToken (platform := plain_platform)
      (Some (client_credentials "id" "secret" (Some scope)))
      client_holding_token world_after_grant in
  (outcome (again "read") = outcome first_grant
   /\ requests_after (again "read") = World.requests world_after_grant)
  /\ (exists request,
         requests_after (again "write")
         = (World.requests world_after_grant ++ [request])%list).
Proof.
  cbv zeta.
  pose proof (getAccessToken_cache (platform := plain_platform)
                (Some (client_credentials "id" "secret" (Some "read")))
                client_holding_token world_after_grant
                (NextDrupalAuth.mkFields None None (Some "id") (Some "secret")
                   (NextDrupalAuth.Present "/oauth/token") (Some "read") None None)
                (Url.mkURL "https" "example.com" "/oauth/token" None None)
                eq_refl eq_refl eq_refl) as [Hhit _].
  pose proof (getAccessToken_cache (platform := plain_platform)
                (Some (client_credentials "id" "secret" (Some "write")))
                client_holding_token world_after_grant
                (NextDrupalAuth.mkFields None None (Some "id") (Some "secret")
                   (NextDrupalAuth.Present "/oauth/token") (Some "write") None None)
                (Url.mkURL "https" "example.com" "/oauth/token" None None)
                eq_refl eq_refl eq_refl) as [_ [Hmiss _]].
  split.
  - destruct (Hhit eq_refl) as (token & Htoken & Hout & _ & Hreq).
    split; [| exact Hreq].
    rewrite Hout. injection Htoken as <-. reflexivity.
  - destruct (Hmiss eq_refl) as [Hreq _]. eexists. exact Hreq.
Defined.

(** C2 as stated fails, in both directions.  The instance that holds
    the token of the first grant, asked again at a time before its expiry
    with the same client id, client secret and scope but a token URL that
    does not parse, does not return the cached token: it throws the error
    of the URL.  And an instance without auth and without a cached token,
    asked without credentials, sends no token request: it throws. *)
Lemma getAccessToken_cache_counterexample :
  let asked :=
    NextDrupalAuth.mkFields None None (Some "id") (Some "secret")
      (NextDrupalAuth.Present "http://") (Some "read") None None in
  let again :=
    getAccessToken (platform := plain_platform) (Some asked)
      client_holding_token world_after_grant in
  let alone :=
    getAccessToken (platform := plain_platform) None
      (client_with None) (world_with granting_server) in
  (Client.accessToken client_holding_token = None
   /\ cache_usable client_holding_token
        (World.clock world_after_grant (World.clock_reads world_after_grant))
        asked = true
   /\ outcome again = Throw (TypeError "Invalid URL")
   /\ outcome again <> outcome first_grant)
  /\ (Client.accessToken (client_with None) = None
      /\ Client._token (client_with None) = None
      /\ outcome alone = Throw (Error auth_not_configured)
      /\ requests_after alone = World.requests (world_with granting_server)).
Proof.
  cbv zeta. split.
  - split; [reflexivity |]. split; [vm_compute; reflexivity |].
    split; [vm_compute; reflexivity |].
    vm_compute. discriminate.
  - repeat split.
Qed.

(** C3, as amended.  When the transport answers the token request of a
    call with a response that is not [ok], [getAccessToken] throws what
    [throwIfJsonErrors] throws for that response: the [JsonApiErrors]
    made of the detail of the response, its status and the prefix of the
    token request, or, where the response is labelled as JSON or as
    JSON:API and its body does not parse, the error of the parse.  The
    instance, the cached token, its expiry and the stored request among
    it, is then as it was before the call.  More generally a call leaves
    the instance as it was unless its token request was answered by an
    [ok] response. *)
Theorem getAccessToken_failure_keeps_cache {platform : Platform}
    (clientIdSecret : option NextDrupalAuth.Fields)
    (this : Client.t) (w : World.t) :
  let run := getAccessToken clientIdSecret this w in
  (forall request response,
      requests_after run = (World.requests w ++ [request])%list ->
      transport_of this w (World.requests w) request = Resolves response ->
      Response.ok response = false ->
      client_after run = this
      /\ (forall errors,
            getErrorsFromResponse response = Ok errors ->
            outcome run
            = Throw (JsonApiErrors errors (Response.status response)
                       "Error while fetching new access token: "))
      /\ (forall e,
            getErrorsFromResponse response = Throw e ->
            outcome run = Throw e
            /\ (exists why,
                   Response.body response = BodyMalformed why
                   /\ e = SyntaxError why)
            /\ (Headers.get (Response.headers response) "content-type"
                = Some "application/json"
                \/ Headers.get (Response.headers response) "content-type"
                   = Some "application/vnd.api+json")))
  /\ (client_after run = this
      \/ exists request response,
           requests_after run = (World.requests w ++ [request])%list
           /\ transport_of this w (World.requests w) request = Resolves response
           /\ Response.ok response = true).
Proof.
  cbv zeta.
  destruct (RunFacts.getAccessToken_summary clientIdSecret this w)
    as [[Hthis Hnone] | (auth & url & stored_at & Hrequests & Hanswer)].
  - split; [| left; exact Hthis].
    intros request response Hreq _ _. rewrite Hnone in Hreq.
    exfalso. exact (RunFacts.snoc_longer _ _ (eq_sym Hreq)).
  - cbv zeta in Hrequests, Hanswer. split.
    + intros request response Hreq Hanswered Hrefused.
      rewrite Hrequests in Hreq. apply RunFacts.snoc_injective in Hreq.
      subst request. rewrite Hanswered in Hanswer.
      unfold token_answer, throwIfJsonErrors in Hanswer.
      rewrite Hrefused in Hanswer. simpl negb in Hanswer. cbv iota in Hanswer.
      split; [| split].
      * destruct (getErrorsFromResponse response);
          injection Hanswer as _ Hclient; exact Hclient.
      * intros errors Herrors. rewrite Herrors in Hanswer.
        injection Hanswer as Hout _. exact Hout.
      * intros e He. rewrite He in Hanswer.
        injection Hanswer as Hout _. split; [exact Hout |].
        revert He. unfold getErrorsFromResponse, Response.json.
        destruct (eq_opt (Headers.get (Response.headers response)
                            "content-type") (Some "application/json"))
          eqn:Hjson.
        { apply eq_opt_true in Hjson.
          destruct (Response.body response) as [value | why].
          - destruct (get_prop (Some value) "message") as [message |];
              [destruct (Json.is_truthy (Some message)) |]; discriminate.
          - intros [= <-]. split; [eauto | left; exact Hjson]. }
        destruct (eq_opt (Headers.get (Response.headers response)
                            "content-type") (Some "application/vnd.api+json"))
          eqn:Hapi; [| discriminate].
        apply eq_opt_true in Hapi.
        destruct (Response.body response) as [value | why].
        -- destruct (Json.is_truthy _);
             [destruct (get_prop (Some value) "errors") |]; discriminate.
        -- intros [= <-]. split; [eauto | right; exact Hapi].
    + unfold token_answer in Hanswer.
      destruct (transport_of this w (World.requests w)
                  (token_request this auth url)) as [response | message] eqn:Ht.
      2:{ left. congruence. }
      destruct (throwIfJsonErrors response _) as [[] | e] eqn:Hcheck.
      2:{ left. congruence. }
      destruct (Response.json response) as [body | e].
      2:{ left. congruence. }
      destruct (AccessToken.of_json body) as [token |].
      2:{ left. congruence. }
      right. exists (token_request this auth url), response.
      repeat split; try assumption.
      exact (RunFacts.throwIfJsonErrors_ok _ _ Hcheck).
Qed.

Lemma getAccessToken_failure_keeps_cache_witness :
  outcome first_refusal
  = Throw (JsonApiErrors (JArr [JObj [("title", JStr "Invalid")]]) 422
             "Error while fetching new access token: ")
  /\ client_after first_refusal = client_with None.
Proof.
  pose proof (getAccessToken_failure_keeps_cache (platform := plain_platform)
                (Some (client_credentials "id" "secret" (Some "read")))
                (client_with None) (world_with refusing_server))
    as [Hrefused _].
  destruct (Hrefused
              (token_request (client_with None)
                 (NextDrupalAuth.mkFields None None (Some "id") (Some "secret")
                    (NextDrupalAuth.Present "/oauth/token") (Some "read") None None)
                 (Url.mkURL "https" "example.com" "/oauth/token" None None))
              unprocessable_response eq_refl eq_refl eq_refl)
    as (Hclient & Herrors & _).
  split; [| exact Hclient].
  exact (Herrors (JArr [JObj [("title", JStr "Invalid")]]) eq_refl).
Defined.

(** C3 as stated fails.  A token endpoint that answers with a status
    of 502 and a body that is labelled as JSON and does not parse makes
    [getAccessToken] throw the error of the parse as it is, not an error
    translated from the response. *)
Lemma getAccessToken_failure_keeps_cache_counterexample :
  let this := client_with None in
  let w := world_with garbling_server in
  let asked := client_credentials "id" "secret" (Some "read") in
  let run := getAccessToken (platform := plain_platform) (Some asked) this w in
  Response.ok garbled_response = false
  /\ (exists request,
         requests_after run = (World.requests w ++ [request])%list
         /\ transport_of this w (World.requests w) request
            = Resolves garbled_response)
  /\ outcome run
     = Throw (SyntaxError "Unexpected token < in JSON at position 0")
  /\ (forall errors status prefix,
         outcome run <> Throw (JsonApiErrors errors status prefix)).
Proof.
  cbv zeta. split; [reflexivity |]. split; [| split].
  - eexists. split; reflexivity.
  - vm_compute. reflexivity.
  - intros errors status prefix. vm_compute. discriminate.
Qed.

(* ================================================================== *)
(** * Further properties: paths *)

(** X1.  Without a path prefix, the path of a non-empty list of non-empty
    parts is a slash, then the parts, each encoded on its own and joined
    by slashes, under the locale prefix; no encoded part holds a slash, so
    a slash inside a part never makes a new segment. *)
Theorem constructPathFromSegment_encodes_each_part
    (frontPage : string) (first : string) (others : list string)
    (options : PathOptions) :
  pathPrefix options = None ->
  Forall (fun part => part <> "") (first :: others) ->
  constructPathFromSegment frontPage (SegArray (first :: others)) options
  = addLocalePrefix
      ("/" ++ join "/" (map encodeURIComponent (first :: others))) options
  /\ Forall (fun part => slash_free (encodeURIComponent part) = true)
       (first :: others).
Proof.
  intros Hprefix Hparts. split.
  - pose proof (SlashFacts.joined_parts_shape _ Hparts) as Hj.
    cbv zeta in Hj. destruct Hj as (J1 & J2 & J3).
    unfold constructPathFromSegment, normalize_pathPrefix.
    rewrite Hprefix. simpl segment_parts.
    set (joined := join "/" (map encodeURIComponent (first :: others))) in *.
    assert (Htruthy : truthy joined = true)
      by (apply SlashFacts.truthy_true; exact J1).
    change (truthy "") with false. cbv iota.
    rewrite Htruthy. change (negb true && negb (truthy "")) with false.
    cbv iota. rewrite Htruthy, J2. simpl negb. simpl andb. cbv iota.
    rewrite SlashFacts.endsWith_slash_app by exact J1. rewrite J3.
    reflexivity.
  - apply Forall_forall. intros part _.
    apply SlashFacts.encodeURIComponent_slash_free.
Qed.

Lemma constructPathFromSegment_encodes_each_part_witness :
  constructPathFromSegment "/home" (SegArray ["docs"; "a/b"; "c d"])
    (mkPathOptions (Some "fr") (Some "en") None)
  = "/fr/docs/a%2Fb/c%20d".
Proof.
  destruct (constructPathFromSegment_encodes_each_part "/home" "docs"
              ["a/b"; "c d"] (mkPathOptions (Some "fr") (Some "en") None)
              eq_refl) as [Hpath _].
  - repeat constructor; discriminate.
  - exact Hpath.
Defined.

(** X2.  [addLocalePrefix] does its work once: applied to its own result
    it changes nothing, so a locale is never put in front twice. *)
Theorem addLocalePrefix_idempotent (path : string) (options : PathOptions) :
  addLocalePrefix (addLocalePrefix path options) options
  = addLocalePrefix path options.
Proof.
  unfold addLocalePrefix.
  set (path' := if negb (startsWith "/" path) then "/" ++ path else path).
  assert (Hslash : startsWith "/" path' = true).
  { subst path'. destruct (startsWith "/" path) eqn:E; [exact E | reflexivity]. }
  destruct (truthy_opt (locale options)
            && negb (startsWith (slash_locale (locale options)) path')
            && negb (eq_opt (locale options) (defaultLocale options))) eqn:Hadd.
  - assert (Hstart :
              startsWith (slash_locale (locale options))
                (slash_locale (locale options) ++ path') = true).
    { generalize (slash_locale (locale options)). intros p.
      induction p as [| c p IH]; [reflexivity |].
      simpl. rewrite Ascii.eqb_refl. exact IH. }
    assert (Hfirst :
              startsWith "/" (slash_locale (locale options) ++ path') = true).
    { destruct (locale options); reflexivity. }
    rewrite Hfirst. simpl negb. cbv iota.
    rewrite Hstart. simpl negb. rewrite andb_false_r. reflexivity.
  - change ("" ++ path') with path'. rewrite Hslash. simpl negb. cbv iota.
    rewrite Hadd. reflexivity.
Qed.

(* ================================================================== *)
(** * Further properties: the auth of the instance and the constructor *)

Ltac split_auth_fields f :=
  destruct f as [[user |] [pass |] [id |] [secret |] [| | link] scope_
                   [token |] [kind |]].

Ltac split_truthy :=
  repeat match goal with
         | |- context [truthy ?s] => destruct (truthy s) eqn:?
         end.

Ltac recall_truthy :=
  repeat match goal with
         | H : truthy ?s = _ |- context [truthy ?s] => rewrite H
         end.

(** X3.  An auth object that the setter of [auth] accepts has one of the
    three pairs whole and non-empty, so [getAuthorizationHeader] finds a
    rule for it; an object with half a pair is refused. *)
Theorem checked_auth_accepts_whole_pairs
    (f : NextDrupalAuth.Fields) (stored : option NextDrupalAuth.t) :
  checked_auth (Some (NextDrupalAuth.Object f)) = Ok stored ->
  exists g,
    stored = Some (NextDrupalAuth.Object g)
    /\ (truthy_opt (NextDrupalAuth.username g)
        && truthy_opt (NextDrupalAuth.password g)
        || truthy_opt (NextDrupalAuth.access_token g)
           && truthy_opt (NextDrupalAuth.token_type g)
        || truthy_opt (NextDrupalAuth.clientId g)
           && truthy_opt (NextDrupalAuth.clientSecret g)) = true
    /\ (isBasicAuth stored || isClientIdSecretAuth stored
        || isAccessTokenAuth stored) = true.
Proof.
  unfold checked_auth, isBasicAuth, isClientIdSecretAuth, isAccessTokenAuth.
  split_auth_fields f; simpl; split_truthy; simpl; intros E;
    try discriminate E; injection E as <-;
    eexists; (split; [reflexivity |]); simpl;
    recall_truthy; split; reflexivity.
Qed.

Lemma checked_auth_accepts_whole_pairs_witness :
  exists g,
    checked_auth (Some (NextDrupalAuth.Object (client_credentials "id" "s" None)))
    = Ok (Some (NextDrupalAuth.Object g))
    /\ isClientIdSecretAuth (Some (NextDrupalAuth.Object g)) = true.
Proof.
  destruct (checked_auth_accepts_whole_pairs
              (client_credentials "id" "s" None) _ eq_refl)
    as (g & Hstored & _ & _).
  exists g. injection Hstored as <-. split; reflexivity.
Defined.

(** X4.  What the setter of [auth] stores, it accepts again and stores
    unchanged: to assign [this.auth] to itself changes nothing. *)
Theorem checked_auth_idempotent (auth stored : option NextDrupalAuth.t) :
  checked_auth auth = Ok stored -> checked_auth stored = Ok stored.
Proof.
  destruct auth as [[f | value | produce] |];
    try (intros E; injection E as <-; reflexivity).
  unfold checked_auth, isClientIdSecretAuth.
  split_auth_fields f; simpl; split_truthy; simpl; intros E;
    try discriminate E; injection E as <-; simpl;
    recall_truthy; reflexivity.
Qed.

Lemma checked_auth_idempotent_witness :
  checked_auth
    (Some (NextDrupalAuth.Object
             (NextDrupalAuth.over_default_url DEFAULT_AUTH_URL
                (client_credentials "id" "s" None))))
  = Ok (Some (NextDrupalAuth.Object
                (NextDrupalAuth.over_default_url DEFAULT_AUTH_URL
                   (client_credentials "id" "s" None)))).
Proof.
  exact (checked_auth_idempotent
           (Some (NextDrupalAuth.Object (client_credentials "id" "s" None)))
           _ eq_refl).
Defined.

(** X5.  The setter of [auth] changes nothing of an object but its
    [url], and that only by spreading the object over the default.  An
    object with a client id and a client secret that lacks the property
    [url] is stored with ["/oauth/token"]; one that has the property is
    stored with its own, also when its own is [undefined], and then the
    stored object names no token URL; any other object is stored as it
    is. *)
Theorem checked_auth_token_url (f g : NextDrupalAuth.Fields) :
  checked_auth (Some (NextDrupalAuth.Object f))
  = Ok (Some (NextDrupalAuth.Object g)) ->
  (NextDrupalAuth.username g = NextDrupalAuth.username f
   /\ NextDrupalAuth.password g = NextDrupalAuth.password f
   /\ NextDrupalAuth.clientId g = NextDrupalAuth.clientId f
   /\ NextDrupalAuth.clientSecret g = NextDrupalAuth.clientSecret f
   /\ NextDrupalAuth.scope g = NextDrupalAuth.scope f
   /\ NextDrupalAuth.access_token g = NextDrupalAuth.access_token f
   /\ NextDrupalAuth.token_type g = NextDrupalAuth.token_type f)
  /\ NextDrupalAuth.url_property g
     = match NextDrupalAuth.url_property f with
       | NextDrupalAuth.Absent =>
           if has_client_credentials f
           then NextDrupalAuth.Present DEFAULT_AUTH_URL
           else NextDrupalAuth.Absent
       | own => own
       end
  /\ NextDrupalAuth.url g
     = match NextDrupalAuth.url_property f with
       | NextDrupalAuth.Present own => Some own
       | NextDrupalAuth.Undefined => None
       | NextDrupalAuth.Absent =>
           if has_client_credentials f then Some DEFAULT_AUTH_URL else None
       end.
Proof.
  unfold checked_auth, isClientIdSecretAuth, has_client_credentials.
  split_auth_fields f; simpl; split_truthy; simpl; intros E;
    try discriminate E; injection E as <-; repeat split; reflexivity.
Qed.

Lemma checked_auth_token_url_witness :
  NextDrupalAuth.url
    (NextDrupalAuth.over_default_url DEFAULT_AUTH_URL
       (client_credentials "id" "s" None))
  = Some "/oauth/token"
  /\ NextDrupalAuth.url
       (NextDrupalAuth.mkFields None None (Some "id") (Some "s")
          NextDrupalAuth.Undefined None None None)
     = None.
Proof.
  destruct (checked_auth_token_url (client_credentials "id" "s" None)
              (NextDrupalAuth.over_default_url DEFAULT_AUTH_URL
                 (client_credentials "id" "s" None)) eq_refl)
    as (_ & _ & Hdefault).
  destruct (checked_auth_token_url
              (NextDrupalAuth.mkFields None None (Some "id") (Some "s")
                 NextDrupalAuth.Undefined None None None)
              (NextDrupalAuth.mkFields None None (Some "id") (Some "s")
                 NextDrupalAuth.Undefined None None None) eq_refl)
    as (_ & _ & Hundefined).
  split; [exact Hdefault | exact Hundefined].
Defined.

Lemma normalized_apiPrefix_shape (prefix : string) :
  normalized_apiPrefix prefix = ""
  \/ startsWith "/" (normalized_apiPrefix prefix) = true.
Proof.
  unfold normalized_apiPrefix.
  destruct (String.eqb prefix "") eqn:Eempty.
  - left. apply String.eqb_eq. exact Eempty.
  - right. destruct (startsWith "/" prefix) eqn:Eslash.
    + exact Eslash.
    + reflexivity.
Qed.

(** X6.  The constructor refuses an empty base URL before it looks at
    anything else, and then an auth that the setter refuses, and leaves
    the world as it was.  Whenever it returns an instance, the instance
    has the base URL given and the auth as the setter checks it, an API
    prefix that is empty or begins with a slash, and no cached token; and
    nothing was sent. *)
Theorem new_NextDrupalBase_result (baseUrl : string)
    (options : NextDrupalBaseOptions.t) (w : World.t) :
  let made := new_NextDrupalBase baseUrl options w in
  (baseUrl = "" ->
   made = (Throw (Error "The 'baseUrl' param is required."), w))
  /\ (baseUrl <> "" ->
      forall e,
        checked_auth (NextDrupalBaseOptions.auth options) = Throw e ->
        made = (Throw e, w))
  /\ (forall this,
        fst made = Ok this ->
        baseUrl <> ""
        /\ Client.baseUrl this = baseUrl
        /\ checked_auth (NextDrupalBaseOptions.auth options)
           = Ok (Client._auth this)
        /\ (Client._apiPrefix this = ""
            \/ startsWith "/" (Client._apiPrefix this) = true)
        /\ Client._token this = None
        /\ Client._tokenExpiresOn this = None
        /\ Client._tokenRequestDetails this = None
        /\ World.requests (snd made) = World.requests w).
Proof.
  cbv zeta. unfold new_NextDrupalBase. split; [| split].
  - intros ->. reflexivity.
  - intros Hbase e He.
    replace (truthy baseUrl) with true
      by (symmetry; apply SlashFacts.truthy_true; exact Hbase).
    simpl negb. cbv iota. rewrite He. reflexivity.
  - intros this.
    destruct (truthy baseUrl) eqn:Hbase; simpl negb; cbv iota;
      [| discriminate].
    destruct (checked_auth (NextDrupalBaseOptions.auth options))
      as [stored | e]; [| discriminate].
    unfold debug, modify_this.
    assert (Hfilled : baseUrl <> "").
    { intros ->. discriminate Hbase. }
    destruct (match NextDrupalBaseOptions.debug options with
              | Some a => a
              | None => false
              end);
      (intros [= <-]; cbn [Client.baseUrl Client._auth
         Client._apiPrefix Client._token Client._tokenExpiresOn
         Client._tokenRequestDetails snd World.requests];
       repeat split; try apply normalized_apiPrefix_shape; exact Hfilled).
Qed.

Lemma new_NextDrupalBase_result_witness :
  exists this,
    fst (new_NextDrupalBase "https://example.com"
           (NextDrupalBaseOptions.mk None (Some "jsonapi") None None None None
              None None)
           (world_with granting_server)) = Ok this
    /\ Client._apiPrefix this = "/jsonapi"
    /\ Client._token this = None.
Proof.
  eexists. split; [reflexivity |].
  destruct (new_NextDrupalBase_result "https://example.com"
              (NextDrupalBaseOptions.mk None (Some "jsonapi") None None None
                 None None None)
              (world_with granting_server)) as [_ [_ Hmade]].
  destruct (Hmade _ eq_refl) as (_ & _ & _ & _ & Htoken & _).
  split; [reflexivity | exact Htoken].
Defined.

(* ================================================================== *)
(** * Further properties: endpoints *)

Lemma rooted_app (a b : string) :
  a = "" \/ startsWith "/" a = true ->
  b = "" \/ startsWith "/" b = true ->
  (a ++ b)%string = "" \/ startsWith "/" (a ++ b) = true.
Proof.
  intros [-> | Ha] Hb.
  - exact Hb.
  - right. apply SlashFacts.startsWith_app_l. exact Ha.
Qed.

Lemma rooted_path (path : string) :
  let rooted :=
    if truthy path && negb (startsWith "/" path) then ("/" ++ path)%string
    else path in
  rooted = "" \/ startsWith "/" rooted = true.
Proof.
  cbv zeta. destruct path as [| d p]; [left; reflexivity |].
  right. change (truthy (String d p)) with true. rewrite andb_true_l.
  destruct (startsWith "/" (String d p)) eqn:E.
  - exact E.
  - reflexivity.
Qed.

(** X7.  When the API prefix is empty or begins with a slash, the path
    that [buildEndpoint] gives to [buildUrl] is empty or begins with a
    slash, whatever the locale and the path are: a path without a leading
    slash is given one and never resolves against the last segment of the
    base URL.  The endpoint is the text of the URL built from that path,
    and the instance and the world stay as they were. *)
Theorem buildEndpoint_path {platform : Platform}
    (locale path : option string) (searchParams : option EndpointSearchParams)
    (this : Client.t) (w : World.t) :
  Client._apiPrefix this = "" \/ startsWith "/" (Client._apiPrefix this) = true ->
  exists full,
    (full = "" \/ startsWith "/" full = true)
    /\ buildEndpoint locale path searchParams this w
       = (match buildUrl_on (Client.baseUrl this) full searchParams with
          | Ok url => Ok (Url.toString url)
          | Throw e => Throw e
          end, this, w).
Proof.
  intros Hprefix. unfold buildEndpoint, buildUrl, bind, get_this, lift, ret.
  match goal with
  | |- context [buildUrl_on _ ?p _] => exists p
  end.
  split.
  - apply rooted_app; [| apply rooted_app; [exact Hprefix | apply rooted_path]].
    destruct (truthy _); [right; reflexivity | left; reflexivity].
  - destruct (buildUrl_on _ _ _); reflexivity.
Qed.

Lemma buildEndpoint_path_witness :
  exists full,
    (full = "" \/ startsWith "/" full = true)
    /\ buildEndpoint (platform := plain_platform) (Some "fr")
         (Some "node/article") None
         (Client.mk None "https://example.com" None DEFAULT_FRONT_PAGE
            false false "/jsonapi" None (Headers.make DEFAULT_HEADERS)
            None None None)
         (world_with granting_server)
       = (match buildUrl_on (platform := plain_platform)
                  "https://example.com" full None with
          | Ok url => Ok (Url.toString url)
          | Throw e => Throw e
          end,
          Client.mk None "https://example.com" None DEFAULT_FRONT_PAGE
            false false "/jsonapi" None (Headers.make DEFAULT_HEADERS)
            None None None,
          world_with granting_server).
Proof.
  apply (buildEndpoint_path (platform := plain_platform) (Some "fr")
           (Some "node/article") None
           (Client.mk None "https://example.com" None DEFAULT_FRONT_PAGE
              false false "/jsonapi" None (Headers.make DEFAULT_HEADERS)
              None None None)
           (world_with granting_server)).
  right. reflexivity.
Defined.

(* ================================================================== *)
(** * Further properties: the access token *)

(** [getAccessToken], case by case: the token of the options, the two
    errors of the credentials, the error of the token URL, and then the
    cache or a new token. *)
Lemma getAccessToken_cases {platform : Platform}
    (clientIdSecret : option NextDrupalAuth.Fields)
    (this : Client.t) (w : World.t) :
  getAccessToken clientIdSecret this w
  = match Client.accessToken this with
    | Some token => (Ok token, this, w)
    | None =>
        match current_request this clientIdSecret with
        | None =>
            (Throw (Error
                      (if negb (is_some (Client._auth this))
                       then auth_not_configured
                       else "'clientId' and 'clientSecret' required. See https://next-drupal.org/docs/client/auth")),
             this, w)
        | Some auth =>
            match new_URL (text_of (NextDrupalAuth.url auth))
                    (Client.baseUrl this) with
            | None => (Throw (TypeError "Invalid URL"), this, w)
            | Some url =>
                let w1 := if is_some (Client._token this) then tick w else w in
                match cache_usable this (World.clock w (World.clock_reads w))
                        auth,
                      Client._token this with
                | true, Some token =>
                    (debug "Using existing access token." ;;; ret token)
                      this w1
                | _, _ =>
                    request_new_token fetch getAuthorizationHeader auth url
                      this w1
                end
            end
        end
    end.
Proof.
  destruct (Client.accessToken this) as [token |] eqn:Htoken.
  { unfold getAccessToken, getAccessToken_with, bind, get_this.
    rewrite Htoken. reflexivity. }
  destruct (current_request this clientIdSecret) as [auth |] eqn:Hauth.
  2:{ rewrite RunFacts.getAccessToken_unfold. unfold getAccessToken_with.
      unfold bind at 1. unfold get_this at 1. rewrite Htoken.
      unfold bind at 1. rewrite RunFacts.resolve_run, Hauth. reflexivity. }
  destruct (new_URL (text_of (NextDrupalAuth.url auth)) (Client.baseUrl this))
    as [url |] eqn:Hurl.
  2:{ rewrite RunFacts.getAccessToken_unfold. unfold getAccessToken_with.
      unfold bind at 1. unfold get_this at 1. rewrite Htoken.
      unfold bind at 1. rewrite RunFacts.resolve_run, Hauth.
      unfold bind at 1. unfold buildUrl, buildUrl_on.
      unfold bind at 1. unfold get_this at 1. unfold lift. rewrite Hurl.
      reflexivity. }
  exact (RunFacts.getAccessToken_run _ _ _ _ _ Htoken Hauth Hurl).
Qed.

(** The credentials that a call is about are those of the argument
    when it has a client id and a client secret, and else those of the
    instance; there are none exactly when neither has both. *)
Lemma current_request_none (this : Client.t)
    (clientIdSecret : option NextDrupalAuth.Fields) :
  current_request this clientIdSecret = None
  <-> isClientIdSecretAuth (as_auth clientIdSecret) = false
      /\ isClientIdSecretAuth (Client._auth this) = false.
Proof.
  assert (Hinstance : instance_request this = None
                      <-> isClientIdSecretAuth (Client._auth this) = false).
  { unfold instance_request, isClientIdSecretAuth, has_client_credentials.
    destruct (Client._auth this) as [[f | value | produce] |]; simpl;
      try (split; reflexivity).
    destruct (is_some (NextDrupalAuth.clientId f)
              && is_some (NextDrupalAuth.clientSecret f));
      split; congruence. }
  unfold current_request.
  destruct clientIdSecret as [given |].
  - change (isClientIdSecretAuth (as_auth (Some given)))
      with (has_client_credentials given).
    destruct (has_client_credentials given).
    + split; [discriminate | intros [? _]; discriminate].
    + rewrite Hinstance. tauto.
  - rewrite Hinstance. simpl. tauto.
Qed.

(** X8.  With the [accessToken] option the instance never asks for a
    token: [getAccessToken] returns the token of the option, whatever
    credentials it is called with, sends nothing, reads no clock and
    leaves the instance as it was; and the header of a client id and a
    client secret is ["Bearer "] and that token. *)
Theorem getAccessToken_fixed_token {platform : Platform}
    (clientIdSecret : option NextDrupalAuth.Fields)
    (auth : option NextDrupalAuth.t)
    (this : Client.t) (w : World.t) (token : AccessToken.t) :
  Client.accessToken this = Some token ->
  getAccessToken clientIdSecret this w = (Ok token, this, w)
  /\ (isBasicAuth auth = false -> isClientIdSecretAuth auth = true ->
      let run := getAuthorizationHeader auth this w in
      outcome run = Ok ("Bearer " ++ AccessToken.access_token token)
      /\ client_after run = this
      /\ requests_after run = World.requests w).
Proof.
  intros Htoken. split.
  - rewrite getAccessToken_cases, Htoken. reflexivity.
  - intros Hbasic Hclient. cbv zeta.
    unfold getAuthorizationHeader, getAuthorizationHeader_with.
    rewrite Hbasic, Hclient. unfold bind.
    rewrite !getAccessToken_cases, Htoken.
    unfold debug, ret, outcome, client_after, requests_after, world_after.
    simpl. destruct (Client.isDebugEnabled this); repeat split.
Qed.

Lemma getAccessToken_fixed_token_witness :
  let this :=
    Client.mk (Some (AccessToken.mk "Bearer" 300 "fixed" None))
      "https://example.com" None DEFAULT_FRONT_PAGE false false ""
      None (Headers.make DEFAULT_HEADERS) None None None in
  outcome (getAuthorizationHeader (platform := plain_platform)
             (Some (NextDrupalAuth.Object (client_credentials "id" "s" None)))
             this (world_with unreachable_server))
  = Ok "Bearer fixed".
Proof.
  cbv zeta.
  destruct (getAccessToken_fixed_token (platform := plain_platform) None
              (Some (NextDrupalAuth.Object (client_credentials "id" "s" None)))
              (Client.mk (Some (AccessToken.mk "Bearer" 300 "fixed" None))
                 "https://example.com" None DEFAULT_FRONT_PAGE false false ""
                 None (Headers.make DEFAULT_HEADERS) None None None)
              (world_with unreachable_server)
              (AccessToken.mk "Bearer" 300 "fixed" None) eq_refl)
    as [_ Hheader].
  destruct (Hheader eq_refl eq_refl) as [Hout _]. exact Hout.
Defined.

(** X9.  The errors of [getAccessToken] that come before any request,
    on an instance without the [accessToken] option.  When neither the
    argument nor the auth of the instance has a client id and a client
    secret, the call throws: that auth is not configured when the instance
    has no auth at all, and that a client id and a client secret are
    required when it has another kind.  When the token URL of the
    credentials does not parse, it throws the type error of the URL.  In
    each case nothing is sent, no clock is read and the instance is as
    it was. *)
Theorem getAccessToken_configuration_errors {platform : Platform}
    (clientIdSecret : option NextDrupalAuth.Fields)
    (this : Client.t) (w : World.t) :
  Client.accessToken this = None ->
  (isClientIdSecretAuth (as_auth clientIdSecret) = false ->
   isClientIdSecretAuth (Client._auth this) = false ->
   getAccessToken clientIdSecret this w
   = (Throw (Error
               (match Client._auth this with
                | None => auth_not_configured
                | Some _ => "'clientId' and 'clientSecret' required. See https://next-drupal.org/docs/client/auth"
                end)),
      this, w))
  /\ (forall auth,
        current_request this clientIdSecret = Some auth ->
        new_URL (text_of (NextDrupalAuth.url auth)) (Client.baseUrl this)
        = None ->
        getAccessToken clientIdSecret this w
        = (Throw (TypeError "Invalid URL"), this, w)).
Proof.
  intros Htoken. split.
  - intros Hgiven Hinstance.
    rewrite getAccessToken_cases, Htoken.
    replace (current_request this clientIdSecret) with
      (@None NextDrupalAuth.Fields)
      by (symmetry; apply current_request_none; split; assumption).
    destruct (Client._auth this); reflexivity.
  - intros auth Hauth Hurl.
    rewrite getAccessToken_cases, Htoken, Hauth, Hurl. reflexivity.
Qed.

Lemma getAccessToken_configuration_errors_witness :
  getAccessToken (platform := plain_platform) None
    (client_with (Some (NextDrupalAuth.Header "Bearer abc")))
    (world_with granting_server)
  = (Throw (Error "'clientId' and 'clientSecret' required. See https://next-drupal.org/docs/client/auth"),
     client_with (Some (NextDrupalAuth.Header "Bearer abc")),
     world_with granting_server).
Proof.
  destruct (getAccessToken_configuration_errors (platform := plain_platform)
              None (client_with (Some (NextDrupalAuth.Header "Bearer abc")))
              (world_with granting_server) eq_refl) as [Hnone _].
  exact (Hnone eq_refl eq_refl).
Defined.

Lemma current_request_same_auth (a b : Client.t)
    (clientIdSecret : option NextDrupalAuth.Fields) :
  Client._auth a = Client._auth b ->
  current_request a clientIdSecret = current_request b clientIdSecret.
Proof.
  intros Hauth. unfold current_request, instance_request.
  rewrite Hauth. reflexivity.
Qed.

(** A call that finds the cache usable returns the cached token. *)
Lemma getAccessToken_hit {platform : Platform}
    (clientIdSecret : option NextDrupalAuth.Fields)
    (this : Client.t) (w : World.t)
    (auth : NextDrupalAuth.Fields) (url : Url.URL) (token : AccessToken.t) :
  Client.accessToken this = None ->
  current_request this clientIdSecret = Some auth ->
  new_URL (text_of (NextDrupalAuth.url auth)) (Client.baseUrl this)
  = Some url ->
  Client._token this = Some token ->
  cache_usable this (World.clock w (World.clock_reads w)) auth = true ->
  let run := getAccessToken clientIdSecret this w in
  outcome run = Ok token
  /\ client_after run = this
  /\ requests_after run = World.requests w.
Proof.
  intros Hnone Hauth Hurl Htoken Husable. cbv zeta.
  rewrite getAccessToken_cases, Hnone, Hauth, Hurl. cbv zeta.
  rewrite Husable, Htoken.
  unfold bind, debug, ret, outcome, client_after, requests_after,
    world_after, tick.
  simpl. destruct (Client.isDebugEnabled this); repeat split.
Qed.

(** A usable cache stays usable until its expiry. *)
Lemma cache_usable_until (this : Client.t) (now : Z)
    (auth : NextDrupalAuth.Fields) :
  cache_usable this now auth = true ->
  exists expires,
    Client._tokenExpiresOn this = Some expires
    /\ forall later, (later < expires)%Z ->
                     cache_usable this later auth = true.
Proof.
  unfold cache_usable.
  destruct (Client._tokenExpiresOn this) as [expires |].
  - intros H. exists expires. split; [reflexivity |].
    intros later Hlater.
    apply andb_true_iff in H. destruct H as [H Hdetails].
    apply andb_true_iff in H. destruct H as [Htoken _].
    rewrite Htoken, Hdetails.
    replace (later <? expires)%Z with true
      by (symmetry; apply Z.ltb_lt; exact Hlater).
    reflexivity.
  - rewrite andb_false_r. discriminate.
Qed.

(** An answer that gives a token stores it, with its expiry and the
    request it answers. *)
Lemma token_answer_ok (this : Client.t) (auth : NextDrupalAuth.Fields)
    (now : Z) (answer : TransportResult)
    (token : AccessToken.t) (this1 : Client.t) :
  token_answer this auth now answer = (Ok token, this1) ->
  this1
  = Client.set_tokenRequestDetails
      (Client.set_token_fields this (Some token)
         (Some (now + AccessToken.expires_in token * 1000)%Z))
      (Some auth).
Proof.
  unfold token_answer.
  destruct answer as [response | message]; [| discriminate].
  destruct (throwIfJsonErrors response _); [| discriminate].
  destruct (Response.json response) as [body |]; [| discriminate].
  destruct (AccessToken.of_json body); [| discriminate].
  intros [= <- <-]. reflexivity.
Qed.

(** X10.  A call of [getAccessToken] that returned a token, and a second
    call with the same argument at a time before the expiry that the
    instance now holds: the second call returns the same token, sends
    nothing and leaves the instance as the first call left it.  So a
    token is asked for once in its lifetime, whether the first call
    took it from the cache, from the options or from the server. *)
Theorem getAccessToken_again {platform : Platform}
    (clientIdSecret : option NextDrupalAuth.Fields)
    (this : Client.t) (w : World.t) (token : AccessToken.t) :
  let first := getAccessToken clientIdSecret this w in
  let again :=
    getAccessToken clientIdSecret (client_after first) (world_after first) in
  outcome first = Ok token ->
  (forall expires,
      Client._tokenExpiresOn (client_after first) = Some expires ->
      (World.clock (world_after first)
         (World.clock_reads (world_after first)) < expires)%Z) ->
  outcome again = Ok token
  /\ client_after again = client_after first
  /\ requests_after again = requests_after first.
Proof.
  cbv zeta. rewrite (getAccessToken_cases clientIdSecret this w).
  destruct (Client.accessToken this) as [fixed |] eqn:Hnone.
  { unfold outcome, client_after, world_after, requests_after. simpl.
    intros [= <-] _. rewrite getAccessToken_cases, Hnone.
    repeat split. }
  destruct (current_request this clientIdSecret) as [auth |] eqn:Hauth;
    [| discriminate].
  destruct (new_URL (text_of (NextDrupalAuth.url auth)) (Client.baseUrl this))
    as [url |] eqn:Hurl; [| discriminate].
  cbv zeta.
  pose proof (RunFacts.current_request_credentials _ _ _ Hauth) as Hcred.
  pose proof (RunFacts.request_new_token_run auth url this
                (if is_some (Client._token this) then tick w else w) Hcred)
    as [_ Hnew].
  set (new := request_new_token fetch getAuthorizationHeader auth url this
                (if is_some (Client._token this) then tick w else w)) in *.
  assert (Hfetched :
            outcome new = Ok token ->
            (forall expires,
                Client._tokenExpiresOn (client_after new) = Some expires ->
                (World.clock (world_after new)
                   (World.clock_reads (world_after new)) < expires)%Z) ->
            outcome (getAccessToken clientIdSecret (client_after new)
                       (world_after new)) = Ok token
            /\ client_after (getAccessToken clientIdSecret (client_after new)
                               (world_after new)) = client_after new
            /\ requests_after (getAccessToken clientIdSecret (client_after new)
                                 (world_after new)) = requests_after new).
  { intros Hok Hfresh. rewrite Hok in Hnew. symmetry in Hnew.
    apply token_answer_ok in Hnew.
    assert (Hbefore := Hfresh _ ltac:(rewrite Hnew; reflexivity)).
    apply (getAccessToken_hit clientIdSecret _ _ auth url token).
    - rewrite Hnew. exact Hnone.
    - rewrite <- Hauth. apply current_request_same_auth.
      rewrite Hnew. reflexivity.
    - rewrite <- Hurl. rewrite Hnew. reflexivity.
    - rewrite Hnew. reflexivity.
    - rewrite Hnew. unfold cache_usable. simpl.
      rewrite !eq_opt_refl.
      replace (_ <? _)%Z with true
        by (symmetry; apply Z.ltb_lt; exact Hbefore).
      reflexivity. }
  destruct (cache_usable this (World.clock w (World.clock_reads w)) auth)
    eqn:Husable; [| exact Hfetched].
  destruct (Client._token this) as [cached |] eqn:Hcached; [| exact Hfetched].
  clear Hfetched Hnew new.
  unfold bind, debug, ret, outcome, client_after, world_after,
    requests_after. simpl fst. simpl snd.
  intros [= <-] Hfresh.
  destruct (cache_usable_until _ _ _ Husable) as (expires & Hexpires & Hlater).
  apply (getAccessToken_hit clientIdSecret _ _ auth url cached Hnone Hauth
           Hurl Hcached).
  apply Hlater. exact (Hfresh expires Hexpires).
Qed.

Lemma getAccessToken_again_witness :
  outcome (getAccessToken (platform := plain_platform)
             (Some (client_credentials "id" "secret" (Some "read")))
             client_holding_token world_after_grant)
  = Ok (AccessToken.mk "Bearer" 300 "token-0" None)
  /\ requests_after (getAccessToken (platform := plain_platform)
                       (Some (client_credentials "id" "secret" (Some "read")))
                       client_holding_token world_after_grant)
     = requests_after first_grant.
Proof.
  assert (Hfresh :
            forall expires,
              Client._tokenExpiresOn client_holding_token = Some expires ->
              (World.clock world_after_grant
                 (World.clock_reads world_after_grant) < expires)%Z).
  { intros expires H. vm_compute in H. injection H as <-. reflexivity. }
  destruct (getAccessToken_again (platform := plain_platform)
              (Some (client_credentials "id" "secret" (Some "read")))
              (client_with None) (world_with granting_server)
              (AccessToken.mk "Bearer" 300 "token-0" None)
              ltac:(vm_compute; reflexivity) Hfresh) as (Hout & _ & Hreq).
  split; [exact Hout | exact Hreq].
Defined.

(** The setter of [token]: the token, and an expiry counted from one
    reading of the clock. *)
Lemma set_token_run (token : AccessToken.t) (this : Client.t) (w : World.t) :
  set_token token this w
  = (Ok tt,
     Client.set_token_fields this (Some token)
       (Some (World.clock w (World.clock_reads w)
              + AccessToken.expires_in token * 1000)%Z),
     tick w).
Proof. destruct this; reflexivity. Qed.

(** X11.  The setter of [token] stores the token and an expiry, the
    time of the assignment and the lifetime of the token, and leaves the
    stored token request as it was.  Then, on an instance without the
    [accessToken] option, for a call whose credentials have a client id
    and a client secret and whose token URL parses: when the instance
    has no stored token request, the next [getAccessToken] does not use
    the token that was set, it sends the token request; and when the
    stored token request has the client id, the client secret and the
    scope of the call, the next [getAccessToken] before the new expiry
    returns the token that was set, and sends nothing. *)
Theorem token_setter_then_getAccessToken {platform : Platform}
    (clientIdSecret : option NextDrupalAuth.Fields)
    (this : Client.t) (w : World.t)
    (auth : NextDrupalAuth.Fields) (url : Url.URL) (token : AccessToken.t) :
  Client.accessToken this = None ->
  current_request this clientIdSecret = Some auth ->
  new_URL (text_of (NextDrupalAuth.url auth)) (Client.baseUrl this)
  = Some url ->
  let installed := set_token token this w in
  let run :=
    getAccessToken clientIdSecret (client_after installed)
      (world_after installed) in
  (Client._token (client_after installed) = Some token
   /\ Client._tokenExpiresOn (client_after installed)
      = Some (World.clock w (World.clock_reads w)
              + AccessToken.expires_in token * 1000)%Z
   /\ Client._tokenRequestDetails (client_after installed)
      = Client._tokenRequestDetails this
   /\ same_configuration this (client_after installed)
   /\ requests_after installed = World.requests w)
  /\ (Client._tokenRequestDetails this = None ->
      requests_after run
      = (World.requests w ++ [token_request this auth url])%list)
  /\ (forall cached,
        Client._tokenRequestDetails this = Some cached ->
        NextDrupalAuth.clientId cached = NextDrupalAuth.clientId auth ->
        NextDrupalAuth.clientSecret cached = NextDrupalAuth.clientSecret auth ->
        NextDrupalAuth.scope cached = NextDrupalAuth.scope auth ->
        (World.clock w (S (World.clock_reads w))
         < World.clock w (World.clock_reads w)
           + AccessToken.expires_in token * 1000)%Z ->
        outcome run = Ok token
        /\ requests_after run = World.requests w).
Proof.
  intros Hnone Hauth Hurl. cbv zeta. rewrite set_token_run.
  unfold client_after at 1 2 3 4 5 6, world_after at 1 2,
    requests_after at 1, world_after at 1.
  simpl fst. simpl snd.
  set (this1 := Client.set_token_fields this (Some token) _).
  assert (Hnone1 : Client.accessToken this1 = None) by exact Hnone.
  assert (Hauth1 : current_request this1 clientIdSecret = Some auth).
  { rewrite <- Hauth. apply current_request_same_auth. reflexivity. }
  assert (Hurl1 : new_URL (text_of (NextDrupalAuth.url auth))
                    (Client.baseUrl this1) = Some url) by exact Hurl.
  split; [| split].
  - repeat split.
  - intros Hdetails.
    rewrite getAccessToken_cases, Hnone1, Hauth1, Hurl1. cbv zeta.
    assert (Hmiss : cache_usable this1
                      (World.clock (tick w) (World.clock_reads (tick w)))
                      auth = false).
    { unfold cache_usable. change (Client._tokenRequestDetails this1)
        with (Client._tokenRequestDetails this).
      rewrite Hdetails. apply andb_false_r. }
    rewrite Hmiss.
    pose proof (RunFacts.current_request_credentials _ _ _ Hauth) as Hcred.
    destruct (RunFacts.request_new_token_run auth url this1
                (if is_some (Client._token this1) then tick (tick w)
                 else tick w) Hcred) as [Hreq _].
    exact Hreq.
  - intros cached Hdetails Hid Hsecret Hscope Hbefore.
    destruct (getAccessToken_hit clientIdSecret this1 (tick w) auth url token
                Hnone1 Hauth1 Hurl1 eq_refl) as (Hout & _ & Hreq).
    + unfold cache_usable.
      change (Client._tokenRequestDetails this1)
        with (Client._tokenRequestDetails this).
      rewrite Hdetails, Hid, Hsecret, Hscope, !eq_opt_refl.
      simpl.
      replace (_ <? _)%Z with true
        by (symmetry; apply Z.ltb_lt; exact Hbefore).
      reflexivity.
    + split; [exact Hout | exact Hreq].
Qed.

Lemma token_setter_then_getAccessToken_witness :
  exists request,
    requests_after
      (getAccessToken (platform := plain_platform)
         (Some (client_credentials "id" "secret" None))
         (client_after
            (set_token (AccessToken.mk "Bearer" 300 "by-hand" None)
               (client_with None) (world_with granting_server)))
         (world_after
            (set_token (AccessToken.mk "Bearer" 300 "by-hand" None)
               (client_with None) (world_with granting_server))))
    = [request].
Proof.
  destruct (token_setter_then_getAccessToken (platform := plain_platform)
              (Some (client_credentials "id" "secret" None))
              (client_with None) (world_with granting_server)
              (NextDrupalAuth.mkFields None None (Some "id") (Some "secret")
                 (NextDrupalAuth.Present "/oauth/token") None None None)
              (Url.mkURL "https" "example.com" "/oauth/token" None None)
              (AccessToken.mk "Bearer" 300 "by-hand" None)
              eq_refl eq_refl eq_refl) as [_ [Hmiss _]].
  eexists. exact (Hmiss eq_refl).
Defined.

(** X12.  Whenever [getAccessToken] sends a request, that request is a
    POST with credentials ["include"], whose Authorization is the Basic
    header of the client id and the client secret, whose Accept and
    Content-Type are those of a form post, whatever headers the instance
    has under these names, and whose body is a form with the grant type
    [client_credentials] and with the scope exactly when the request has
    a non-empty one. *)
Theorem getAccessToken_request_shape {platform : Platform}
    (clientIdSecret : option NextDrupalAuth.Fields)
    (this : Client.t) (w : World.t) (request : Request) :
  requests_after (getAccessToken clientIdSecret this w)
  = (World.requests w ++ [request])%list ->
  exists auth headers form,
    current_request this clientIdSecret = Some auth
    /\ RequestInit.method (request_init request) = Some "POST"
    /\ RequestInit.credentials (request_init request) = Some "include"
    /\ RequestInit.headers (request_init request) = Some headers
    /\ Headers.get headers "Authorization" = Some (basic_header auth)
    /\ Headers.get headers "Accept" = Some "application/json"
    /\ Headers.get headers "Content-Type"
       = Some "application/x-www-form-urlencoded"
    /\ RequestInit.body (request_init request) = Some (FormBody form)
    /\ form
       = (("grant_type", "client_credentials")
            :: (if truthy_opt (NextDrupalAuth.scope auth)
                then [("scope", text_of (NextDrupalAuth.scope auth))]
                else []))%list.
Proof.
  rewrite getAccessToken_cases.
  destruct (Client.accessToken this) as [fixed |].
  { intros H. symmetry in H. apply RunFacts.snoc_longer in H. contradiction. }
  destruct (current_request this clientIdSecret) as [auth |] eqn:Hauth.
  2:{ intros H. symmetry in H. apply RunFacts.snoc_longer in H.
      contradiction. }
  destruct (new_URL (text_of (NextDrupalAuth.url auth)) (Client.baseUrl this))
    as [url |].
  2:{ intros H. symmetry in H. apply RunFacts.snoc_longer in H.
      contradiction. }
  cbv zeta.
  pose proof (RunFacts.current_request_credentials _ _ _ Hauth) as Hcred.
  destruct (RunFacts.request_new_token_run auth url this
              (if is_some (Client._token this) then tick w else w) Hcred)
    as [Hnew _].
  rewrite RunFacts.requests_tick in Hnew.
  assert (Hshape :
            request = token_request this auth url ->
            exists auth0 headers form,
              Some auth = Some auth0
              /\ RequestInit.method (request_init request) = Some "POST"
              /\ RequestInit.credentials (request_init request)
                 = Some "include"
              /\ RequestInit.headers (request_init request) = Some headers
              /\ Headers.get headers "Authorization"
                 = Some (basic_header auth0)
              /\ Headers.get headers "Accept" = Some "application/json"
              /\ Headers.get headers "Content-Type"
                 = Some "application/x-www-form-urlencoded"
              /\ RequestInit.body (request_init request)
                 = Some (FormBody form)
              /\ form
                 = (("grant_type", "client_credentials")
                      :: (if truthy_opt (NextDrupalAuth.scope auth0)
                          then [("scope",
                                 text_of (NextDrupalAuth.scope auth0))]
                          else []))%list).
  { intros ->. exists auth. eexists.
    exists (("grant_type", "client_credentials")
              :: (if truthy_opt (NextDrupalAuth.scope auth)
                  then [("scope", text_of (NextDrupalAuth.scope auth))]
                  else []))%list.
    split; [reflexivity |]. split; [reflexivity |].
    split; [reflexivity |]. split; [reflexivity |].
    split; [rewrite HeadersFacts.get_merge_headers; reflexivity |].
    split; [rewrite HeadersFacts.get_merge_headers; reflexivity |].
    split; [rewrite HeadersFacts.get_merge_headers; reflexivity |].
    unfold token_request, token_request_options.
    destruct (truthy_opt (NextDrupalAuth.scope auth)); split; reflexivity. }
  destruct (cache_usable this _ auth);
    [destruct (Client._token this) as [cached |] |].
  - unfold bind, debug, ret, requests_after, world_after, tick. simpl.
    intros H. exfalso.
    destruct (Client.isDebugEnabled this); simpl in H;
      symmetry in H; apply RunFacts.snoc_longer in H; exact H.
  - intros H. rewrite H in Hnew. apply RunFacts.snoc_injective in Hnew.
    exact (Hshape Hnew).
  - intros H. rewrite H in Hnew. apply RunFacts.snoc_injective in Hnew.
    exact (Hshape Hnew).
Qed.

Lemma getAccessToken_request_shape_witness :
  exists auth headers form,
    current_request (client_with None)
      (Some (client_credentials "id" "secret" (Some "read"))) = Some auth
    /\ RequestInit.method
         (request_init
            (token_request (client_with None)
               (NextDrupalAuth.mkFields None None (Some "id") (Some "secret")
                  (NextDrupalAuth.Present "/oauth/token") (Some "read") None None)
               (Url.mkURL "https" "example.com" "/oauth/token" None None)))
       = Some "POST"
    /\ RequestInit.credentials
         (request_init
            (token_request (client_with None)
               (NextDrupalAuth.mkFields None None (Some "id") (Some "secret")
                  (NextDrupalAuth.Present "/oauth/token") (Some "read") None None)
               (Url.mkURL "https" "example.com" "/oauth/token" None None)))
       = Some "include"
    /\ RequestInit.headers
         (request_init
            (token_request (client_with None)
               (NextDrupalAuth.mkFields None None (Some "id") (Some "secret")
                  (NextDrupalAuth.Present "/oauth/token") (Some "read") None None)
               (Url.mkURL "https" "example.com" "/oauth/token" None None)))
       = Some headers
    /\ Headers.get headers "Authorization" = Some (basic_header auth)
    /\ Headers.get headers "Accept" = Some "application/json"
    /\ Headers.get headers "Content-Type"
       = Some "application/x-www-form-urlencoded"
    /\ RequestInit.body
         (request_init
            (token_request (client_with None)
               (NextDrupalAuth.mkFields None None (Some "id") (Some "secret")
                  (NextDrupalAuth.Present "/oauth/token") (Some "read") None None)
               (Url.mkURL "https" "example.com" "/oauth/token" None None)))
       = Some (FormBody form)
    /\ form
       = (("grant_type", "client_credentials")
            :: (if truthy_opt (NextDrupalAuth.scope auth)
                then [("scope", text_of (NextDrupalAuth.scope auth))]
                else []))%list.
Proof.
  apply (getAccessToken_request_shape (platform := plain_platform)
           (Some (client_credentials "id" "secret" (Some "read")))
           (client_with None) (world_with granting_server)).
  vm_compute. reflexivity.
Defined.

(* ================================================================== *)
(** * Further properties: requests *)

(** X13.  When [fetch] hands a request to the transport, what it
    returns is what the transport answers: the response as it comes,
    whatever its status, so that a response that is not [ok] is returned
    and not thrown, or the rejection, thrown as it is.  The instance is
    then as the resolution of the Authorization header left it, and that
    resolution does nothing when [withAuth] is not set. *)
Theorem fetch_outcome {platform : Platform}
    (input : RequestInfo) (options : FetchOptions)
    (this : Client.t) (w : World.t) (request : Request) :
  let staged := authorization_stage options this w in
  let run := fetch input options this w in
  requests_after run = (requests_after staged ++ [request])%list ->
  client_after run = client_after staged
  /\ outcome run
     = match transport_of (client_after staged) (world_after staged)
               (requests_after staged) request with
       | Resolves response => Ok response
       | Rejects reason => Throw (TransportError reason)
       end
  /\ (withAuth_truthy (withAuth options) = false ->
      staged = (Ok None, this, w)).
Proof.
  cbv zeta. intros Hsent. split; [| split].
  - revert Hsent. rewrite RunFacts.fetch_run.
    destruct (authorization_stage options this w)
      as [[[authorization | e] this1] w1]; [| reflexivity].
    cbv zeta. intros _.
    match goal with
    | |- context [send ?i ?r this1 w1] =>
        destruct (RunFacts.send_run i r this1 w1) as (Hthis & _)
    end.
    exact Hthis.
  - revert Hsent. rewrite RunFacts.fetch_run.
    destruct (authorization_stage options this w)
      as [[[authorization | e] this1] w1].
    + cbv zeta.
      match goal with
      | |- context [send ?i ?r this1 w1] =>
          destruct (RunFacts.send_run i r this1 w1) as (_ & Hreq & Hout)
      end.
      intros Hsent. rewrite Hreq in Hsent.
      apply RunFacts.snoc_injective in Hsent. subst request. exact Hout.
    + intros Hsent. symmetry in Hsent.
      apply RunFacts.snoc_longer in Hsent. contradiction.
  - intros Hnone. unfold authorization_stage. rewrite Hnone. reflexivity.
Qed.

Lemma fetch_outcome_witness :
  outcome (fetch (platform := plain_platform) (InputString "/jsonapi")
             (mkFetchOptions None RequestInit.empty)
             (client_with None) (world_with refusing_server))
  = Ok unprocessable_response.
Proof.
  destruct (fetch_outcome (platform := plain_platform) (InputString "/jsonapi")
              (mkFetchOptions None RequestInit.empty)
              (client_with None) (world_with refusing_server)
              (mkRequest (InputString "https://example.com/jsonapi")
                 (RequestInit.set_headers
                    (RequestInit.set_credentials RequestInit.empty "include")
                    (merge_headers (Client._headers (client_with None)) None)))
              eq_refl)
    as (_ & Hout & _).
  exact Hout.
Defined.

(** X14.  No method changes the configuration of the instance: after
    [fetch], [getAuthorizationHeader], [getAccessToken],
    [validateDraftUrl], [buildUrl] and [buildEndpoint] the instance has
    the base URL, the fetcher, the auth, the headers, the API prefix, the
    front page, the debug mode and the [accessToken] and [withAuth]
    options that it had; only the cached token may differ.  Nor do they
    replace the global [fetch] or the clock. *)
Theorem methods_keep_configuration {platform : Platform} :
  (forall input options, steady (fetch input options))
  /\ (forall auth, steady (getAuthorizationHeader auth))
  /\ (forall clientIdSecret, steady (getAccessToken clientIdSecret))
  /\ (forall searchParams, steady (validateDraftUrl searchParams))
  /\ (forall path searchParams, steady (buildUrl path searchParams))
  /\ (forall locale path searchParams,
        steady (buildEndpoint locale path searchParams)).
Proof.
  split; [exact RunFacts.steady_fetch |].
  split; [exact RunFacts.steady_getAuthorizationHeader |].
  split; [exact RunFacts.steady_getAccessToken |].
  split; [| split; [exact RunFacts.steady_buildUrl |]].
  - intros searchParams. unfold validateDraftUrl.
    repeat first
      [ apply RunFacts.steady_buildUrl
      | apply RunFacts.steady_fetch
      | RunFacts.steady_step ].
  - intros locale path searchParams. unfold buildEndpoint.
    repeat first [ apply RunFacts.steady_buildUrl | RunFacts.steady_step ].
Qed.

(* ================================================================== *)
(** * Further properties: the debug log *)

Lemma quiet_ret {A : Type} (a : A) : quiet (ret a).
Proof. intros this w Hoff. split; [exact Hoff | reflexivity]. Qed.

Lemma quiet_throw {A : Type} (e : Exn) : quiet (@throw A e).
Proof. intros this w Hoff. split; [exact Hoff | reflexivity]. Qed.

Lemma quiet_lift {A : Type} (r : Result A) : quiet (lift r).
Proof. intros this w Hoff. split; [exact Hoff | reflexivity]. Qed.

Lemma quiet_get_this : quiet get_this.
Proof. intros this w Hoff. split; [exact Hoff | reflexivity]. Qed.

Lemma quiet_debug (message : string) : quiet (debug message).
Proof.
  intros this w Hoff. split; [exact Hoff |].
  unfold debug, world_after. simpl. rewrite Hoff. reflexivity.
Qed.

Lemma quiet_Date_now : quiet Date_now.
Proof. intros this w Hoff. split; [exact Hoff | reflexivity]. Qed.

Lemma quiet_modify_this (f : Client.t -> Client.t) :
  (forall c, Client.isDebugEnabled (f c) = Client.isDebugEnabled c) ->
  quiet (modify_this f).
Proof.
  intros Hf this w Hoff. split; [| reflexivity].
  unfold modify_this, client_after. simpl. rewrite Hf. exact Hoff.
Qed.

Lemma quiet_call_transport (f : Transport) (input : RequestInfo)
    (init : RequestInit.t) :
  quiet (call_transport f input init).
Proof.
  intros this w Hoff. unfold call_transport, client_after, world_after.
  destruct (f (World.requests w) (mkRequest input init));
    split; first [exact Hoff | reflexivity].
Qed.

Lemma quiet_global_fetch (input : RequestInfo) (init : RequestInit.t) :
  quiet (global_fetch input init).
Proof. intros this w. apply quiet_call_transport. Qed.

Lemma quiet_bind {A B : Type} (m : M A) (k : A -> M B) :
  quiet m -> (forall a, quiet (k a)) -> quiet (bind m k).
Proof.
  intros Hm Hk this w Hoff. specialize (Hm this w Hoff).
  unfold bind, client_after, world_after in *.
  destruct (m this w) as [[[a | e] this1] w1]; simpl in Hm;
    destruct Hm as [Hoff1 Hlog1]; [| split; assumption].
  destruct (Hk a this1 w1 Hoff1) as [Hoff2 Hlog2].
  unfold client_after, world_after in *.
  split; [exact Hoff2 | congruence].
Qed.

Lemma quiet_try_catch {A : Type} (m : M A) (handler : Exn -> M A) :
  quiet m -> (forall e, quiet (handler e)) -> quiet (try_catch m handler).
Proof.
  intros Hm Hh this w Hoff. specialize (Hm this w Hoff).
  unfold try_catch, client_after, world_after in *.
  destruct (m this w) as [[[a | e] this1] w1]; simpl in Hm;
    destruct Hm as [Hoff1 Hlog1]; [split; assumption |].
  destruct (Hh e this1 w1 Hoff1) as [Hoff2 Hlog2].
  unfold client_after, world_after in *.
  split; [exact Hoff2 | congruence].
Qed.

(** The steps of a quietness proof: through the binds, into the
    branches. *)
Ltac quiet_step :=
  first
    [ apply quiet_ret | apply quiet_throw | apply quiet_lift
    | apply quiet_get_this | apply quiet_debug | apply quiet_Date_now
    | apply quiet_call_transport | apply quiet_global_fetch
    | apply quiet_modify_this; intros ?; reflexivity
    | apply quiet_bind; [| intros ?]
    | apply quiet_try_catch; [| intros ?]
    | match goal with
      | |- quiet (match ?x with _ => _ end) => destruct x
      | |- quiet (let _ := _ in _) => cbv zeta
      end ].

Lemma quiet_buildUrl {platform : Platform} (path : string)
    (searchParams : option EndpointSearchParams) :
  quiet (buildUrl path searchParams).
Proof. unfold buildUrl. repeat quiet_step. Qed.

Lemma quiet_fetch_with {platform : Platform}
    (g : option NextDrupalAuth.t -> M string)
    (input : RequestInfo) (options : FetchOptions) :
  (forall auth, quiet (g auth)) -> quiet (fetch_with g input options).
Proof.
  intros Hg. unfold fetch_with. repeat first [ apply Hg | quiet_step ].
Qed.

Lemma quiet_getAuthorizationHeader_with {platform : Platform}
    (t : option NextDrupalAuth.Fields -> M AccessToken.t)
    (auth : option NextDrupalAuth.t) :
  (forall c, quiet (t c)) -> quiet (getAuthorizationHeader_with t auth).
Proof.
  intros Ht. unfold getAuthorizationHeader_with.
  repeat first [ apply Ht | quiet_step ].
Qed.

Lemma quiet_set_token (token : AccessToken.t) : quiet (set_token token).
Proof. unfold set_token. repeat quiet_step. Qed.

Lemma quiet_request_new_token {platform : Platform}
    (f : RequestInfo -> FetchOptions -> M Response.t)
    (g : option NextDrupalAuth.t -> M string)
    (auth : NextDrupalAuth.Fields) (url : Url.URL) :
  (forall input options, quiet (f input options)) ->
  (forall a, quiet (g a)) ->
  quiet (request_new_token f g auth url).
Proof.
  intros Hf Hg. unfold request_new_token.
  repeat first [ apply Hf | apply Hg | apply quiet_set_token | quiet_step ].
Qed.

Lemma quiet_getAccessToken {platform : Platform}
    (clientIdSecret : option NextDrupalAuth.Fields) :
  quiet (getAccessToken clientIdSecret).
Proof.
  unfold getAccessToken, getAccessToken_with, resolve_client_credentials,
    cached_token_usable.
  repeat first
    [ apply quiet_buildUrl
    | apply quiet_request_new_token; intros;
      [ apply quiet_fetch_with | apply quiet_getAuthorizationHeader_with ];
      intros; apply quiet_throw
    | quiet_step ].
Qed.

Lemma quiet_getAuthorizationHeader {platform : Platform}
    (auth : option NextDrupalAuth.t) :
  quiet (getAuthorizationHeader auth).
Proof.
  apply quiet_getAuthorizationHeader_with. exact quiet_getAccessToken.
Qed.

Lemma quiet_fetch {platform : Platform}
    (input : RequestInfo) (options : FetchOptions) :
  quiet (fetch input options).
Proof. apply quiet_fetch_with. exact quiet_getAuthorizationHeader. Qed.

(** X15.  On an instance whose debug mode is off, no method gives the
    logger anything, on any path, the failing ones included; and the
    constructor logs nothing unless the [debug] option is on, and one
    line when it is. *)
Theorem debug_off_is_silent {platform : Platform}
    (this : Client.t) (w : World.t) :
  Client.isDebugEnabled this = false ->
  (forall input options,
      World.debug_log (world_after (fetch input options this w))
      = World.debug_log w)
  /\ (forall auth,
        World.debug_log (world_after (getAuthorizationHeader auth this w))
        = World.debug_log w)
  /\ (forall clientIdSecret,
        World.debug_log (world_after (getAccessToken clientIdSecret this w))
        = World.debug_log w)
  /\ (forall searchParams,
        World.debug_log (world_after (validateDraftUrl searchParams this w))
        = World.debug_log w)
  /\ (forall locale path searchParams,
        World.debug_log
          (world_after (buildEndpoint locale path searchParams this w))
        = World.debug_log w)
  /\ (forall baseUrl options,
        World.debug_log (snd (new_NextDrupalBase baseUrl options w))
        = match fst (new_NextDrupalBase baseUrl options w),
                NextDrupalBaseOptions.debug options with
          | Ok _, Some true =>
              (World.debug_log w ++ ["Debug mode is on."])%list
          | _, _ => World.debug_log w
          end).
Proof.
  intros Hoff.
  split; [intros; apply quiet_fetch; exact Hoff |].
  split; [intros; apply quiet_getAuthorizationHeader; exact Hoff |].
  split; [intros; apply quiet_getAccessToken; exact Hoff |].
  split; [| split].
  - intros searchParams.
    assert (Hquiet : quiet (validateDraftUrl searchParams)).
    { unfold validateDraftUrl.
      repeat first [ apply quiet_buildUrl | apply quiet_fetch | quiet_step ]. }
    apply Hquiet. exact Hoff.
  - intros locale path searchParams.
    assert (Hquiet : quiet (buildEndpoint locale path searchParams)).
    { unfold buildEndpoint.
      repeat first [ apply quiet_buildUrl | quiet_step ]. }
    apply Hquiet. exact Hoff.
  - intros baseUrl options. unfold new_NextDrupalBase.
    destruct (negb (truthy baseUrl)); [reflexivity |].
    destruct (checked_auth (NextDrupalBaseOptions.auth options));
      [| reflexivity].
    unfold debug. simpl.
    destruct (NextDrupalBaseOptions.debug options) as [[|] |]; reflexivity.
Qed.

Lemma debug_off_is_silent_witness :
  World.debug_log
    (world_after
       (validateDraftUrl (platform := plain_platform) [("path", "/blog")]
          (client_with None) (world_with unreachable_server)))
  = [].
Proof.
  destruct (debug_off_is_silent (platform := plain_platform)
              (client_with None) (world_with unreachable_server) eq_refl)
    as (_ & _ & _ & Hdraft & _).
  exact (Hdraft [("path", "/blog")]).
Defined.

(* ================================================================== *)
(** * Further properties: the validation of a draft URL *)

(** X16.  [validateDraftUrl] leaves the instance as it was.  When the
    URL of the endpoint is built, it sends one request and no more: a
    POST to that URL with credentials ["include"], an Accept of JSON:API
    and a Content-Type of JSON whatever the instance has under these
    names, the search parameters as a JSON object for a body, and no
    Authorization but the one that the headers of the instance may hold:
    the auth of the instance is not used.  When the URL cannot be built,
    it sends nothing. *)
Theorem validateDraftUrl_request {platform : Platform}
    (searchParams : list (string * string)) (this : Client.t) (w : World.t) :
  let run := validateDraftUrl searchParams this w in
  client_after run = this
  /\ match new_URL "/next/draft-url" (Client.baseUrl this) with
     | None => requests_after run = World.requests w
     | Some url =>
         exists request headers,
           requests_after run = (World.requests w ++ [request])%list
           /\ request_input request
              = absolute_input (Client.baseUrl this)
                  (InputString (Url.toString url))
           /\ RequestInit.method (request_init request) = Some "POST"
           /\ RequestInit.credentials (request_init request) = Some "include"
           /\ RequestInit.headers (request_init request) = Some headers
           /\ Headers.get headers "Accept" = Some "application/vnd.api+json"
           /\ Headers.get headers "Content-Type" = Some "application/json"
           /\ Headers.get headers "Authorization"
              = Headers.get (Client._headers this) "Authorization"
           /\ RequestInit.body (request_init request)
              = Some (JsonBody (JObj (fromEntries searchParams)))
     end.
Proof.
  cbv zeta.
  set (started :=
         world_after
           (debug ("Fetching draft url validation for "
                     ++ text_of_null (params_get searchParams "path") ++ ".")
              this w)).
  assert (Hstarted : World.requests started = World.requests w).
  { unfold started, debug, world_after. simpl.
    destruct (Client.isDebugEnabled this); reflexivity. }
  assert (Hlast : forall (response : Response.t) (text : string)
                         (this1 : Client.t) (w1 : World.t),
             client_after ((debug text ;;; ret response) this1 w1) = this1
             /\ requests_after ((debug text ;;; ret response) this1 w1)
                = World.requests w1).
  { intros response text this1 w1.
    unfold bind, debug, ret, client_after, requests_after, world_after.
    simpl. destruct (Client.isDebugEnabled this1); split; reflexivity. }
  unfold validateDraftUrl.
  set (attempt := try_catch _ _).
  assert (Hattempt :
            exists result sent,
              attempt this started = (result, this, sent)
              /\ match new_URL "/next/draft-url" (Client.baseUrl this) with
                 | None => World.requests sent = World.requests w
                 | Some url =>
                     World.requests sent
                     = (World.requests w
                          ++ [mkRequest
                                (absolute_input (Client.baseUrl this)
                                   (InputString (Url.toString url)))
                                (RequestInit.set_headers
                                   (RequestInit.set_credentials
                                      (init (draft_url_options searchParams))
                                      "include")
                                   (merge_headers (Client._headers this)
                                      (RequestInit.headers
                                         (init (draft_url_options
                                                  searchParams)))))])%list
                 end).
  { unfold attempt, try_catch, buildUrl, buildUrl_on, bind, get_this, lift,
      ret.
    destruct (new_URL "/next/draft-url" (Client.baseUrl this)) as [url |].
    - rewrite RunFacts.fetch_run.
      change (authorization_stage (draft_url_options searchParams) this
                started)
        with (@Ok (option string) None, this, started).
      cbv iota zeta.
      match goal with
      | |- context [send ?i ?r this started] =>
          destruct (RunFacts.send_run i r this started)
            as (Hthis & Hreq & _);
          destruct (send i r this started) as [[[response | e] this1] sent]
      end;
        unfold client_after, requests_after, world_after in Hthis, Hreq;
        simpl in Hthis, Hreq; subst this1; rewrite Hstarted in Hreq;
        [| destruct (Exn_message e)];
        eexists; exists sent; (split; [reflexivity | exact Hreq]).
    - eexists. exists started. split; [reflexivity | exact Hstarted]. }
  destruct Hattempt as (result & sent & Hrun & Hsent).
  assert (Hwhole :
            client_after
              ((response <- attempt ;;
                debug (if negb (Response.status response =? 200)%Z
                       then "Could not validate path, "
                            ++ text_of_null (params_get searchParams "path")
                       else "Validated path, "
                            ++ text_of_null (params_get searchParams "path")) ;;;
                ret response) this started) = this
            /\ requests_after
                 ((response <- attempt ;;
                   debug (if negb (Response.status response =? 200)%Z
                          then "Could not validate path, "
                               ++ text_of_null
                                    (params_get searchParams "path")
                          else "Validated path, "
                               ++ text_of_null
                                    (params_get searchParams "path")) ;;;
                   ret response) this started)
               = World.requests sent).
  { unfold bind at 1 3. rewrite Hrun.
    destruct result as [response | e]; [apply Hlast |].
    split; reflexivity. }
  destruct Hwhole as [Hthis Hreq].
  change (client_after
            ((response <- attempt ;;
              debug (if negb (Response.status response =? 200)%Z
                     then "Could not validate path, "
                          ++ text_of_null (params_get searchParams "path")
                     else "Validated path, "
                          ++ text_of_null (params_get searchParams "path")) ;;;
              ret response) this started) = this
          /\ match new_URL "/next/draft-url" (Client.baseUrl this) with
             | None =>
                 requests_after
                   ((response <- attempt ;;
                     debug (if negb (Response.status response =? 200)%Z
                            then "Could not validate path, "
                                 ++ text_of_null
                                      (params_get searchParams "path")
                            else "Validated path, "
                                 ++ text_of_null
                                      (params_get searchParams "path")) ;;;
                     ret response) this started)
                 = World.requests w
             | Some url =>
                 exists request headers,
                   requests_after
                     ((response <- attempt ;;
                       debug (if negb (Response.status response =? 200)%Z
                              then "Could not validate path, "
                                   ++ text_of_null
                                        (params_get searchParams "path")
                              else "Validated path, "
                                   ++ text_of_null
                                        (params_get searchParams "path")) ;;;
                       ret response) this started)
                   = (World.requests w ++ [request])%list
                   /\ request_input request
                      = absolute_input (Client.baseUrl this)
                          (InputString (Url.toString url))
                   /\ RequestInit.method (request_init request) = Some "POST"
                   /\ RequestInit.credentials (request_init request)
                      = Some "include"
                   /\ RequestInit.headers (request_init request)
                      = Some headers
                   /\ Headers.get headers "Accept"
                      = Some "application/vnd.api+json"
                   /\ Headers.get headers "Content-Type"
                      = Some "application/json"
                   /\ Headers.get headers "Authorization"
                      = Headers.get (Client._headers this) "Authorization"
                   /\ RequestInit.body (request_init request)
                      = Some (JsonBody (JObj (fromEntries searchParams)))
             end).
  split; [exact Hthis |].
  rewrite Hreq.
  destruct (new_URL "/next/draft-url" (Client.baseUrl this)) as [url |];
    [| exact Hsent].
  eexists. eexists. split; [exact Hsent |].
  split; [reflexivity |]. split; [reflexivity |]. split; [reflexivity |].
  split; [reflexivity |].
  split; [rewrite HeadersFacts.get_merge_headers; reflexivity |].
  split; [rewrite HeadersFacts.get_merge_headers; reflexivity |].
  split; [rewrite HeadersFacts.get_merge_headers; reflexivity |].
  reflexivity.
Qed.

(* ================================================================== *)
(** * Further properties: a request with the token of the client *)




(* ================================================================== *)
(** * Further properties: the number of requests *)

Lemma sends_nothing {A : Type} (n : nat) (m : M A) :
  (forall this w, requests_after (m this w) = World.requests w) ->
  sends_at_most n m.
Proof.
  intros Hm this w. exists []. rewrite Hm, app_nil_r.
  split; [reflexivity | simpl; lia].
Qed.

Lemma sends_ret {A : Type} (n : nat) (a : A) : sends_at_most n (ret a).
Proof. apply sends_nothing. reflexivity. Qed.

Lemma sends_throw {A : Type} (n : nat) (e : Exn) :
  sends_at_most n (@throw A e).
Proof. apply sends_nothing. reflexivity. Qed.

Lemma sends_get_this (n : nat) : sends_at_most n get_this.
Proof. apply sends_nothing. reflexivity. Qed.

Lemma sends_debug (n : nat) (message : string) :
  sends_at_most n (debug message).
Proof.
  apply sends_nothing. intros this w.
  unfold debug, requests_after, world_after. simpl.
  destruct (Client.isDebugEnabled this); reflexivity.
Qed.

Lemma sends_bind {A B : Type} (n k : nat) (m : M A) (f : A -> M B) :
  sends_at_most n m -> (forall a, sends_at_most k (f a)) ->
  sends_at_most (n + k) (bind m f).
Proof.
  intros Hm Hf this w. destruct (Hm this w) as (first & Hfirst & Hn).
  unfold bind, requests_after, world_after in *.
  destruct (m this w) as [[[a | e] this1] w1]; simpl in Hfirst.
  - destruct (Hf a this1 w1) as (then_ & Hthen & Hk).
    unfold requests_after, world_after in Hthen.
    exists (first ++ then_)%list. rewrite Hthen, Hfirst, app_assoc.
    split; [reflexivity | rewrite length_app; lia].
  - exists first. split; [exact Hfirst | lia].
Qed.

Lemma sends_try_catch {A : Type} (n k : nat) (m : M A)
    (handler : Exn -> M A) :
  sends_at_most n m -> (forall e, sends_at_most k (handler e)) ->
  sends_at_most (n + k) (try_catch m handler).
Proof.
  intros Hm Hh this w. destruct (Hm this w) as (first & Hfirst & Hn).
  unfold try_catch, requests_after, world_after in *.
  destruct (m this w) as [[[a | e] this1] w1]; simpl in Hfirst.
  - exists first. split; [exact Hfirst | lia].
  - destruct (Hh e this1 w1) as (then_ & Hthen & Hk).
    unfold requests_after, world_after in Hthen.
    exists (first ++ then_)%list. rewrite Hthen, Hfirst, app_assoc.
    split; [reflexivity | rewrite length_app; lia].
Qed.

Lemma sends_send (input : RequestInfo) (init : RequestInit.t) :
  sends_at_most 1 (send input init).
Proof.
  intros this w.
  destruct (RunFacts.send_run input init this w) as (_ & Hreq & _).
  exists [mkRequest input init]. split; [exact Hreq | simpl; lia].
Qed.

Lemma sends_getAccessToken {platform : Platform}
    (clientIdSecret : option NextDrupalAuth.Fields) :
  sends_at_most 1 (getAccessToken clientIdSecret).
Proof.
  intros this w.
  destruct (RunFacts.getAccessToken_summary clientIdSecret this w)
    as [[_ Hsame] | (auth & url & stored_at & Hreq & _)].
  - exists []. rewrite Hsame, app_nil_r. split; [reflexivity | simpl; lia].
  - eexists. split; [exact Hreq | simpl; lia].
Qed.

Lemma sends_getAuthorizationHeader {platform : Platform}
    (auth : option NextDrupalAuth.t) :
  sends_at_most 1 (getAuthorizationHeader auth).
Proof.
  unfold getAuthorizationHeader, getAuthorizationHeader_with.
  destruct (isBasicAuth auth).
  { apply (sends_bind 0 1); [apply sends_debug | intros; apply sends_ret]. }
  destruct (isClientIdSecretAuth auth).
  { apply (sends_bind 1 0); [apply sends_getAccessToken |].
    intros token.
    apply (sends_bind 0 0); [apply sends_debug | intros; apply sends_ret]. }
  destruct (isAccessTokenAuth auth).
  { apply (sends_bind 0 1); [apply sends_debug | intros; apply sends_ret]. }
  destruct auth as [[f | value | produce] |];
    try apply sends_throw;
    (apply (sends_bind 0 1); [apply sends_debug | intros; apply sends_ret]).
Qed.

Lemma sends_authorization_stage {platform : Platform}
    (options : FetchOptions) :
  sends_at_most (if withAuth_truthy (withAuth options) then 1 else 0)
    (authorization_stage options).
Proof.
  unfold authorization_stage.
  destruct (withAuth_truthy (withAuth options)); [| apply sends_ret].
  apply (sends_bind 0 1); [apply sends_get_this |].
  intros this.
  apply (sends_bind 1 0); [apply sends_getAuthorizationHeader |].
  intros header. apply sends_ret.
Qed.

Lemma sends_fetch {platform : Platform}
    (input : RequestInfo) (options : FetchOptions) :
  sends_at_most (if withAuth_truthy (withAuth options) then 2 else 1)
    (fetch input options).
Proof.
  intros this w. rewrite RunFacts.fetch_run.
  destruct (sends_authorization_stage options this w)
    as (first & Hfirst & Hn).
  unfold requests_after, world_after in *.
  destruct (authorization_stage options this w)
    as [[[authorization | e] this1] w1]; simpl in Hfirst.
  - cbv zeta.
    match goal with
    | |- context [send ?i ?r this1 w1] =>
        destruct (RunFacts.send_run i r this1 w1) as (_ & Hreq & _);
        exists (first ++ [mkRequest i r])%list
    end.
    unfold requests_after, world_after in Hreq.
    rewrite Hreq, Hfirst, app_assoc. split; [reflexivity |].
    rewrite length_app. simpl.
    destruct (withAuth_truthy (withAuth options)); lia.
  - exists first. split; [exact Hfirst |].
    destruct (withAuth_truthy (withAuth options)); lia.
Qed.

(** X18.  The methods only add to the record of the requests, and
    little: [getAccessToken] and [getAuthorizationHeader] send at most
    one request; [fetch] sends at most two, and at most one when
    [withAuth] is not set; [validateDraftUrl] sends at most one; and
    [buildEndpoint] sends none. *)
Theorem methods_send_few {platform : Platform} :
  (forall clientIdSecret, sends_at_most 1 (getAccessToken clientIdSecret))
  /\ (forall auth, sends_at_most 1 (getAuthorizationHeader auth))
  /\ (forall input options,
        sends_at_most (if withAuth_truthy (withAuth options) then 2 else 1)
          (fetch input options))
  /\ (forall searchParams, sends_at_most 1 (validateDraftUrl searchParams))
  /\ (forall locale path searchParams,
        sends_at_most 0 (buildEndpoint locale path searchParams)).
Proof.
  split; [exact sends_getAccessToken |].
  split; [exact sends_getAuthorizationHeader |].
  split; [exact sends_fetch |].
  split.
  - intros searchParams. unfold validateDraftUrl.
    apply (sends_bind 0 1); [apply sends_debug | intros _].
    apply (sends_bind 1 0).
    + apply (sends_try_catch 1 0).
      2:{ intros e. apply (sends_bind 0 0); [| intros; apply sends_ret].
          apply sends_nothing. reflexivity. }
      apply (sends_bind 0 1).
      * apply sends_nothing. intros this w.
        unfold buildUrl, bind, get_this, lift. reflexivity.
      * intros url.
        exact (sends_fetch (InputString (Url.toString url))
                 (draft_url_options searchParams)).
    + intros response.
      apply (sends_bind 0 0); [apply sends_debug | intros; apply sends_ret].
  - intros locale path searchParams.
    apply sends_nothing. intros this w.
    unfold buildEndpoint, buildUrl, bind, get_this, lift, ret.
    destruct (buildUrl_on _ _ _); reflexivity.
Qed.

(* ================================================================== *)
(** * Further properties: URLs and the front page *)

(** X19.  [buildUrl] reads the instance and changes nothing.  It
    throws only when the platform refuses the path on the base URL.
    Otherwise the URL it returns differs from the parsed one in the query
    at most: without search parameters, or with the empty string for
    them, it is the parsed URL; a JSON:API parameter object counts as its
    query object; and a non-empty string or a [URLSearchParams], of which
    [stringify] makes the empty string, leaves the URL with no query, the
    query of the path included. *)
Theorem buildUrl_changes_the_query_only {platform : Platform}
    (path : string) (searchParams : option EndpointSearchParams)
    (this : Client.t) (w : World.t) :
  let run := buildUrl path searchParams this w in
  client_after run = this
  /\ world_after run = w
  /\ match new_URL path (Client.baseUrl this) with
     | None => outcome run = Throw (TypeError "Invalid URL")
     | Some parsed =>
         exists url,
           outcome run = Ok url
           /\ Url.scheme url = Url.scheme parsed
           /\ Url.authority url = Url.authority parsed
           /\ Url.pathname url = Url.pathname parsed
           /\ Url.fragment url = Url.fragment parsed
           /\ match searchParams with
              | None | Some (ParamsString "") => url = parsed
              | Some (ParamsString _) | Some (ParamsURLSearchParams _) =>
                  Url.query url = None
              | Some (ParamsRecord fields) | Some (ParamsJsonApi fields) =>
                  url = Url.set_search parsed (Qs.stringify fields)
              end
     end.
Proof.
  cbv zeta. unfold buildUrl, buildUrl_on, bind, get_this, lift, outcome,
    client_after, world_after.
  simpl fst. simpl snd.
  split; [reflexivity |]. split; [reflexivity |].
  destruct (new_URL path (Client.baseUrl this)) as [parsed |];
    [| reflexivity].
  destruct searchParams as [[[| c text] | fields | entries | fields] |];
    eexists; (split; [reflexivity |]);
    unfold Url.set_search;
    try destruct (negb (truthy (Qs.stringify fields)));
    repeat split; reflexivity.
Qed.

(** X20.  An empty segment (the empty string, the empty array, or the
    array of the empty string) gives the front page of the instance when
    the normalised path prefix is empty, and the path prefix alone, never
    the front page, when it is not; each under the locale prefix.  A
    string segment is the array of that one string. *)
Theorem constructPathFromSegment_front_page
    (frontPage : string) (options : PathOptions) :
  let home :=
    let rooted :=
      if truthy frontPage && negb (startsWith "/" frontPage)
      then "/" ++ frontPage else frontPage in
    if endsWith "/" rooted then slice_0_m1 rooted else rooted in
  (forall s,
      constructPathFromSegment frontPage (SegString s) options
      = constructPathFromSegment frontPage (SegArray [s]) options)
  /\ constructPathFromSegment frontPage (SegArray [""]) options
     = constructPathFromSegment frontPage (SegArray []) options
  /\ (normalize_pathPrefix options = "" ->
      constructPathFromSegment frontPage (SegArray []) options
      = addLocalePrefix home options)
  /\ (normalize_pathPrefix options <> "" ->
      constructPathFromSegment frontPage (SegArray []) options
      = addLocalePrefix (normalize_pathPrefix options) options).
Proof.
  cbv zeta. split; [| split; [reflexivity | split]].
  - intros [| c s]; reflexivity.
  - intros Hprefix. unfold constructPathFromSegment.
    rewrite Hprefix. reflexivity.
  - intros Hprefix. unfold constructPathFromSegment.
    simpl segment_parts. simpl map.
    change (join "/" []) with "".
    replace (truthy (normalize_pathPrefix options)) with true
      by (symmetry; apply SlashFacts.truthy_true; exact Hprefix).
    change (if negb (truthy "") && negb true then frontPage else "")
      with "".
    change (if truthy "" && negb (startsWith "/" "") then "/" ++ "" else "")
      with "".
    change (if endsWith "/" "" then slice_0_m1 "" else "") with "".
    replace (normalize_pathPrefix options ++ "")
      with (normalize_pathPrefix options); [reflexivity |].
    clear Hprefix. generalize (normalize_pathPrefix options).
    intros prefix. induction prefix as [| c rest IH]; [reflexivity |].
    simpl. f_equal. exact IH.
Qed.

Lemma constructPathFromSegment_front_page_witness :
  constructPathFromSegment "home/" (SegString "")
    (mkPathOptions (Some "fr") (Some "en") (Some "/"))
  = "/fr/home"
  /\ constructPathFromSegment "home/" (SegString "")
       (mkPathOptions (Some "fr") (Some "en") (Some "blog"))
     = "/fr/blog".
Proof.
  destruct (constructPathFromSegment_front_page "home/"
              (mkPathOptions (Some "fr") (Some "en") (Some "/")))
    as (Hstring & Hsame & Hhome & _).
  destruct (constructPathFromSegment_front_page "home/"
              (mkPathOptions (Some "fr") (Some "en") (Some "blog")))
    as (Hstring' & Hsame' & _ & Hprefix).
  split.
  - rewrite Hstring, Hsame. exact (Hhome eq_refl).
  - rewrite Hstring', Hsame'. apply Hprefix. discriminate.
Defined.
